(** * The selective struct column reader, the [map_union_sum] aggregate and
      the data sinks

    The first and larger part is a shallow embedding of
    [velox/dwio/common/SelectiveStructColumnReader.cpp]:
    the struct reader's [skip], [next], [read], [recordParentNullsInChildren],
    [isChildConstant], [fillRowVectorChildren], [tryReuseResult],
    [setConstantField], [setNullField] and [getValues], over an abstract
    child-reader interface and an abstract format-data interface.

    The struct reader's overrides of the child-reader interface are named
    [structSkip], [structNext], [structRead] and [structGetValues]; the plain
    names [skip], [read] and [getValues] are the virtual calls on a child.

    Conventions.
    - Row numbers, offsets and sizes are [Z]; the unsigned 64-bit arithmetic
      of [skip] and [next] is written with its wrap-around ([wrapU64]) and
      the narrowing to [vector_size_t] with [toI32].  The signed 32-bit sums
      of [read] ([rows.back() + 1], [offset + rows.back() + 1]) are taken
      with [addI32]: beyond [vector_size_t] they are undefined in the source
      and end the call.  The row numbers that [next] fills in for a reader
      with children are plain [Z]; a theorem that promises a result of
      [next] there bounds [numValues].
    - A bitmap ([const uint64_t*]) is a [Z] read with [Z.testbit]; in a null
      bitmap a set bit means "not null".
    - [std::shared_ptr<BaseVector>] is [option Vector]; every vector object
      carries the use count of its control block.
    - A throwing check, an out-of-range [at] and undefined behaviour (a null
      dereference, [back()] of an empty range) end a call with [Abort].

    The module [MapUnionSum] embeds the accumulator and the aggregate of
    [velox/functions/prestosql/aggregates/MapUnionSumAggregate.cpp] over a
    finite map of sums, with the checked addition, the floating-point
    addition and the iteration order of the hash map as interfaces; the module [DataSink] embeds the write loop,
    the factories and [create] of [velox/dwio/common/DataSink.cpp] over an
    interface to the operating system. *)

From stdpp Require Import base tactics option numbers gmap strings list.

Set Warnings "-register-all".
Open Scope Z_scope.

(** ** Outcomes *)

Inductive Failure :=
| CheckFailed   (* VELOX_CHECK, or VELOX_DCHECK in a debug build *)
| OutOfRange    (* std::vector::at, RowVector::childAt *)
| Undefined.    (* null dereference, back() of an empty range, operator[] out of range *)

Inductive Outcome (A : Type) :=
| Ok (a : A)
| Abort (f : Failure).
Arguments Ok {A} a.
Arguments Abort {A} f.

Definition bind {A B} (m : Outcome A) (k : A → Outcome B) : Outcome B :=
  match m with
  | Ok a => k a
  | Abort f => Abort f
  end.

Notation "'do' x <- m ; k" := (bind m (λ x, k))
  (at level 10, x pattern, m at level 100, k at level 200).

Definition check (b : bool) : Outcome unit :=
  if b then Ok tt else Abort CheckFailed.

(** ** Integers *)

Definition wrapU64 (z : Z) : Z := z mod 2 ^ 64.
Definition toI32 (z : Z) : Z := (z + 2 ^ 31) mod 2 ^ 32 - 2 ^ 31.
Definition sizeOf {A} (l : list A) : Z := Z.of_nat (length l).

(** [v.at(i)] with an index converted to [size_t]: a negative index is out of
    range as well. *)
Definition atZ {A} (l : list A) (i : Z) : option A :=
  if decide (0 ≤ i) then l !! Z.to_nat i else None.

Definition setZ {A} (l : list A) (i : Z) (x : A) : list A :=
  if decide (0 ≤ i) then <[Z.to_nat i := x]> l else l.

(** ** Bitmaps and row sets *)

Definition Bitmap := Z.
Definition RowSet := list Z.

Definition isBitSet (bits : Bitmap) (i : Z) : bool := Z.testbit bits i.

Definition setBit (bits : Bitmap) (i : Z) (value : bool) : Bitmap :=
  if value then Z.setbit bits i else Z.clearbit bits i.

(** Modelled from the spec: [bits::countBits] (BitUtil.h), "the number of
    deleted rows counted in the mutation bitmap over [begin, end)". *)
Definition countBits (bits : Bitmap) (begin end_ : Z) : Z :=
  sizeOf (List.filter (isBitSet bits) (seqZ begin (end_ - begin))).

(** Modelled from the spec: [bits::forEachUnsetBit] (BitUtil.h), "every row
    index in range NOT marked deleted", in increasing order. *)
Definition unsetBits (bits : Bitmap) (begin end_ : Z) : list Z :=
  List.filter (λ i, negb (isBitSet bits i)) (seqZ begin (end_ - begin)).

(** [rows.back()]. *)
Definition back (rows : RowSet) : option Z := list.last rows.

(** ** Types and vectors *)

Inductive Ty :=
| BIGINT
| VARCHAR
| ARRAY (element : Ty)
| MAP (key value : Ty)
| ROW (fields : list Ty).

Definition isRow (t : Ty) : bool :=
  match t with ROW _ => true | _ => false end.

Definition isMap (t : Ty) : bool :=
  match t with MAP _ _ => true | _ => false end.

(** [type->size()]: the number of children. *)
Definition tySize (t : Ty) : Z :=
  match t with
  | ROW fs => sizeOf fs
  | ARRAY _ => 1
  | MAP _ _ => 2
  | _ => 0
  end.

Definition tyChildren (t : Ty) : list Ty :=
  match t with
  | ROW fs => fs
  | ARRAY e => [e]
  | MAP k v => [k; v]
  | _ => []
  end.

(** A [ColumnLoader]: (owning struct reader, child reader, read epoch); the
    owner is the reader that builds it. *)
Record Loader := mkLoader { loaderField : Z; loaderVersion : Z }.

Inductive Vector :=
| RowVector (useCount : nat) (ty : Ty) (nulls : option Bitmap) (size : Z)
    (containsLazyAndIsWrapped : bool) (children : list (option Vector))
| LazyVector (useCount : nat) (ty : Ty) (size : Z) (loader : Loader)
    (loaded : option (option Vector))
| DictionaryVector (useCount : nat) (ty : Ty) (size : Z) (indices : list Z)
    (values : option Vector)
| ConstantVector (useCount : nat) (ty : Ty) (size : Z) (value : option Z)
| FlatVector (useCount : nat) (ty : Ty) (values : list (option Z)).

Definition VectorPtr := option Vector.

Definition useCount (v : Vector) : nat :=
  match v with
  | RowVector u _ _ _ _ _ | LazyVector u _ _ _ _ | DictionaryVector u _ _ _ _
  | ConstantVector u _ _ _ | FlatVector u _ _ => u
  end.

(** [p.unique()]: false on a null pointer. *)
Definition unique (p : VectorPtr) : bool :=
  match p with
  | Some v => Nat.eqb (useCount v) 1
  | None => false
  end.

Definition typeOf (v : Vector) : Ty :=
  match v with
  | RowVector _ t _ _ _ _ | LazyVector _ t _ _ _ | DictionaryVector _ t _ _ _
  | ConstantVector _ t _ _ | FlatVector _ t _ => t
  end.

Definition vsize (v : Vector) : Z :=
  match v with
  | RowVector _ _ _ n _ _ | LazyVector _ _ n _ _ | DictionaryVector _ _ n _ _
  | ConstantVector _ _ n _ => n
  | FlatVector _ _ vs => sizeOf vs
  end.

Definition isConstantEncoding (v : Vector) : bool :=
  match v with ConstantVector _ _ _ _ => true | _ => false end.

Definition isLazy (v : Vector) : bool :=
  match v with LazyVector _ _ _ _ _ => true | _ => false end.

(** The value at a position of a scalar column, [None] for a null. *)
Definition valueAt (v : Vector) (i : Z) : option Z :=
  match v with
  | ConstantVector _ _ _ x => x
  | FlatVector _ _ vs => default None (atZ vs i)
  | _ => None
  end.

(** A row of a vector is null when its bit in the null bitmap is clear; a
    constant is null when its value is. *)
Definition isNullAt (v : Vector) (i : Z) : bool :=
  match v with
  | RowVector _ _ (Some b) _ _ _ => negb (isBitSet b i)
  | RowVector _ _ None _ _ _ => false
  | ConstantVector _ _ _ x => negb (bool_decide (is_Some x))
  | FlatVector _ _ vs => negb (bool_decide (is_Some (default None (atZ vs i))))
  | _ => false
  end.

(** Modelled from the spec: [BaseVector::resize] (absent), which sets the
    number of logical rows of a container ("exactly rows.size() logical
    rows"; "resized in place"). *)
Definition resize (n : Z) (v : Vector) : Vector :=
  match v with
  | RowVector u t nulls _ f cs => RowVector u t nulls n f cs
  | LazyVector u t _ l ld => LazyVector u t n l ld
  | DictionaryVector u t _ ix vs => DictionaryVector u t n ix vs
  | ConstantVector u t _ x => ConstantVector u t n x
  | FlatVector u t vs => FlatVector u t (take (Z.to_nat n) vs ++ replicate (Z.to_nat n - length vs) None)
  end.

(** Modelled from the spec: [BaseVector::wrapInConstant(size, index, vector)]
    (absent), "a constant-encoded column of the target size", freshly
    allocated and held by its one new owner. *)
Definition wrapInConstant (n : Z) (index : Z) (source : VectorPtr) : VectorPtr :=
  match source with
  | Some s => Some (ConstantVector 1 (typeOf s) n (valueAt s index))
  | None => None
  end.

(** Modelled from the spec: [BaseVector::createNullConstant(type, size, pool)]
    (absent), "an all-null constant column of the requested size". *)
Definition createNullConstant (t : Ty) (n : Z) : Vector :=
  ConstantVector 1 t n None.

(** [a->equalValueAt(b, 0, 0)] on scalar columns. *)
Definition equalValueAt (a b : Vector) : bool :=
  bool_decide (valueAt a 0 = valueAt b 0).

(** ** Result assembly helpers *)

(** [fillRowVectorChildren(pool, rowType, children)] on the vector it is
    given at both call sites, [rowType.size()] null pointers: a position
    whose type is a row gets an empty [RowVector], filled the same way; the
    others stay null. *)
Fixpoint fillRowVectorChildren (rowType : Ty) : list VectorPtr :=
  match rowType with
  | ROW fields =>
      List.map
        (λ type,
           if isRow type
           then Some (RowVector 1 type None 0 false (fillRowVectorChildren type))
           else None)
        fields
  | _ => []
  end.

(** Modelled from the spec: [reuseNulls] (absent), "its null storage is
    cleared/resized in place": the storage stays with the container. *)
Definition reuseNulls (nulls : option Bitmap) : option Bitmap := nulls.

(** [tryReuseResult]: the switch on [result->encoding()] is the match on the
    constructor.  On a row container [reuseNulls] keeps the null storage and
    [clearContainingLazyAndWrapped] resets the flag of that name; a lazy
    vector is followed to its loaded vector, a dictionary to its values. *)
Fixpoint tryReuseResult (result : Vector) : VectorPtr :=
  if negb (Nat.eqb (useCount result) 1) then None
  else
    match result with
    | RowVector u t nulls n _ cs => Some (RowVector u t (reuseNulls nulls) n false cs)
    | LazyVector _ _ _ _ loaded =>
        match loaded with
        | None => None
        | Some None => None
        | Some (Some v) => tryReuseResult v
        end
    | DictionaryVector _ _ _ _ values =>
        match values with
        | None => None
        | Some v => tryReuseResult v
        end
    | _ => None
    end.

(** The claim's words: unwrapping through lazy (loaded) and dictionary wrapper
    layers reaches a concrete row container. *)
Fixpoint unwrapsToRow (v : Vector) : bool :=
  match v with
  | RowVector _ _ _ _ _ _ => true
  | LazyVector _ _ _ _ (Some (Some v)) => unwrapsToRow v
  | DictionaryVector _ _ _ _ (Some v) => unwrapsToRow v
  | _ => false
  end.

(** The claim's words: the caller holds the sole reference to the result, and
    unwrapping it reaches a row container. *)
Definition reusableAsStated (result : Vector) : bool :=
  unique (Some result) && unwrapsToRow result.

(** [UniquelyWraps result row]: unwrapping [result] through loaded lazy and
    dictionary layers reaches the row container [row], and every layer on the
    way, [row] included, has one owner. *)
Inductive UniquelyWraps : Vector → Vector → Prop :=
| wraps_row t nulls n flag cs :
    UniquelyWraps (RowVector 1 t nulls n flag cs) (RowVector 1 t nulls n flag cs)
| wraps_lazy t n l v row :
    UniquelyWraps v row → UniquelyWraps (LazyVector 1 t n l (Some (Some v))) row
| wraps_dictionary t n ix v row :
    UniquelyWraps v row → UniquelyWraps (DictionaryVector 1 t n ix (Some v)) row.

(** What [tryReuseResult] does to the row container it hands back. *)
Definition clearedForReuse (row : Vector) : Vector :=
  match row with
  | RowVector u t nulls n _ cs => RowVector u t (reuseNulls nulls) n false cs
  | _ => row
  end.

Definition setConstantField (constant : VectorPtr) (size : Z) (field : VectorPtr)
  : Outcome VectorPtr :=
  match constant with
  | None => Abort Undefined
  | Some c =>
      match field with
      | Some f =>
          if isConstantEncoding f && unique field && bool_decide (0 < vsize f)
             && equalValueAt f c
          then Ok (Some (resize size f))
          else Ok (wrapInConstant size 0 constant)
      | None => Ok (wrapInConstant size 0 constant)
      end
  end.

Definition setNullField (size : Z) (field : VectorPtr) : Outcome VectorPtr :=
  match field with
  | Some f =>
      if isConstantEncoding f && unique field && bool_decide (0 < vsize f) && isNullAt f 0
      then Ok (Some (resize size f))
      else Ok (Some (createNullConstant (typeOf f) size))
  | None =>
      (* the else branch reads [field->type()] through the null pointer *)
      Abort Undefined
  end.

(** Modelled from the spec: [mutableNulls(size)] (absent) hands out the null
    storage, allocating it with every row not null when there is none. *)
Definition mutableNulls (nulls : option Bitmap) (size : Z) : Bitmap :=
  match nulls with
  | Some b => b
  | None => Z.ones size
  end.

(** Modelled from the spec: [clearNulls(begin, end)] (absent), "all rows are
    marked non-null". *)
Definition clearNulls (nulls : option Bitmap) (begin end_ : Z) : option Bitmap :=
  match nulls with
  | Some b => Some (Z.lor b (Z.shiftl (Z.ones (end_ - begin)) begin))
  | None => None
  end.

(** Lines 324-326: [setBit(nulls, i, isBitSet(readerNulls, rows[i]))] for
    [i] from [i0] on. *)
Fixpoint copyNulls (readerNulls : Bitmap) (i0 : Z) (rows : RowSet) (nulls : Bitmap) : Bitmap :=
  match rows with
  | [] => nulls
  | row :: rest => copyNulls readerNulls (i0 + 1) rest (setBit nulls i0 (isBitSet readerNulls row))
  end.

(** Modelled from the spec: [LazyVector::reset(loader, size)] (absent), a
    lazy placeholder "reset in place with a new loader + row count". *)
Definition resetLazy (loader : Loader) (size : Z) (v : Vector) : Vector :=
  match v with
  | LazyVector u t _ _ _ => LazyVector u t size loader None
  | _ => v
  end.

(** ** The scan specification (consumed, read-only contract) *)

Inductive FilterKind := kIsNull | kIsNotNull | kOtherFilter.

(** [SelectivityInfo]: the row counts a [SelectivityTimer] and [addOutput]
    charge.  The hardware clock the timer reads is outside the model. *)
Record Selectivity := mkSelectivity { numIn : Z; numOut : Z }.

Record ChildSpec := mkChildSpec {
  isConstant : bool;
  constantValue : VectorPtr;
  channel : Z;
  subscript : Z;
  projectOut : bool;
  hasFilter : bool;
  extractValues : bool;
  selectivity : Selectivity;
}.

Record ScanSpec := mkScanSpec {
  specChildren : list ChildSpec;
  specFilter : option FilterKind;
  specHasFilter : bool;
  specNumReads : Z;
}.

(** Modelled from the spec: [ScanSpec::kNoChannel] (absent), the channel of
    a child "that doesn't exist in the output": all bits set in the 32-bit
    [column_index_t]. *)
Definition kNoChannel : Z := 2 ^ 32 - 1.

(** Modelled from the spec: [kConstantChildSpecSubscript] (header, absent),
    the 'special "no such child in file" sentinel distinct from "constant"';
    no child index is negative. *)
Definition kConstantChildSpecSubscript : Z := -1.

(** Modelled from the spec: [ScanSpec::newRead] (absent), "Begin a new read
    epoch": it hands out the epoch number and advances it. *)
Definition newRead (s : ScanSpec) : ScanSpec * Z :=
  (mkScanSpec (specChildren s) (specFilter s) (specHasFilter s) (wrapU64 (specNumReads s + 1)),
   specNumReads s).

(** A child spec without its selectivity counters: what a read never
    changes. *)
Definition specCore (c : ChildSpec) :=
  (isConstant c, constantValue c, channel c, subscript c, projectOut c, hasFilter c,
   extractValues c).

Definition setSelectivity (sel : Selectivity) (c : ChildSpec) : ChildSpec :=
  mkChildSpec (isConstant c) (constantValue c) (channel c) (subscript c)
    (projectOut c) (hasFilter c) (extractValues c) sel.

Definition setSpecChildren (cs : list ChildSpec) (s : ScanSpec) : ScanSpec :=
  mkScanSpec cs (specFilter s) (specHasFilter s) (specNumReads s).

(** A [Mutation]: the deleted-row bitmap may be absent. *)
Record Mutation := mkMutation { deletedRows : option Bitmap }.

(** ** The collaborators' contracts *)

(** The child-reader contract ([SelectiveColumnReader]'s virtual interface)
    as the struct reader consumes it.  [advanceFieldReader] is the struct
    reader's own helper from the header; it only acts on the child, so it is
    taken here as one more operation on a child. *)
Class ColumnReader (R : Type) := {
  readOffset : R → Z;
  outputRows : R → RowSet;
  isTopLevel : R → bool;
  skip : R → Z → Outcome (R * Z);
  setReadOffsetRecursive : R → Z → R;
  advanceFieldReader : R → Z → Outcome R;
  resetInitTimeClocks : R → R;
  initTimeClocks : R → Z;
  read : R → Z → RowSet → option Bitmap → Outcome R;
  addParentNulls : R → Z → option Bitmap → RowSet → R;
  getValues : R → RowSet → VectorPtr → Outcome (R * VectorPtr);
  (** the read offsets of the reader and of every reader below it *)
  subtreeReadOffsets : R → list Z;
}.

(** The format-data contract: [skipNulls(n)] answers the number of non-null
    rows among the next [n]; [readNulls] is what [prepareRead] asks for. *)
Class FormatData (F : Type) := {
  skipNulls : F → Z → F * Z;
  parentNullsInLeaves : F → bool;
  readNulls : F → Z → option Bitmap → F * option Bitmap;
}.

Definition isOk {A} (o : Outcome A) : Prop := ∃ a, o = Ok a.

(** What the struct reader relies on in its children. *)
Section Contract.
Context {R : Type} `{ColumnReader R}.

(** [skip] moves the data, not the reader's own read offset. *)
Definition skipKeepsReadOffset : Prop :=
  ∀ (c c' : R) n k, skip c n = Ok (c', k) → readOffset c' = readOffset c.

(** [setReadOffsetRecursive] sets the read offset of the reader and of every
    reader below it. *)
Definition setReadOffsetRecursiveReachesSubtree : Prop :=
  ∀ (c : R) pos,
    readOffset (setReadOffsetRecursive c pos) = pos ∧
    Forall (eq pos) (subtreeReadOffsets (setReadOffsetRecursive c pos)).

(** The output rows of a read are among the rows it was asked for. *)
Definition readNarrowsRows : Prop :=
  ∀ (c c' : R) offset rows nulls,
    read c offset rows nulls = Ok c' → outputRows c' ⊆ rows.

End Contract.

(** ** Calls issued to the children *)

(** The log of what a call does to the child readers and to the selectivity
    counters, in program order.  [spec] is a position in the scan spec's
    children, [field] an index into [children_].  [CallOutputRows] records
    what [reader->outputRows()] answered after a filtered read. *)
Inductive Event :=
| CallSkip (field : nat) (n : Z)
| CallSetReadOffsetRecursive (field : nat) (pos : Z)
| CallAdvanceFieldReader (spec : nat) (field : Z) (offset : Z)
| CallRead (spec : nat) (field : Z) (offset : Z) (rows : RowSet) (nulls : option Bitmap)
| CallOutputRows (spec : nat) (field : Z) (answer : RowSet)
| ChargeSelectivity (spec : nat) (input output : Z)
| CallAddParentNulls (spec : nat) (field : Z) (offset : Z) (nulls : option Bitmap) (rows : RowSet)
| CallGetValues (spec : nat) (field : Z) (rows : RowSet).

(** The scan-spec position an event is about, when it has one. *)
Definition eventSpec (e : Event) : option nat :=
  match e with
  | CallSkip _ _ | CallSetReadOffsetRecursive _ _ => None
  | CallAdvanceFieldReader i _ _ | CallRead i _ _ _ _ | CallOutputRows i _ _
  | ChargeSelectivity i _ _
  | CallAddParentNulls i _ _ _ _ | CallGetValues i _ _ => Some i
  end.

(** The offset an event passes to the child is [offset]. *)
Definition eventAt (offset : Z) (e : Event) : Prop :=
  match e with
  | CallAdvanceFieldReader _ _ off | CallRead _ _ off _ _ | CallAddParentNulls _ _ off _ _ =>
      off = offset
  | _ => True
  end.

(** The active rows an event shows: those a child is read on, and those it
    answers as its output rows. *)
Definition activeRowsOf (e : Event) : option RowSet :=
  match e with
  | CallRead _ _ _ rows _ | CallOutputRows _ _ rows => Some rows
  | _ => None
  end.

Definition isCallRead (e : Event) : bool :=
  match e with CallRead _ _ _ _ _ => true | _ => false end.

Definition isCallAddParentNulls (e : Event) : bool :=
  match e with CallAddParentNulls _ _ _ _ _ => true | _ => false end.

(** ** The struct reader's state *)

Section StructReader.
Context {R F : Type} `{ColumnReader R} `{FormatData F}.
(** Whether [VELOX_DCHECK]s are compiled in. *)
Context (debugBuild : bool).

Record Reader := mkReader {
  readOffset_ : Z;
  inputRows_ : RowSet;
  outputRows_ : RowSet;
  nullsInReadRange_ : option Bitmap;
  numReads_ : Z;
  lazyVectorReadOffset_ : Z;
  rows_ : list Z;
  mutation_ : option Mutation;
  hasMutation_ : bool;
  isRoot_ : bool;
  fileType_ : Ty;
  scanSpec_ : ScanSpec;
  formatData_ : F;
  children_ : list (option R);
  (** the calls issued so far (not a field of the source) *)
  calls : list Event;
}.

Definition withReadOffset (v : Z) (s : Reader) : Reader :=
  mkReader v (inputRows_ s) (outputRows_ s) (nullsInReadRange_ s) (numReads_ s)
    (lazyVectorReadOffset_ s) (rows_ s) (mutation_ s) (hasMutation_ s) (isRoot_ s)
    (fileType_ s) (scanSpec_ s) (formatData_ s) (children_ s) (calls s).

Definition withInputRows (v : RowSet) (s : Reader) : Reader :=
  mkReader (readOffset_ s) v (outputRows_ s) (nullsInReadRange_ s) (numReads_ s)
    (lazyVectorReadOffset_ s) (rows_ s) (mutation_ s) (hasMutation_ s) (isRoot_ s)
    (fileType_ s) (scanSpec_ s) (formatData_ s) (children_ s) (calls s).

Definition withOutputRows (v : RowSet) (s : Reader) : Reader :=
  mkReader (readOffset_ s) (inputRows_ s) v (nullsInReadRange_ s) (numReads_ s)
    (lazyVectorReadOffset_ s) (rows_ s) (mutation_ s) (hasMutation_ s) (isRoot_ s)
    (fileType_ s) (scanSpec_ s) (formatData_ s) (children_ s) (calls s).

Definition withNulls (v : option Bitmap) (s : Reader) : Reader :=
  mkReader (readOffset_ s) (inputRows_ s) (outputRows_ s) v (numReads_ s)
    (lazyVectorReadOffset_ s) (rows_ s) (mutation_ s) (hasMutation_ s) (isRoot_ s)
    (fileType_ s) (scanSpec_ s) (formatData_ s) (children_ s) (calls s).

Definition withNumReads (v : Z) (s : Reader) : Reader :=
  mkReader (readOffset_ s) (inputRows_ s) (outputRows_ s) (nullsInReadRange_ s) v
    (lazyVectorReadOffset_ s) (rows_ s) (mutation_ s) (hasMutation_ s) (isRoot_ s)
    (fileType_ s) (scanSpec_ s) (formatData_ s) (children_ s) (calls s).

Definition withLazyVectorReadOffset (v : Z) (s : Reader) : Reader :=
  mkReader (readOffset_ s) (inputRows_ s) (outputRows_ s) (nullsInReadRange_ s) (numReads_ s)
    v (rows_ s) (mutation_ s) (hasMutation_ s) (isRoot_ s)
    (fileType_ s) (scanSpec_ s) (formatData_ s) (children_ s) (calls s).

Definition withRows (v : list Z) (s : Reader) : Reader :=
  mkReader (readOffset_ s) (inputRows_ s) (outputRows_ s) (nullsInReadRange_ s) (numReads_ s)
    (lazyVectorReadOffset_ s) v (mutation_ s) (hasMutation_ s) (isRoot_ s)
    (fileType_ s) (scanSpec_ s) (formatData_ s) (children_ s) (calls s).

Definition withMutation (m : option Mutation) (b : bool) (s : Reader) : Reader :=
  mkReader (readOffset_ s) (inputRows_ s) (outputRows_ s) (nullsInReadRange_ s) (numReads_ s)
    (lazyVectorReadOffset_ s) (rows_ s) m b (isRoot_ s)
    (fileType_ s) (scanSpec_ s) (formatData_ s) (children_ s) (calls s).

Definition withScanSpec (v : ScanSpec) (s : Reader) : Reader :=
  mkReader (readOffset_ s) (inputRows_ s) (outputRows_ s) (nullsInReadRange_ s) (numReads_ s)
    (lazyVectorReadOffset_ s) (rows_ s) (mutation_ s) (hasMutation_ s) (isRoot_ s)
    (fileType_ s) v (formatData_ s) (children_ s) (calls s).

Definition withFormatData (v : F) (s : Reader) : Reader :=
  mkReader (readOffset_ s) (inputRows_ s) (outputRows_ s) (nullsInReadRange_ s) (numReads_ s)
    (lazyVectorReadOffset_ s) (rows_ s) (mutation_ s) (hasMutation_ s) (isRoot_ s)
    (fileType_ s) (scanSpec_ s) v (children_ s) (calls s).

Definition withChildren (v : list (option R)) (s : Reader) : Reader :=
  mkReader (readOffset_ s) (inputRows_ s) (outputRows_ s) (nullsInReadRange_ s) (numReads_ s)
    (lazyVectorReadOffset_ s) (rows_ s) (mutation_ s) (hasMutation_ s) (isRoot_ s)
    (fileType_ s) (scanSpec_ s) (formatData_ s) v (calls s).

Definition logCalls (es : list Event) (s : Reader) : Reader :=
  mkReader (readOffset_ s) (inputRows_ s) (outputRows_ s) (nullsInReadRange_ s) (numReads_ s)
    (lazyVectorReadOffset_ s) (rows_ s) (mutation_ s) (hasMutation_ s) (isRoot_ s)
    (fileType_ s) (scanSpec_ s) (formatData_ s) (children_ s) (calls s ++ es).

(** Every field but the children, the scan spec and the log. *)
Definition frame (s : Reader) :=
  (readOffset_ s, inputRows_ s, outputRows_ s, nullsInReadRange_ s, numReads_ s,
   lazyVectorReadOffset_ s, rows_ s, mutation_ s, hasMutation_ s, isRoot_ s,
   fileType_ s, formatData_ s).

(** ** [skip] *)

(** The body of the loop over [children_], from position [i] on. *)
Fixpoint skipChildren (i : nat) (cs : list (option R)) (numNonNulls numValues : Z)
  : Outcome (list (option R) * list Event) :=
  match cs with
  | [] => Ok ([], [])
  | None :: rest =>
      do (rest', es) <- skipChildren (S i) rest numNonNulls numValues;
      Ok (None :: rest', es)
  | Some child :: rest =>
      do (child1, _) <- skip child numNonNulls;
      let pos := toI32 (wrapU64 (readOffset child1 + numValues)) in
      let child2 := setReadOffsetRecursive child1 pos in
      do (rest', es) <- skipChildren (S i) rest numNonNulls numValues;
      Ok (Some child2 :: rest',
          CallSkip i numNonNulls :: CallSetReadOffsetRecursive i pos :: es)
  end.

Definition structSkip (s : Reader) (numValues : Z) : Outcome (Reader * Z) :=
  let '(fmt, numNonNulls) := skipNulls (formatData_ s) numValues in
  let s := withFormatData fmt s in
  do (cs, es) <- skipChildren 0 (children_ s) numNonNulls numValues;
  Ok (logCalls es (withChildren cs s), numValues).

(** Modelled from the spec: the struct reader's [setReadOffsetRecursive]
    (header, absent): "This offset-correction must be applied recursively
    into grandchildren, not just direct children". *)
Definition structSetReadOffsetRecursive (s : Reader) (pos : Z) : Reader :=
  withChildren (fmap (M := list) (fmap (M := option) (λ c, setReadOffsetRecursive c pos)) (children_ s))
    (withReadOffset pos s).

Definition structSubtreeReadOffsets (s : Reader) : list Z :=
  readOffset_ s :: mbind (M := list) (λ c, from_option subtreeReadOffsets [] c) (children_ s).

(** ** Helpers of the base class *)

(** Modelled from the spec: [SelectiveColumnReader::prepareRead] (absent),
    "compute this struct's own null bitmap for the requested rows (from
    format-level null data plus incomingNulls), for the current window".  It
    remembers the input rows and starts the output row set empty; the reader
    has been positioned at [offset] by its caller. *)
Definition prepareRead (s : Reader) (offset : Z) (rows : RowSet)
    (incomingNulls : option Bitmap) : Outcome Reader :=
  match back rows with
  | None => Abort Undefined
  | Some b =>
      let '(fmt, nulls) := readNulls (formatData_ s) (b + 1) incomingNulls in
      Ok (withOutputRows [] (withInputRows rows (withNulls nulls (withFormatData fmt s))))
  end.

(** Modelled from the spec: [addOutputRow] (absent) appends a row to the
    output row set. *)
Definition addOutputRows (rs : list Z) (s : Reader) : Reader :=
  withOutputRows (outputRows_ s ++ rs) s.

(** Modelled from the spec: [setOutputRows] (absent), "record the final
    active row set as this reader's own output row set". *)
Definition setOutputRows (rows : RowSet) (s : Reader) : Reader :=
  withOutputRows rows s.

(** Modelled from the spec: the accessor [outputRows()] (absent): the output
    row set of a reader with a filter or a mutation, its input rows
    otherwise. *)
Definition structOutputRows (s : Reader) : RowSet :=
  if specHasFilter (scanSpec_ s) || hasMutation_ s then outputRows_ s else inputRows_ s.

(** Modelled from the spec: [filterNulls] (absent), "evaluate it against the
    struct null bitmap, narrowing active rows further": the rows of
    [activeRows] that are null (is-null) or not null (is-not-null) become
    output rows; without a null bitmap no row is null. *)
Definition filterNulls (activeRows : RowSet) (isNull : bool) (s : Reader) : Reader :=
  match nullsInReadRange_ s with
  | None => if isNull then s else addOutputRows activeRows s
  | Some nulls =>
      addOutputRows
        (List.filter (λ row, if isNull then negb (isBitSet nulls row) else isBitSet nulls row)
           activeRows) s
  end.

(** ** [isChildConstant] *)

Definition isChildConstant (s : Reader) (childSpec : ChildSpec) : bool :=
  isConstant childSpec ||
  (negb (isRoot_ s) &&
   negb (bool_decide (channel childSpec = kNoChannel)) &&
   negb (isMap (fileType_ s)) &&
   bool_decide (tySize (fileType_ s) ≤ channel childSpec)).

(** [children_.at(fieldIndex)] followed by a use of the reader. *)
Definition readerAt (s : Reader) (fieldIndex : Z) : Outcome R :=
  match atZ (children_ s) fieldIndex with
  | None => Abort OutOfRange
  | Some None => Abort Undefined
  | Some (Some reader) => Ok reader
  end.

Definition putChild (fieldIndex : Z) (reader : R) (s : Reader) : Reader :=
  withChildren (setZ (children_ s) fieldIndex (Some reader)) s.

(** ** [recordParentNullsInChildren] *)

Fixpoint recordParentNullsLoop (i : nat) (childSpecs : list ChildSpec) (s : Reader)
    (offset : Z) (rows : RowSet) : Outcome Reader :=
  match childSpecs with
  | [] => Ok s
  | childSpec :: rest =>
      if isChildConstant s childSpec then recordParentNullsLoop (S i) rest s offset rows
      else
        let fieldIndex := subscript childSpec in
        do reader <- readerAt s fieldIndex;
        let reader := addParentNulls reader offset (nullsInReadRange_ s) rows in
        let s := logCalls [CallAddParentNulls i fieldIndex offset (nullsInReadRange_ s) rows]
                   (putChild fieldIndex reader s) in
        recordParentNullsLoop (S i) rest s offset rows
  end.

Definition recordParentNullsInChildren (s : Reader) (offset : Z) (rows : RowSet)
  : Outcome Reader :=
  if parentNullsInLeaves (formatData_ s) then Ok s
  else recordParentNullsLoop 0 (specChildren (scanSpec_ s)) s offset rows.

(** ** [read] *)

(** Where a block of [read] leaves the call: at a [return], or going on with
    the active rows. *)
Inductive Flow :=
| Return (s : Reader)
| Continue (s : Reader) (activeRows : RowSet).

(** A sum of two [vector_size_t]: beyond its 32 bits the sum is undefined. *)
Definition addI32 (a b : Z) : Outcome Z :=
  if bool_decide (- 2 ^ 31 ≤ a + b < 2 ^ 31) then Ok (a + b) else Abort Undefined.

(** Lines 98-113: the rows a mutation leaves. *)
Definition applyMutation (s : Reader) (offset : Z) (rows : RowSet) : Outcome Flow :=
  if hasMutation_ s then
    do _ <- check (negb debugBuild || negb (bool_decide (is_Some (nullsInReadRange_ s))));
    match back rows with
    | None => Abort Undefined
    | Some b =>
        do _ <- check (negb debugBuild || bool_decide (b = sizeOf rows - 1));
        match mutation_ s with
        | None => Abort Undefined
        | Some m =>
            match deletedRows m with
            | None => Abort Undefined
            | Some deleted =>
                do end_ <- addI32 b 1;
                let s := addOutputRows (unsetBits deleted 0 end_) s in
                if bool_decide (outputRows_ s = [])
                then
                  do sum <- addI32 offset b;
                  do readOffset <- addI32 sum 1;
                  Ok (Return (withReadOffset readOffset s))
                else Ok (Continue s (outputRows_ s))
            end
        end
    end
  else Ok (Continue s rows).

(** Lines 116-129: the struct's own null / not-null filter. *)
Definition applyStructFilter (s : Reader) (offset : Z) (rows activeRows : RowSet)
  : Outcome Flow :=
  match specFilter (scanSpec_ s) with
  | Some kind =>
      do _ <- check (match kind with kIsNull | kIsNotNull => true | _ => false end);
      let s := filterNulls activeRows (match kind with kIsNull => true | _ => false end) s in
      if bool_decide (outputRows_ s = [])
      then do s <- recordParentNullsInChildren s offset rows; Ok (Return s)
      else Ok (Continue s (outputRows_ s))
  | None => Ok (Continue s activeRows)
  end.

(** Modelled from the spec: [SelectivityTimer] and [SelectivityInfo::addOutput]
    (absent), "measure selectivity cost": the timer adds the rows that go in
    to the child spec's counter, [addOutput] the rows that come out. *)
Definition chargeInput (i : nat) (n : Z) (s : Reader) : Reader :=
  let specs := specChildren (scanSpec_ s) in
  match specs !! i with
  | Some c =>
      let sel := mkSelectivity (wrapU64 (numIn (selectivity c) + n)) (numOut (selectivity c)) in
      withScanSpec (setSpecChildren (<[i := setSelectivity sel c]> specs) (scanSpec_ s)) s
  | None => s
  end.

Definition chargeOutput (i : nat) (n : Z) (s : Reader) : Reader :=
  let specs := specChildren (scanSpec_ s) in
  match specs !! i with
  | Some c =>
      let sel := mkSelectivity (numIn (selectivity c)) (wrapU64 (numOut (selectivity c) + n)) in
      withScanSpec (setSpecChildren (<[i := setSelectivity sel c]> specs) (scanSpec_ s)) s
  | None => s
  end.

(** Lines 134-164: one turn of the loop over the child specs.  The boolean
    is [true] at the [break]. *)
Definition readChild (i : nat) (childSpec : ChildSpec) (s : Reader) (offset : Z)
    (activeRows : RowSet) (structNulls : option Bitmap)
  : Outcome (Reader * RowSet * bool) :=
  if isChildConstant s childSpec then Ok (s, activeRows, false)
  else
    let fieldIndex := subscript childSpec in
    do reader <- readerAt s fieldIndex;
    if isTopLevel reader && projectOut childSpec && negb (hasFilter childSpec)
       && negb (extractValues childSpec)
    then Ok (s, activeRows, false)
    else
      do reader <- advanceFieldReader reader offset;
      let s := logCalls [CallAdvanceFieldReader i fieldIndex offset] (putChild fieldIndex reader s) in
      if hasFilter childSpec then
        let s := chargeInput i (sizeOf activeRows) s in
        let reader := resetInitTimeClocks reader in
        do reader <- read reader offset activeRows structNulls;
        let newRows := outputRows reader in
        let s := chargeOutput i (sizeOf newRows) (putChild fieldIndex reader s) in
        let s := logCalls [CallRead i fieldIndex offset activeRows structNulls;
                           CallOutputRows i fieldIndex newRows;
                           ChargeSelectivity i (sizeOf activeRows) (sizeOf newRows)] s in
        Ok (s, newRows, bool_decide (newRows = []))
      else
        do reader <- read reader offset activeRows structNulls;
        let s := logCalls [CallRead i fieldIndex offset activeRows structNulls]
                   (putChild fieldIndex reader s) in
        Ok (s, activeRows, false)
  .

Fixpoint readChildren (i : nat) (childSpecs : list ChildSpec) (s : Reader) (offset : Z)
    (activeRows : RowSet) (structNulls : option Bitmap) : Outcome (Reader * RowSet) :=
  match childSpecs with
  | [] => Ok (s, activeRows)
  | childSpec :: rest =>
      do (s, activeRows, stop) <- readChild i childSpec s offset activeRows structNulls;
      if (stop : bool) then Ok (s, activeRows)
      else readChildren (S i) rest s offset activeRows structNulls
  end.

(** Line 95: [numReads_ = scanSpec_->newRead()]. *)
Definition beginRead (s : Reader) : Reader :=
  let '(spec, epoch) := newRead (scanSpec_ s) in
  withNumReads epoch (withScanSpec spec s).

Definition structRead (s : Reader) (offset : Z) (rows : RowSet)
    (incomingNulls : option Bitmap) : Outcome Reader :=
  do s <- prepareRead (beginRead s) offset rows incomingNulls;
  do flow <- applyMutation s offset rows;
  match flow with
  | Return s => Ok s
  | Continue s activeRows =>
      let structNulls := nullsInReadRange_ s in
      do flow <- applyStructFilter s offset rows activeRows;
      match flow with
      | Return s => Ok s
      | Continue s activeRows =>
          do _ <- check (negb (bool_decide (children_ s = [])));
          do (s, activeRows) <-
            readChildren 0 (specChildren (scanSpec_ s)) s offset activeRows structNulls;
          do s <- recordParentNullsInChildren s offset rows;
          let s := if specHasFilter (scanSpec_ s) then setOutputRows activeRows s else s in
          match back rows with
          | None => Abort Undefined
          | Some b =>
              do sum <- addI32 offset b;
              do readOffset <- addI32 sum 1;
              Ok (withReadOffset readOffset (withLazyVectorReadOffset offset s))
          end
      end
  end.

(** The call leaves [read] at the [return] of line 110: the mutation deleted
    every row. *)
Definition returnsAtDeletedRows (s : Reader) (offset : Z) (rows : RowSet)
    (incomingNulls : option Bitmap) : Prop :=
  ∃ s1 s2,
    prepareRead (beginRead s) offset rows incomingNulls = Ok s1 ∧
    applyMutation s1 offset rows = Ok (Return s2).

(** The call leaves [read] at the [return] of line 126: the struct's own
    filter left no row. *)
Definition returnsAtEmptyStructFilter (s : Reader) (offset : Z) (rows : RowSet)
    (incomingNulls : option Bitmap) : Prop :=
  ∃ s1 s2 activeRows s3,
    prepareRead (beginRead s) offset rows incomingNulls = Ok s1 ∧
    applyMutation s1 offset rows = Ok (Continue s2 activeRows) ∧
    applyStructFilter s2 offset rows activeRows = Ok (Return s3).

(** The calls to [addParentNulls] that [recordParentNullsInChildren] owes the
    children: one for every child spec that is not constant. *)
Fixpoint parentNullCalls (i : nat) (childSpecs : list ChildSpec) (s : Reader)
    (offset : Z) (nulls : option Bitmap) (rows : RowSet) : list Event :=
  match childSpecs with
  | [] => []
  | childSpec :: rest =>
      (if isChildConstant s childSpec then []
       else [CallAddParentNulls i (subscript childSpec) offset nulls rows])
      ++ parentNullCalls (S i) rest s offset nulls rows
  end.

(** ** [getValues] *)

(** Lines 331-372: one turn of the loop over the child specs.  The state is
    the reader, the children of the result row, and [lazyPrepared];
    [childResult], a reference into the result row, is written back at its
    channel. *)
Definition getChild (i : nat) (childSpec : ChildSpec) (rows : RowSet) (rowType : Ty)
    (st : Reader * list VectorPtr * bool) : Outcome (Reader * list VectorPtr * bool) :=
  let '(s, fields, lazyPrepared) := st in
  if negb (projectOut childSpec) then Ok st
  else
    let channel := channel childSpec in
    match atZ fields channel with
    | None => Abort OutOfRange
    | Some childResult =>
        if isConstant childSpec then
          do field <- setConstantField (constantValue childSpec) (sizeOf rows) childResult;
          Ok (s, setZ fields channel field, lazyPrepared)
        else
          let index := subscript childSpec in
          if bool_decide (index = kConstantChildSpecSubscript) then
            do field <- setNullField (sizeOf rows) childResult;
            Ok (s, setZ fields channel field, lazyPrepared)
          else
            match atZ (children_ s) index with
            | None | Some None => Abort Undefined
            | Some (Some reader) =>
                if extractValues childSpec || hasFilter childSpec || negb (isTopLevel reader)
                then
                  do (reader, field) <- getValues reader rows childResult;
                  Ok (logCalls [CallGetValues i index rows] (putChild index reader s),
                      setZ fields channel field, lazyPrepared)
                else
                  let s :=
                    if lazyPrepared then s
                    else if bool_decide (sizeOf rows = sizeOf (outputRows_ s)) then s
                         else setOutputRows rows s in
                  let loader := mkLoader index (numReads_ s) in
                  let reset :=
                    match childResult with
                    | Some f =>
                        if isLazy f && unique childResult
                        then Some (resetLazy loader (sizeOf rows) f)
                        else None
                    | None => None
                    end in
                  match reset with
                  | Some lazy => Ok (s, setZ fields channel (Some lazy), true)
                  | None =>
                      match atZ (tyChildren rowType) channel with
                      | None => Abort OutOfRange
                      | Some t =>
                          Ok (s, setZ fields channel
                                   (Some (LazyVector 1 t (sizeOf rows) loader None)), true)
                      end
                  end
            end
    end.

Fixpoint getChildren (i : nat) (childSpecs : list ChildSpec) (rows : RowSet) (rowType : Ty)
    (st : Reader * list VectorPtr * bool) : Outcome (Reader * list VectorPtr * bool) :=
  match childSpecs with
  | [] => Ok st
  | childSpec :: rest =>
      do st <- getChild i childSpec rows rowType st;
      getChildren (S i) rest rows rowType st
  end.

(** Lines 304-315: the container [getValues] fills, the reused one or a
    fresh one. *)
Definition resultContainer (result : Vector) : Vector :=
  match tryReuseResult result with
  | Some reused => reused
  | None =>
      let rowType := typeOf result in
      RowVector 1 rowType None 0 false (fillRowVectorChildren rowType)
  end.

Definition structGetValues (s : Reader) (rows : RowSet) (result : VectorPtr)
  : Outcome (Reader * VectorPtr) :=
  do _ <- check (negb (bool_decide (children_ s = [])));
  match result with
  | None => Abort CheckFailed
  | Some r =>
      do _ <- check (isRow (typeOf r));
      match resultContainer r with
      | RowVector u t nulls _ flag fields =>
          let size := sizeOf rows in
          if bool_decide (size = 0) then Ok (s, Some (RowVector u t nulls size flag fields))
          else
            let nulls :=
              match nullsInReadRange_ s with
              | Some readerNulls => Some (copyNulls readerNulls 0 rows (mutableNulls nulls size))
              | None => clearNulls nulls 0 size
              end in
            do (s, fields, _) <-
              getChildren 0 (specChildren (scanSpec_ s)) rows t (s, fields, false);
            Ok (s, Some (RowVector u t nulls size flag fields))
      | _ => Abort Undefined
      end
  end.

(** ** [next] *)

(** Lines 72-77: every child spec must be constant and is wrapped at its
    channel. *)
Fixpoint wrapConstants (childSpecs : list ChildSpec) (numValues : Z) (fields : list VectorPtr)
  : Outcome (list VectorPtr) :=
  match childSpecs with
  | [] => Ok fields
  | childSpec :: rest =>
      do _ <- check (isConstant childSpec);
      let channel := channel childSpec in
      match wrapInConstant (toI32 numValues) 0 (constantValue childSpec) with
      | None => Abort Undefined
      | Some c =>
          match atZ fields channel with
          | None => Abort OutOfRange
          | Some _ => wrapConstants rest numValues (setZ fields channel (Some c))
          end
      end
  end.

Definition structNext (s : Reader) (numValues : Z) (result : VectorPtr)
    (mutation : option Mutation) : Outcome (Reader * VectorPtr) :=
  if bool_decide (children_ s = []) then
    let numValues :=
      match mutation with
      | Some (mkMutation (Some deleted)) => wrapU64 (numValues - countBits deleted 0 numValues)
      | _ => numValues
      end in
    match result with
    | None => Abort Undefined
    | Some r =>
        let r := resize (toI32 numValues) r in
        match specChildren (scanSpec_ s), r with
        | [], _ => Ok (s, Some r)
        | childSpecs, RowVector u t nulls n flag fields =>
            do fields <- wrapConstants childSpecs numValues fields;
            Ok (s, Some (RowVector u t nulls n flag fields))
        | childSpec :: _, _ =>
            (* the cast to RowVector gives a null pointer *)
            do _ <- check (isConstant childSpec);
            Abort Undefined
        end
    end
  else
    let oldSize := sizeOf (rows_ s) in
    let rows := take (Z.to_nat numValues) (rows_ s) ++ seqZ oldSize (numValues - oldSize) in
    let s := withMutation mutation
               (match mutation with Some (mkMutation (Some _)) => true | _ => false end)
               (withRows rows s) in
    do s <- structRead s (readOffset_ s) (rows_ s) None;
    structGetValues s (structOutputRows s) result.

End StructReader.

Arguments Reader R F : clear implicits.

(** ** A leaf reader and a format for the examples *)

(** Modelled from the spec: a scalar leaf reader that meets the "Leaf/child
    column reader contract".  Its filter keeps the rows below [leafKeepBelow];
    [leafSkipped] counts the physical values skipped and
    [leafParentNullsRecordedTo] the rows parent nulls were recorded to. *)
Record Leaf := mkLeaf {
  leafReadOffset : Z;
  leafOutputRows : RowSet;
  leafTopLevel : bool;
  leafKeepBelow : Z;
  leafSkipped : Z;
  leafParentNullsRecordedTo : Z;
}.

Definition leafRead (l : Leaf) (offset : Z) (rows : RowSet) (nulls : option Bitmap)
  : Outcome Leaf :=
  match back rows with
  | None => Abort Undefined
  | Some b =>
      Ok (mkLeaf (offset + b + 1) (List.filter (λ r, r <? leafKeepBelow l) rows)
            (leafTopLevel l) (leafKeepBelow l) (leafSkipped l) (leafParentNullsRecordedTo l))
  end.

#[export] Instance leafReader : ColumnReader Leaf := {|
  readOffset := leafReadOffset;
  outputRows := leafOutputRows;
  isTopLevel := leafTopLevel;
  skip l n :=
    Ok (mkLeaf (leafReadOffset l) (leafOutputRows l) (leafTopLevel l) (leafKeepBelow l)
          (leafSkipped l + n) (leafParentNullsRecordedTo l), n);
  setReadOffsetRecursive l pos :=
    mkLeaf pos (leafOutputRows l) (leafTopLevel l) (leafKeepBelow l) (leafSkipped l)
      (leafParentNullsRecordedTo l);
  advanceFieldReader l offset :=
    Ok (if leafTopLevel l
        then mkLeaf offset (leafOutputRows l) (leafTopLevel l) (leafKeepBelow l)
               (leafSkipped l + (offset - leafReadOffset l)) (leafParentNullsRecordedTo l)
        else l);
  resetInitTimeClocks l := l;
  initTimeClocks l := 0;
  read := leafRead;
  addParentNulls l offset nulls rows :=
    mkLeaf (leafReadOffset l) (leafOutputRows l) (leafTopLevel l) (leafKeepBelow l)
      (leafSkipped l) (offset + default 0 (back rows) + 1);
  getValues l rows result := Ok (l, Some (FlatVector 1 BIGINT (List.map Some rows)));
  subtreeReadOffsets l := [leafReadOffset l];
|}.

(** Modelled from the spec: format data whose null flags for the window are
    the bitmap [fmtNulls] (a set bit is a non-null row). *)
Record Fmt := mkFmt {
  fmtNulls : option Bitmap;
  fmtParentNullsInLeaves : bool;
}.

#[export] Instance fmtData : FormatData Fmt := {|
  skipNulls f n :=
    (f, match fmtNulls f with Some b => countBits b 0 n | None => n end);
  parentNullsInLeaves := fmtParentNullsInLeaves;
  readNulls f n incoming :=
    (f, match fmtNulls f, incoming with
        | Some a, Some b => Some (Z.land a b)
        | Some a, None => Some a
        | None, i => i
        end);
|}.

Definition exLeaf : Leaf := mkLeaf 0 [] true 0 0 0.

Definition exSpec (subscript channel : Z) (projected filtered : bool) : ChildSpec :=
  mkChildSpec false None channel subscript projected filtered false (mkSelectivity 0 0).

Definition exReader (fmt : Fmt) (specs : list ChildSpec) (filter : option FilterKind)
    (children : list (option Leaf)) : Reader Leaf Fmt :=
  mkReader 0 [] [] None 0 0 [] None false true (ROW (List.map (λ _, BIGINT) children))
    (mkScanSpec specs filter
       (bool_decide (is_Some filter) || existsb hasFilter specs) 0)
    fmt children [].

(** A struct over three children, the second absent, with null flags
    [1,1,0,1,1] for the next five rows. *)
Definition exSkipReader : Reader Leaf Fmt :=
  exReader (mkFmt (Some 27) false) [exSpec 0 0 true false; exSpec 2 1 true false] None
    [Some (mkLeaf 100 [] true 0 0 0); None; Some (mkLeaf 100 [] true 0 7 0)].

(** One projected child without a filter: its read is deferred. *)
Definition exLazyReader : Reader Leaf Fmt :=
  exReader (mkFmt None true) [exSpec 0 0 true false] None [Some exLeaf].

(** Two filtered children; the filter of the first keeps no row. *)
Definition exShortCircuitReader : Reader Leaf Fmt :=
  exReader (mkFmt None false) [exSpec 0 0 true true; exSpec 1 1 true true] None
    [Some exLeaf; Some exLeaf].

(** A struct with an is-not-null filter over a window whose rows are all
    null. *)
Definition exFilteredReader : Reader Leaf Fmt :=
  exReader (mkFmt (Some 0) false) [exSpec 0 0 true true] (Some kIsNotNull) [Some exLeaf].

(** A top-level struct under a mutation that deletes rows 0 to 4. *)
Definition exDeletedReader : Reader Leaf Fmt :=
  withMutation (Some (mkMutation (Some 31))) true
    (exReader (mkFmt None false) [exSpec 0 0 true false] None [Some exLeaf]).

(** The same under a format that has a null flag for row 2: the struct has a
    null bitmap, which only a release build lets pass. *)
Definition exDeletedNullsReader : Reader Leaf Fmt :=
  withMutation (Some (mkMutation (Some 31))) true
    (exReader (mkFmt (Some 27) false) [exSpec 0 0 true false] None [Some exLeaf]).

(** A top-level struct under a mutation that deletes rows 1 and 3; the
    filter of its child keeps the rows below 3. *)
Definition exMutatedReader : Reader Leaf Fmt :=
  withMutation (Some (mkMutation (Some 10))) true
    (exReader (mkFmt None false) [exSpec 0 0 true true] None
       [Some (mkLeaf 0 [] true 3 0 0)]).

(** A struct after a read of six rows of which rows 2 and 5 are null. *)
Definition exNullsReader : Reader Leaf Fmt :=
  withNulls (Some 27)
    (exReader (mkFmt (Some 27) false) [exSpec 0 0 true true] None [Some exLeaf]).

(** A nested struct whose file has one field; the second field of the query
    schema is missing from the file. *)
Definition exNestedReader : Reader Leaf Fmt :=
  mkReader 0 [] [] None 0 0 [] None false false (ROW [BIGINT])
    (mkScanSpec [exSpec 0 0 true false; exSpec kConstantChildSpecSubscript 1 true false]
       None false 0)
    (mkFmt None false) [Some exLeaf] [].

(** The empty row container [fillRowVectorChildren] gives a parent for a
    field of type ROW(BIGINT, BIGINT). *)
Definition exEmptyRow : Vector :=
  RowVector 1 (ROW [BIGINT; BIGINT]) None 0 false (fillRowVectorChildren (ROW [BIGINT; BIGINT])).

(** A result that another holder still refers to. *)
Definition exHeldRow : Vector :=
  RowVector 2 (ROW [BIGINT; BIGINT]) None 0 false
    [Some (FlatVector 1 BIGINT []); Some (FlatVector 1 BIGINT [])].

(** A dictionary held once around a row container held twice. *)
Definition exWrappedShared : Vector :=
  DictionaryVector 1 (ROW [BIGINT]) 0 []
    (Some (RowVector 2 (ROW [BIGINT]) None 0 false [None])).

(** A reader without children over two constant columns. *)
Definition exConstantSpec (channel value : Z) : ChildSpec :=
  mkChildSpec true (Some (FlatVector 1 BIGINT [Some value])) channel
    kConstantChildSpecSubscript true false false (mkSelectivity 0 0).

Definition exConstantReader : Reader Leaf Fmt :=
  exReader (mkFmt None false) [exConstantSpec 1 7; exConstantSpec 0 9] None [].

(** A reader without children whose second child spec is not constant. *)
Definition exNotAllConstantReader : Reader Leaf Fmt :=
  exReader (mkFmt None false) [exConstantSpec 1 7; exSpec 0 0 true false] None [].


(** ** What the calls keep and what they log *)

(** In a log, every [read] of a child comes right after the call that
    aligns that child, [advanceFieldReader], with the same offset, and
    every such call is followed by the [read] it prepares. *)
Definition readsFollowAdvance (es : list Event) : Prop :=
  (∀ n i f off r x, es !! n = Some (CallRead i f off r x) →
     ∃ m, n = S m ∧ es !! m = Some (CallAdvanceFieldReader i f off)) ∧
  (∀ m i f off, es !! m = Some (CallAdvanceFieldReader i f off) →
     ∃ r x, es !! S m = Some (CallRead i f off r x)).

(** [children_.at(fieldIndex)] names a child reader that is there. *)
Definition childPresent {R} (children : list (option R)) (fieldIndex : Z) : Prop :=
  ∃ reader, atZ children fieldIndex = Some (Some reader).

(** What a read never changes in the scan spec: everything but the
    selectivity counters and the count of reads. *)
Definition specShape (spec : ScanSpec) :=
  (specCore <$> specChildren spec, specFilter spec, specHasFilter spec).

Section ValuesFrame.
Context {R F : Type} `{ColumnReader R} `{FormatData F}.

(** What [getValues] never changes: every field of the reader but its output
    rows, its children and the log. *)
Definition valuesFrame (s : Reader R F) :=
  (readOffset_ s, inputRows_ s, nullsInReadRange_ s, numReads_ s, lazyVectorReadOffset_ s,
   rows_ s, mutation_ s, hasMutation_ s, isRoot_ s, fileType_ s, scanSpec_ s, formatData_ s).

End ValuesFrame.

(** How one turn of the loop of [getValues] leaves the field at the channel
    of its child spec. *)
Inductive Delivery :=
| AsConstant (value : option Z)
| AsNullConstant
| Eagerly
| Lazily (loader : Loader).

Definition delivered (d : Delivery) (size : Z) (field : VectorPtr) : Prop :=
  match d with
  | AsConstant value =>
      ∃ v, field = Some v ∧ isConstantEncoding v = true ∧ vsize v = size ∧ valueAt v 0 = value
  | AsNullConstant =>
      ∃ v, field = Some v ∧ isConstantEncoding v = true ∧ vsize v = size ∧ valueAt v 0 = None
  | Eagerly => True
  | Lazily loader => ∃ ty, field = Some (LazyVector 1 ty size loader None)
  end.

(** ** More readers for the examples *)

(** A constant column at channel 1 beside a filtered child at channel 0 whose
    filter keeps the rows below 3; rows 2 and 5 of the window are null. *)
Definition exMixedReader : Reader Leaf Fmt :=
  exReader (mkFmt (Some 27) false) [exConstantSpec 1 7; exSpec 0 0 true true] None
    [Some (mkLeaf 0 [] true 3 0 0)].

(** A struct whose own filter compares values. *)
Definition exValueFilterReader : Reader Leaf Fmt :=
  exReader (mkFmt None false) [exSpec 0 0 true false] (Some kOtherFilter) [Some exLeaf].

(** * The [map_union_sum] aggregate *)

Module MapUnionSum.

(** ** Exceptions *)

Inductive Raised :=
| ArithmeticError      (* VELOX_ARITHMETIC_ERROR of a checked operation *)
| CheckFailure         (* VELOX_CHECK *)
| UndefinedBehaviour.  (* a read or write outside a buffer, a null dereference *)

Inductive Result (A : Type) :=
| Returns (a : A)
| Raises (e : Raised).
Arguments Returns {A} a.
Arguments Raises {A} e.

#[export] Instance result_ret : MRet Result := λ A a, Returns a.
#[export] Instance result_bind : MBind Result :=
  λ A B k m, match m with Returns a => k a | Raises e => Raises e end.

(** ** Vectors *)

(** A [SimpleVector<T>]: the entry of a row is its value, or [None] for a
    null.  Reading outside the vector is undefined. *)
Definition Column (T : Type) := list (option T).

Definition entryAt {T} (v : Column T) (row : Z) : Result (option T) :=
  match atZ v row with
  | Some entry => Returns entry
  | None => Raises UndefinedBehaviour
  end.

Definition isNullAt {T} (v : Column T) (row : Z) : Result bool :=
  entry ← entryAt v row; Returns (bool_decide (entry = None)).

(** [valueAt] is only called on a row that is not null. *)
Definition valueAt {T} (v : Column T) (row : Z) : Result T :=
  entry ← entryAt v row;
  match entry with
  | Some value => Returns value
  | None => Raises UndefinedBehaviour
  end.

(** [FlatVector<T>::set(idx, value)] writes the value and clears the null. *)
Definition set {T} (v : Column T) (idx : Z) (value : T) : Result (Column T) :=
  match atZ v idx with
  | Some _ => Returns (setZ v idx (Some value))
  | None => Raises UndefinedBehaviour
  end.

(** [resize(n)] keeps the rows below [n]; new rows hold no value yet. *)
Definition resizeTo {A} (n : Z) (fill : A) (l : list A) : list A :=
  take (Z.to_nat n) l ++ replicate (Z.to_nat n - length l) fill.


(** A [MapVector]: per row a null flag, an offset and a size into the key
    and value columns. *)
Record MapVector (K : Type) := mkMapVector {
  rowNulls : list bool;
  rowOffsets : list Z;
  rowSizes : list Z;
  mapKeys : Column K;
  mapValues : Column Z;
}.
Arguments mkMapVector {K} _ _ _ _ _.
Arguments rowNulls {K} _.
Arguments rowOffsets {K} _.
Arguments rowSizes {K} _.
Arguments mapKeys {K} _.
Arguments mapValues {K} _.

Definition offsetAt {K} (m : MapVector K) (row : Z) : Result Z :=
  match atZ (rowOffsets m) row with
  | Some offset => Returns offset
  | None => Raises UndefinedBehaviour
  end.

Definition sizeAt {K} (m : MapVector K) (row : Z) : Result Z :=
  match atZ (rowSizes m) row with
  | Some size => Returns size
  | None => Raises UndefinedBehaviour
  end.

(** ** The sum type [S]

    The aggregate is instantiated for the integer types [int8_t] to
    [int64_t] and for [float] and [double].  A value of [S] is a [Z]: the
    number itself for an integer type, the bit pattern of the value for a
    floating-point type, so that a value-initialised sum and the constant 0
    are 0 for both.  [floatingPoint] is the test of the [if constexpr] in
    [addValue].  Neither [functions::checkedPlus<S>]
    (CheckedArithmeticImpl.h) nor the addition of the floating-point types is
    among the sources: they are operations of the interface. *)
Class CheckedArithmetic := {
  (** [std::is_same_v<S, double> || std::is_same_v<S, float>] *)
  floatingPoint : bool;
  minValue : Z;
  maxValue : Z;
  checkedPlus : Z → Z → Result Z;
  (** [a + b] in a floating-point [S], on the bit patterns *)
  floatPlus : Z → Z → Z;
}.

(** [a += b] on a sum: the addition of the floating-point type, rounding as
    it does; for an integer type and the [b = 0] it is used with, [a] again. *)
Definition plusAssign `{CheckedArithmetic} (a b : Z) : Z :=
  if floatingPoint then floatPlus a b else a + b.

(** [S] is one of the integer types, and [checkedPlus] does what its name
    says: it returns the sum when it fits [S] and raises an arithmetic error
    otherwise. *)
Definition checkedPlusContract `{CheckedArithmetic} : Prop :=
  floatingPoint = false ∧
  minValue ≤ 0 ≤ maxValue ∧
  ∀ a b,
    checkedPlus a b =
    if bool_decide (minValue ≤ a + b ≤ maxValue) then Returns (a + b)
    else Raises ArithmeticError.

(** The hash map's iteration: every entry once, in an order of the
    container's choosing. *)
Class Iteration (K : Type) `{Countable K} := {
  iterate : gmap K Z → list (K * Z);
}.

Definition iterationContract {K} `{Iteration K} : Prop :=
  ∀ sums : gmap K Z, iterate sums ≡ₚ map_to_list sums.

Section Aggregate.
Context {K : Type} `{Iteration K} `{CheckedArithmetic}.

(** ** [Accumulator<K, S>] *)

Record Accumulator := mkAccumulator { sums : gmap K Z }.

Definition size (acc : Accumulator) : Z := Z.of_nat (base.size (sums acc)).

(** [sums[key]]: the entry of the key, value-initialised when it is new. *)
Definition sumOf (acc : Accumulator) (key : K) : Z := default 0 (sums acc !! key).

Definition addValue (acc : Accumulator) (key : K) (mapValues : Column Z) (row : Z)
  : Result Accumulator :=
  null ← isNullAt mapValues row;
  if (null : bool)
  then Returns (mkAccumulator (<[key := plusAssign (sumOf acc key) 0]> (sums acc)))
  else
    value ← valueAt mapValues row;
    if floatingPoint
    then Returns (mkAccumulator (<[key := plusAssign (sumOf acc key) value]> (sums acc)))
    else
      sum ← checkedPlus (sumOf acc key) value;
      Returns (mkAccumulator (<[key := sum]> (sums acc))).

(** The loop of [addValues] over the positions [i] still to visit. *)
Fixpoint addValuesFrom (acc : Accumulator) (mapKeys : Column K) (mapValues : Column Z)
    (offset : Z) (positions : list Z) : Result Accumulator :=
  match positions with
  | [] => Returns acc
  | i :: rest =>
      null ← isNullAt mapKeys (offset + i);
      acc ← (if (null : bool) then Returns acc
             else key ← valueAt mapKeys (offset + i);
                  addValue acc key mapValues (offset + i));
      addValuesFrom acc mapKeys mapValues offset rest
  end.

Definition addValues (acc : Accumulator) (mapVector : MapVector K) (mapKeys : Column K)
    (mapValues : Column Z) (row : Z) : Result Accumulator :=
  offset ← offsetAt mapVector row;
  size ← sizeAt mapVector row;
  addValuesFrom acc mapKeys mapValues offset (seqZ 0 size).

(** The loop of [extractValues] over the entries still to write. *)
Fixpoint extractEntries (entries : list (K * Z)) (mapKeys : Column K) (mapValues : Column Z)
    (index : Z) : Result (Column K * Column Z) :=
  match entries with
  | [] => Returns (mapKeys, mapValues)
  | (key, sum) :: rest =>
      mapKeys ← set mapKeys index key;
      mapValues ← set mapValues index sum;
      extractEntries rest mapKeys mapValues (index + 1)
  end.

Definition extractValues (acc : Accumulator) (mapKeys : Column K) (mapValues : Column Z)
    (offset : Z) : Result (Column K * Column Z * Z) :=
  '(mapKeys, mapValues) ← extractEntries (iterate (sums acc)) mapKeys mapValues offset;
  Returns (mapKeys, mapValues, size acc).

(** ** [MapUnionSumAggregate<K, S>] *)

(** A group row: its null flag and the accumulator at [offset_].  [char**
    groups] is an array of pointers into the rows of the container, here
    positions in a list of groups; several entries may name one group. *)
Record Group := mkGroup { isNull : bool; value : Accumulator }.

Definition groupAt (store : list Group) (groups : list nat) (i : Z) : Result Group :=
  match atZ groups i with
  | Some pointer =>
      match store !! pointer with
      | Some group => Returns group
      | None => Raises UndefinedBehaviour
      end
  | None => Raises UndefinedBehaviour
  end.

(** [initializeNewGroups]: the groups at [indices] become null and get an
    empty accumulator. *)
Fixpoint initializeNewGroups (store : list Group) (groups : list nat) (indices : list Z)
  : Result (list Group) :=
  match indices with
  | [] => Returns store
  | index :: rest =>
      match atZ groups index with
      | Some pointer =>
          match store !! pointer with
          | Some _ =>
              initializeNewGroups (<[pointer := mkGroup true (mkAccumulator ∅)]> store)
                groups rest
          | None => Raises UndefinedBehaviour
          end
      | None => Raises UndefinedBehaviour
      end
  end.

Fixpoint countElementsFrom (store : list Group) (groups : list nat) (positions : list Z)
    (size0 : Z) : Result Z :=
  match positions with
  | [] => Returns size0
  | i :: rest =>
      group ← groupAt store groups i;
      countElementsFrom store groups rest (size0 + size (value group))
  end.

Definition countElements (store : list Group) (groups : list nat) (numGroups : Z) : Result Z :=
  countElementsFrom store groups (seqZ 0 numGroups) 0.

(** [setOffsetAndSize(i, offset, size)] and the null flag of row [i], on a
    map vector already resized. *)
Definition setRow (m : MapVector K) (i : Z) (null : bool) (offset size : Z)
  : Result (MapVector K) :=
  match atZ (rowNulls m) i, atZ (rowOffsets m) i, atZ (rowSizes m) i with
  | Some _, Some _, Some _ =>
      Returns (mkMapVector (setZ (rowNulls m) i null) (setZ (rowOffsets m) i offset)
                 (setZ (rowSizes m) i size) (mapKeys m) (mapValues m))
  | _, _, _ => Raises UndefinedBehaviour
  end.

(** The loop of the aggregate's [extractValues] over the groups still to
    write, with the running [offset]. *)
Fixpoint extractGroups (store : list Group) (groups : list nat) (positions : list Z)
    (m : MapVector K) (offset : Z) : Result (MapVector K) :=
  match positions with
  | [] => Returns m
  | i :: rest =>
      group ← groupAt store groups i;
      if isNull group then
        m ← setRow m i true 0 0;
        extractGroups store groups rest m offset
      else
        '(keys, values, mapSize) ← extractValues (value group) (mapKeys m) (mapValues m) offset;
        m ← setRow (mkMapVector (rowNulls m) (rowOffsets m) (rowSizes m) keys values)
              i false offset mapSize;
        extractGroups store groups rest m (offset + mapSize)
  end.

(** The aggregate's [extractValues(groups, numGroups, result)]; [result] is
    [None] when it is not a map vector. *)
Definition aggregateExtractValues (store : list Group) (groups : list nat) (numGroups : Z)
    (result : option (MapVector K)) : Result (MapVector K) :=
  match result with
  | None => Raises CheckFailure
  | Some mapVector =>
      numElements ← countElements store groups numGroups;
      let resized :=
        mkMapVector (resizeTo numGroups false (rowNulls mapVector))
          (resizeTo numGroups 0 (rowOffsets mapVector))
          (resizeTo numGroups 0 (rowSizes mapVector))
          (resizeTo numElements None (mapKeys mapVector))
          (resizeTo numElements None (mapValues mapVector)) in
      extractGroups store groups (seqZ 0 numGroups) resized 0
  end.

Definition extractAccumulators := aggregateExtractValues.

(** [DecodedVector]: the view that [decodedMaps_.decode] gives of the first
    argument, a null flag and an index into the base map vector per row. *)
Record DecodedVector := mkDecodedVector {
  decodedNulls : list bool;
  decodedIndices : list Z;
  decodedBase : MapVector K;
}.

Definition decodedIsNullAt (d : DecodedVector) (row : Z) : Result bool :=
  match atZ (decodedNulls d) row with
  | Some null => Returns null
  | None => Raises UndefinedBehaviour
  end.

Definition decodedIndex (d : DecodedVector) (row : Z) : Result Z :=
  match atZ (decodedIndices d) row with
  | Some index => Returns index
  | None => Raises UndefinedBehaviour
  end.

Definition addMap (groupMap : Accumulator) (decodedMaps : DecodedVector) (row : Z)
  : Result Accumulator :=
  let mapVector := decodedBase decodedMaps in
  decodedRow ← decodedIndex decodedMaps row;
  addValues groupMap mapVector (mapKeys mapVector) (mapValues mapVector) decodedRow.

(** [addRawInput]: [rows] are the selected rows, in increasing order. *)
Fixpoint addRawInput (store : list Group) (groups : list nat) (rows : list Z)
    (decodedMaps : DecodedVector) : Result (list Group) :=
  match rows with
  | [] => Returns store
  | row :: rest =>
      null ← decodedIsNullAt decodedMaps row;
      store ←
        (if (null : bool) then Returns store
         else
           match atZ groups row with
           | Some pointer =>
               match store !! pointer with
               | Some group =>
                   groupMap ← addMap (value group) decodedMaps row;
                   Returns (<[pointer := mkGroup false groupMap]> store)
               | None => Raises UndefinedBehaviour
               end
           | None => Raises UndefinedBehaviour
           end);
      addRawInput store groups rest decodedMaps
  end.

(** [addSingleGroupRawInput]: every selected row goes to the one group. *)
Fixpoint addSingleGroupRawInput (group : Group) (rows : list Z) (decodedMaps : DecodedVector)
  : Result Group :=
  match rows with
  | [] => Returns group
  | row :: rest =>
      null ← decodedIsNullAt decodedMaps row;
      group ←
        (if (null : bool) then Returns group
         else
           groupMap ← addMap (value group) decodedMaps row;
           Returns (mkGroup false groupMap));
      addSingleGroupRawInput group rest decodedMaps
  end.

Definition addIntermediateResults := addRawInput.
Definition addSingleGroupIntermediateResults := addSingleGroupRawInput.

End Aggregate.

Arguments Accumulator K {_ _}.
Arguments Group K {_ _}.
Arguments DecodedVector K : clear implicits.

(** ** What a map contributes *)

(** The entries of a map: the keys and values at the positions [offset ..
    offset + size) of the two columns, [None] for a null. *)
Definition rowEntries {K} (mapKeys : Column K) (mapValues : Column Z) (offset size : Z)
  : list (option K * option Z) :=
  (λ i, (mjoin (atZ mapKeys (offset + i)), mjoin (atZ mapValues (offset + i))))
    <$> seqZ 0 size.

(** The values the entries hold for a key, added up; a null counts as 0. *)
Definition contribution {K} `{EqDecision K} (key : K) (entries : list (option K * option Z))
  : Z :=
  foldr (λ entry total, if decide (entry.1 = Some key) then default 0 entry.2 + total else total)
    0 entries.

Definition mentions {K} (key : K) (entries : list (option K * option Z)) : Prop :=
  Exists (λ entry, entry.1 = Some key) entries.

(** Every sum of the accumulator is a value of [S]. *)
Definition inRange {K} `{Countable K} `{CheckedArithmetic} (acc : Accumulator K) : Prop :=
  map_Forall (λ _ sum, minValue ≤ sum ≤ maxValue) (sums acc).

(** A map with its keys and values set, as [extractValues] writes it. *)
Definition entriesOf {K} `{Countable K} (sums : gmap K Z) : list (option K * option Z) :=
  (λ entry, (Some entry.1, Some entry.2)) <$> map_to_list sums.

(** The entries the groups at the positions hold that are not null: the
    room the aggregate's [extractValues] needs in the key and value
    columns. *)
Fixpoint elementsOf {K} `{Countable K} (store : list (Group K)) (groups : list nat)
    (positions : list Z) : Z :=
  match positions with
  | [] => 0
  | i :: rest =>
      match groupAt store groups i with
      | Returns group => if isNull group then 0 else size (value group)
      | Raises _ => 0
      end + elementsOf store groups rest
  end.

(** The entries of the map at a row of a map vector. *)
Definition mapEntries {K} (m : MapVector K) (row : Z) : list (option K * option Z) :=
  match atZ (rowOffsets m) row, atZ (rowSizes m) row with
  | Some offset, Some size => rowEntries (mapKeys m) (mapValues m) offset size
  | _, _ => []
  end.

(** The entries of the maps the rows bring, one row after the other; a row
    whose map is null brings none. *)
Definition inputEntries {K} (decodedMaps : DecodedVector K) (rows : list Z)
  : list (option K * option Z) :=
  row ← rows;
  match atZ (decodedNulls decodedMaps) row, atZ (decodedIndices decodedMaps) row with
  | Some false, Some index => mapEntries (decodedBase decodedMaps) index
  | _, _ => []
  end.

(** The row of a group in an extracted map vector. *)
Definition rowHolds {K} `{Iteration K} (m : MapVector K) (i : Z) (group : Group K) (least : Z) : Prop :=
  atZ (rowNulls m) i = Some (isNull group) ∧
  if isNull group then atZ (rowOffsets m) i = Some 0 ∧ atZ (rowSizes m) i = Some 0
  else
    ∃ offset,
      least ≤ offset ∧
      atZ (rowOffsets m) i = Some offset ∧
      atZ (rowSizes m) i = Some (size (value group)) ∧
      offset + size (value group) ≤ sizeOf (mapKeys m) ∧
      rowEntries (mapKeys m) (mapValues m) offset (size (value group))
      = (λ entry, (Some entry.1, Some entry.2)) <$> iterate (sums (value group)).

(** ** Instances for the examples *)

(** [S = int8_t]. *)
Definition int8Arithmetic : CheckedArithmetic := {|
  floatingPoint := false;
  minValue := -128;
  maxValue := 127;
  checkedPlus a b :=
    if bool_decide (-128 ≤ a + b ≤ 127) then Returns (a + b) else Raises ArithmeticError;
  floatPlus a b := a + b;
|}.


(** An iteration in the order of [map_to_list]. *)
Definition listedIteration (K : Type) `{Countable K} : Iteration K := {|
  iterate := map_to_list;
|}.


End MapUnionSum.

Module MapUnionSumExamples.
Import MapUnionSum.

#[local] Existing Instance int8Arithmetic.

(** Two input maps over integer keys: [{1: 20, null: 7, 2: null}] at row 0
    and [{1: -20}] at row 1. *)
Definition exInput : MapVector Z :=
  mkMapVector [false; false] [0; 3] [3; 1]
    [Some 1; None; Some 2; Some 1] [Some 20; Some 7; None; Some (-20)].

(** An accumulator of [int8_t] sums holding [{1: 100, 3: 5}]. *)
Definition exAccumulator : Accumulator Z := mkAccumulator (<[1 := 100]> (<[3 := 5]> ∅)).

(** Three groups: a null one, [exAccumulator], and one with an empty map. *)
Definition exStore : list (Group Z) :=
  [mkGroup true (mkAccumulator ∅); mkGroup false exAccumulator; mkGroup false (mkAccumulator ∅)].

(** Four input rows, the third a null map, for the groups 1, 2, 1 and 1. *)
Definition exDecoded : DecodedVector Z := mkDecodedVector [false; false; true; false] [0; 1; 0; 1] exInput.

(** One more row of [exInput] for an accumulator, if there is one still. *)
Definition exAddRow (acc : Result (Accumulator Z)) (row : Z) : Result (Accumulator Z) :=
  acc ← acc; addValues acc exInput (mapKeys exInput) (mapValues exInput) row.

(** The three groups of [exStore] in their order, and an empty map vector
    to extract them into. *)
Definition exGroups : list nat := [0%nat; 1%nat; 2%nat].

Definition exResult : MapVector Z := mkMapVector [] [] [] [] [].

End MapUnionSumExamples.

(** * The data sinks *)

Module DataSink.

(** ** The operating system *)

(** What a sink asks of the operating system and the file system helpers,
    with the state they act on.  [fileBytes] is what has been written so far
    through a descriptor. *)
Class Platform (OS : Type) := {
  (** [::write(fd, data, count)]: the new state and the number of bytes
      written, -1 for an error; [data] holds the [count] bytes offered *)
  sysWrite : OS → Z → list Byte.byte → OS * Z;
  (** [open(name, O_CREAT | O_WRONLY | O_TRUNC, S_IRUSR | S_IWUSR)] *)
  sysOpen : OS → string → OS * Z;
  (** [fs::exists] *)
  pathExists : OS → string → bool;
  (** [velox::common::generateFileDirectory] *)
  generateFileDirectory : OS → string → OS * bool;
  (** [fs::path(name).parent_path()] *)
  parentPath : string → string;
  (** [LocalWriteFile(path, true, false)]: the file made, or what the
      constructor throws *)
  newLocalWriteFile : OS → string → OS * option Z;
  fileBytes : OS → Z → list Byte.byte;
}.

(** What POSIX promises of [write]: a positive result is a number of bytes
    not above the count, and that many bytes from the front of the data have
    been added to the file; with any other result the file is as it was. *)
Definition writeAppends {OS} `{Platform OS} : Prop :=
  ∀ os fd data os' n,
    sysWrite os fd data = (os', n) →
    if bool_decide (0 < n)
    then n ≤ sizeOf data ∧ fileBytes os' fd = fileBytes os fd ++ take (Z.to_nat n) data
    else fileBytes os' fd = fileBytes os fd.

Inductive Raised :=
| EnsureFailed   (* DWIO_ENSURE and its kin *)
| RaisedError.   (* DWIO_RAISE *)

(** How a call ends: with a value, with an exception, or still in its loop
    when the steps allowed for it are used up. *)
Inductive Ending (A : Type) :=
| Returns (a : A)
| Raises (e : Raised)
| StillRunning.
Arguments Returns {A} a.
Arguments Raises {A} e.
Arguments StillRunning {A}.

Section Sinks.
Context {OS : Type} `{Platform OS}.

(** ** [LocalFileSink::write] *)

(** The [while] loop of the callback, for at most [steps] turns. *)
Fixpoint writeFrom (steps : nat) (os : OS) (file_ : Z) (buffer : list Byte.byte) (offset : Z)
  : OS * Ending Z :=
  let size := sizeOf buffer in
  if bool_decide (offset < size) then
    match steps with
    | O => (os, StillRunning)
    | S steps =>
        let '(os, bytesWritten) := sysWrite os file_ (drop (Z.to_nat offset) buffer) in
        if bool_decide (bytesWritten = -1) then (os, Raises EnsureFailed)
        else if bool_decide (0 < bytesWritten)
             then writeFrom steps os file_ buffer (offset + bytesWritten)
             else (os, Raises EnsureFailed)
    end
  else (os, Returns size).

(** The callback [write] hands to [writeImpl] for every buffer: every turn
    of the loop writes a byte at least, so [buffer.size()] turns are
    enough. *)
Definition writeBuffer (os : OS) (file_ : Z) (buffer : list Byte.byte) : OS * Ending Z :=
  writeFrom (length buffer) os file_ buffer 0.

(** ** The sinks and their factories *)

(** A sink: the kind of its class, the name it was made with and the
    descriptor or file it writes to. *)
Inductive Sink :=
| WriteFileDataSink (writeFile : Z) (name : string)
| LocalFileSink (name : string) (file_ : Z).

Definition sinkName (sink : Sink) : string :=
  match sink with
  | WriteFileDataSink _ name | LocalFileSink name _ => name
  end.

(** The constructor of [LocalFileSink]. *)
Definition newLocalFileSink (os : OS) (name : string) : OS * Ending Sink :=
  let dir := parentPath name in
  let '(os, made) :=
    if pathExists os dir then (os, true) else generateFileDirectory os dir in
  if negb made then (os, Raises EnsureFailed)
  else
    let '(os, file_) := sysOpen os name in
    if bool_decide (file_ = -1) then (os, Raises RaisedError)
    else (os, Returns (LocalFileSink name file_)).

(** [strncmp(filename.c_str(), "file:", 5) == 0]. *)
Definition hasFileScheme (filename : string) : bool := String.prefix "file:" filename.

(** [filename.substr(5)]. *)
Definition substr5 (filename : string) : string :=
  String.substring 5 (String.length filename - 5) filename.

(** A [DataSink::Factory]; a null [unique_ptr] is [None]. *)
Definition Factory := OS → string → OS * Ending (option Sink).

Definition localFileSink : Factory :=
  λ os filename,
    if hasFileScheme filename then
      let '(os, sink) := newLocalFileSink os (substr5 filename) in
      (os, match sink with
           | Returns sink => Returns (Some sink)
           | Raises e => Raises e
           | StillRunning => StillRunning
           end)
    else (os, Returns None).

Definition localWriteFileSink : Factory :=
  λ os filename,
    if hasFileScheme filename then
      let pathSuffix := substr5 filename in
      let '(os, writeFile) := newLocalWriteFile os pathSuffix in
      (os, match writeFile with
           | Some writeFile => Returns (Some (WriteFileDataSink writeFile pathSuffix))
           | None => Raises RaisedError
           end)
    else (os, Returns None).

(** [DataSink::registerFactory]: the registry is the list of factories in
    the order they were registered. *)
Definition registerFactory (factories : list Factory) (factory : Factory)
  : list Factory * bool :=
  (factories ++ [factory], true).

(** The loop of [DataSink::create] over the registry. *)
Fixpoint askFactories (factories : list Factory) (os : OS) (filePath : string)
  : OS * Ending (option Sink) :=
  match factories with
  | [] => (os, Returns None)
  | factory :: rest =>
      let '(os, result) := factory os filePath in
      match result with
      | Returns None => askFactories rest os filePath
      | _ => (os, result)
      end
  end.

(** [DataSink::create]; [metricsLog] tells whether the pointer passed is
    set. *)
Definition create (factories : list Factory) (os : OS) (filePath : string)
    (metricsLog : bool) : OS * Ending Sink :=
  if negb metricsLog then (os, Raises EnsureFailed)
  else
    let '(os, result) := askFactories factories os filePath in
    match result with
    | Returns (Some sink) => (os, Returns sink)
    | Returns None => newLocalFileSink os filePath
    | Raises e => (os, Raises e)
    | StillRunning => (os, StillRunning)
    end.

End Sinks.

(** ** An operating system for the examples *)

(** A system that writes at most two bytes a call and whose one file is
    descriptor 3. *)
Record ExOS := mkExOS { exWritten : list Byte.byte; exOpened : list string }.

#[export] Instance exPlatform : Platform ExOS := {|
  sysWrite os fd data :=
    if bool_decide (fd = 3)
    then (mkExOS (exWritten os ++ take 2 data) (exOpened os), Z.min 2 (sizeOf data))
    else (os, -1);
  sysOpen os name := (mkExOS (exWritten os) (exOpened os ++ [name]), 3);
  pathExists os dir := true;
  generateFileDirectory os dir := (os, true);
  parentPath name := name;
  newLocalWriteFile os path := (mkExOS (exWritten os) (exOpened os ++ [path]), Some 3);
  fileBytes os fd := if bool_decide (fd = 3) then exWritten os else [];
|}.

End DataSink.


(** * Properties *)

Lemma atZ_setZ_eq {A} (l : list A) i x :
  is_Some (atZ l i) → atZ (setZ l i x) i = Some x.
Proof.
  unfold atZ, setZ. case_decide; [|by intros [? ?]].
  intros Hi. apply lookup_lt_is_Some in Hi. by apply list_lookup_insert_eq.
Qed.

Lemma atZ_setZ_ne {A} (l : list A) i j x :
  i ≠ j → atZ (setZ l i x) j = atZ l j.
Proof.
  intros Hne. unfold atZ, setZ. repeat case_decide; try done.
  apply list_lookup_insert_ne. lia.
Qed.

Lemma length_setZ {A} (l : list A) i x : length (setZ l i x) = length l.
Proof. unfold setZ. case_decide; [apply length_insert|done]. Qed.

Lemma atZ_is_Some {A} (l : list A) i : is_Some (atZ l i) ↔ 0 ≤ i < sizeOf l.
Proof.
  unfold atZ, sizeOf. case_decide.
  - rewrite lookup_lt_is_Some. lia.
  - split; [by intros [? ?]|lia].
Qed.


Section SkipTheorems.
Context {R F : Type} `{ColumnReader R} `{FormatData F}.

Lemma toI32_wrapU64 z : toI32 (wrapU64 z) = toI32 z.
Proof.
  unfold toI32, wrapU64. f_equal.
  replace (2 ^ 64) with (2 ^ 32 * 2 ^ 32) by reflexivity.
  rewrite <- (Zplus_mod_idemp_l (z mod _)).
  rewrite Z.rem_mul_r by lia.
  rewrite (Z.mul_comm (2 ^ 32)), Z.mod_add by lia.
  rewrite Z.mod_mod by lia. by rewrite Zplus_mod_idemp_l.
Qed.

Lemma toI32_small z : - 2 ^ 31 ≤ z < 2 ^ 31 → toI32 z = z.
Proof. intros Hz. unfold toI32. rewrite Z.mod_small; lia. Qed.

Lemma skipChildren_spec (cs : list (option R)) :
  ∀ i numNonNulls numValues,
    (∀ j c, cs !! j = Some (Some c) → isOk (skip c numNonNulls)) →
    ∃ cs' es,
      skipChildren i cs numNonNulls numValues = Ok (cs', es) ∧
      length cs' = length cs ∧
      (∀ j, cs !! j = Some None → cs' !! j = Some None) ∧
      (∀ j c, cs !! j = Some (Some c) →
         ∃ c1 k, skip c numNonNulls = Ok (c1, k) ∧
           cs' !! j = Some (Some (setReadOffsetRecursive c1 (toI32 (readOffset c1 + numValues)))) ∧
           CallSkip (i + j) numNonNulls ∈ es) ∧
      (∀ j n, CallSkip j n ∈ es →
         n = numNonNulls ∧ ∃ c, (i ≤ j)%nat ∧ cs !! (j - i)%nat = Some (Some c)).
Proof.
  induction cs as [|[c|] rest IH]; intros i nn nv Hok; simpl.
  - exists [], []. split_and!; try done.
    intros j n Hin. by apply elem_of_nil in Hin.
  - destruct (Hok 0%nat c eq_refl) as [[c1 k] Hc].
    destruct (IH (S i) nn nv) as (rest' & es & Hrun & Hlen & Hnull & Hsome & Hev).
    { intros j c' Hj. apply (Hok (S j) c' Hj). }
    rewrite Hc. simpl. rewrite Hrun. simpl. rewrite toI32_wrapU64.
    eexists _, _. split_and!; [done|simpl; by rewrite Hlen|..].
    + intros [|j] Hj; simplify_eq/=. by apply Hnull.
    + intros [|j] c' Hj; simplify_eq/=.
      * exists c1, k. split_and!; [done|done|]. rewrite Nat.add_0_r. apply elem_of_cons; by left.
      * destruct (Hsome j c' Hj) as (c1' & k' & ? & ? & Hin).
        exists c1', k'. split_and!; [done|done|].
        replace (i + S j)%nat with (S i + j)%nat by lia.
        do 2 (apply elem_of_cons; right). done.
    + intros j n Hin. apply elem_of_cons in Hin as [Heq|Hin]; [simplify_eq|].
      { split; [done|]. exists c. split; [lia|]. by rewrite Nat.sub_diag. }
      apply elem_of_cons in Hin as [Heq|Hin]; [simplify_eq|].
      destruct (Hev j n Hin) as (-> & c' & Hle & Hj). split; [done|].
      exists c'. split; [lia|]. replace (j - i)%nat with (S (j - S i)) by lia. done.
  - destruct (IH (S i) nn nv) as (rest' & es & Hrun & Hlen & Hnull & Hsome & Hev).
    { intros j c' Hj. apply (Hok (S j) c' Hj). }
    rewrite Hrun. simpl.
    eexists _, _. split_and!; [done|simpl; by rewrite Hlen|..].
    + intros [|j] Hj; simplify_eq/=; [done|]. by apply Hnull.
    + intros [|j] c' Hj; simplify_eq/=.
      destruct (Hsome j c' Hj) as (c1' & k' & ? & ? & Hin).
      exists c1', k'. split_and!; [done|done|].
      by replace (i + S j)%nat with (S i + j)%nat by lia.
    + intros j n Hin.
      destruct (Hev j n Hin) as (-> & c' & Hle & Hj). split; [done|].
      exists c'. split; [lia|]. replace (j - i)%nat with (S (j - S i)) by lia. done.
Qed.


(** C3. [skip(numValues)] returns [numValues] whenever the children's own
    skips return.  Every child that is present is told to skip exactly
    [numNonNulls], the count the format's [skipNulls] answers, and no other
    skip is issued.  Afterwards the read offset of each child, and of every
    reader below it, is the child's old read offset plus [numValues] (not
    plus [numNonNulls]).  The children are relied on for two things: their
    [skip] leaves their own read offset alone, and their
    [setReadOffsetRecursive] reaches their whole subtree. *)
Theorem skip_returns_numValues_and_realigns_children
    (s : Reader R F) (numValues : Z) :
  skipKeepsReadOffset →
  setReadOffsetRecursiveReachesSubtree →
  let numNonNulls := (skipNulls (formatData_ s) numValues).2 in
  (∀ i c, children_ s !! i = Some (Some c) →
     isOk (skip c numNonNulls) ∧ - 2 ^ 31 ≤ readOffset c + numValues < 2 ^ 31) →
  ∃ s' es,
    structSkip s numValues = Ok (s', numValues) ∧
    readOffset_ s' = readOffset_ s ∧
    calls s' = calls s ++ es ∧
    length (children_ s') = length (children_ s) ∧
    (∀ i, children_ s !! i = Some None → children_ s' !! i = Some None) ∧
    (∀ i c, children_ s !! i = Some (Some c) →
       CallSkip i numNonNulls ∈ es ∧
       ∃ c1 k c',
         skip c numNonNulls = Ok (c1, k) ∧
         children_ s' !! i = Some (Some c') ∧
         c' = setReadOffsetRecursive c1 (readOffset c + numValues) ∧
         readOffset c' = readOffset c + numValues ∧
         Forall (eq (readOffset c + numValues)) (subtreeReadOffsets c')) ∧
    (∀ i n, CallSkip i n ∈ es →
       n = numNonNulls ∧ ∃ c, children_ s !! i = Some (Some c)).
Proof.
  intros Hkeep Hset numNonNulls Hch. unfold structSkip.
  destruct (skipNulls (formatData_ s) numValues) as [fmt nn] eqn:Hfmt.
  simpl in numNonNulls. subst numNonNulls. simpl.
  destruct (skipChildren_spec (children_ s) 0 nn numValues)
    as (cs' & es & Hrun & Hlen & Hnull & Hsome & Hev).
  { intros j c Hj. by apply (Hch j c). }
  rewrite Hrun. simpl. exists (logCalls es (withChildren cs' (withFormatData fmt s))), es.
  split_and!; try done.
  - intros i c Hi. destruct (Hsome i c Hi) as (c1 & k & Hc & Hi' & Hin).
    split; [done|]. pose proof (Hkeep _ _ _ _ Hc) as Hro.
    destruct (Hch i c Hi) as [_ Hrange].
    rewrite Hro, toI32_small in Hi' by done.
    eexists c1, k, _. split_and!; [done|done|done|apply Hset|apply Hset].
  - intros i n Hin. destruct (Hev i n Hin) as (-> & c & _ & Hi).
    split; [done|]. exists c. by rewrite Nat.sub_0_r in Hi.
Qed.

End SkipTheorems.

Section ReadTheorems.
Context {R F : Type} `{ColumnReader R} `{FormatData F}.
Context (debugBuild : bool).
Implicit Types s : Reader R F.

Lemma bind_Ok {A B} (m : Outcome A) (k : A → Outcome B) b :
  bind m k = Ok b → ∃ a, m = Ok a ∧ k a = Ok b.
Proof. destruct m; simpl; [eauto|done]. Qed.

Lemma check_Ok b u : check b = Ok u → b = true.
Proof. by destruct b. Qed.

Lemma addI32_Ok a b c : addI32 a b = Ok c → c = a + b ∧ - 2 ^ 31 ≤ a + b < 2 ^ 31.
Proof. unfold addI32. case_bool_decide; [|done]. by intros [= <-]. Qed.

Lemma addI32_fits a b : - 2 ^ 31 ≤ a + b < 2 ^ 31 → addI32 a b = Ok (a + b).
Proof. intros ?. unfold addI32. by rewrite bool_decide_eq_true_2. Qed.

Lemma sizeOf_0 {A} (l : list A) : sizeOf l = 0 ↔ l = [].
Proof. unfold sizeOf. destruct l; simpl; split; (done || lia). Qed.

Lemma isChildConstant_frame s s' c :
  frame s' = frame s → isChildConstant s' c = isChildConstant s c.
Proof. unfold frame, isChildConstant. intros [= ? ? ? ? ? ? ? ? ? -> -> ?]. done. Qed.

Lemma chargeInput_spec i n s :
  frame (chargeInput i n s) = frame s ∧
  children_ (chargeInput i n s) = children_ s ∧
  calls (chargeInput i n s) = calls s ∧
  length (specChildren (scanSpec_ (chargeInput i n s))) = length (specChildren (scanSpec_ s)) ∧
  (∀ k, k ≠ i → specChildren (scanSpec_ (chargeInput i n s)) !! k = specChildren (scanSpec_ s) !! k).
Proof.
  unfold chargeInput. destruct (specChildren (scanSpec_ s) !! i) eqn:Hi; [|done].
  simpl. split_and!; try done.
  - by rewrite length_insert.
  - intros k Hk. by rewrite list_lookup_insert_ne.
Qed.

Lemma chargeOutput_spec i n s :
  frame (chargeOutput i n s) = frame s ∧
  children_ (chargeOutput i n s) = children_ s ∧
  calls (chargeOutput i n s) = calls s ∧
  length (specChildren (scanSpec_ (chargeOutput i n s))) = length (specChildren (scanSpec_ s)) ∧
  (∀ k, k ≠ i → specChildren (scanSpec_ (chargeOutput i n s)) !! k = specChildren (scanSpec_ s) !! k).
Proof.
  unfold chargeOutput. destruct (specChildren (scanSpec_ s) !! i) eqn:Hi; [|done].
  simpl. split_and!; try done.
  - by rewrite length_insert.
  - intros k Hk. by rewrite list_lookup_insert_ne.
Qed.

(** Membership in a log that is written out: one case per event. *)
Ltac in_log H :=
  simpl in H;
  repeat (apply elem_of_cons in H as [H|H];
          [try discriminate H; try (injection H as ?; subst)|]);
  try (by apply elem_of_nil in H).

Ltac empty_log :=
  intros; match goal with H : _ ∈ [] |- _ => by apply elem_of_nil in H end.

Lemma readChild_spec i c s offset a nulls s' a' stop :
  readChild i c s offset a nulls = Ok (s', a', stop) →
  frame s' = frame s ∧
  length (specChildren (scanSpec_ s')) = length (specChildren (scanSpec_ s)) ∧
  (∀ k, k ≠ i → specChildren (scanSpec_ s') !! k = specChildren (scanSpec_ s) !! k) ∧
  (stop = true → a' = []) ∧
  (readNarrowsRows → a' ⊆ a) ∧
  ∃ es, calls s' = calls s ++ es ∧
    Forall (λ e, eventSpec e = Some i ∧ isCallAddParentNulls e = false ∧ eventAt offset e) es ∧
    (∀ e, e ∈ es → isCallRead e = true → e = CallRead i (subscript c) offset a nulls) ∧
    (∀ j f r, CallOutputRows j f r ∈ es → r = a' ∧ hasFilter c = true) ∧
    (∀ j f, CallOutputRows j f [] ∈ es → stop = true).
Proof.
  unfold readChild. intros Hrun.
  destruct (isChildConstant s c).
  { simplify_eq. split_and!; try done. exists []. rewrite app_nil_r.
    split_and!; try done; empty_log. }
  apply bind_Ok in Hrun as (reader & Hreader & Hrun).
  destruct (isTopLevel reader && projectOut c && negb (hasFilter c) && negb (extractValues c)).
  { simplify_eq. split_and!; try done. exists []. rewrite app_nil_r.
    split_and!; try done; empty_log. }
  apply bind_Ok in Hrun as (reader1 & Hadv & Hrun).
  destruct (hasFilter c).
  - apply bind_Ok in Hrun as (reader2 & Hread & Hrun). simplify_eq.
    match goal with |- context [chargeOutput i ?n ?s0] =>
      destruct (chargeOutput_spec i n s0) as (Hf & Hc & Hl & Hlen & Hk) end.
    match goal with |- context [chargeInput i ?n ?s0] =>
      destruct (chargeInput_spec i n s0) as (Hf' & Hc' & Hl' & Hlen' & Hk') end.
    split_and!.
    + unfold frame in *. simpl in *. rewrite Hf. simpl. rewrite Hf'. done.
    + simpl. rewrite Hlen. simpl. rewrite Hlen'. done.
    + intros k Hne. simpl. rewrite Hk by done. simpl. rewrite Hk' by done. done.
    + intros Hs. by apply bool_decide_eq_true in Hs.
    + intros Hn. by apply (Hn _ _ _ _ _ Hread).
    + eexists. split.
      { simpl. rewrite Hl. simpl. rewrite Hl'. simpl. rewrite <- app_assoc. done. }
      split_and!.
      * repeat constructor.
      * intros e He Hr. in_log He; by subst.
      * intros j f r He. by in_log He.
      * intros j f He. in_log He. by apply bool_decide_eq_true.
  - apply bind_Ok in Hrun as (reader2 & Hread & Hrun). simplify_eq.
    split_and!; try done.
    eexists. split; [simpl; by rewrite <- app_assoc|]. split_and!.
    + repeat constructor.
    + intros e He Hr. in_log He; by subst.
    + intros j f r He. by in_log He.
    + intros j f He. by in_log He.
Qed.


Lemma readChildren_spec specs :
  ∀ i s offset a nulls s' a',
    readChildren i specs s offset a nulls = Ok (s', a') →
    frame s' = frame s ∧
    length (specChildren (scanSpec_ s')) = length (specChildren (scanSpec_ s)) ∧
    (readNarrowsRows → a' ⊆ a) ∧
    ∃ es, calls s' = calls s ++ es ∧
      Forall (λ e, isCallAddParentNulls e = false ∧ eventAt offset e ∧
                   ∃ j, eventSpec e = Some j ∧ (i ≤ j)%nat) es ∧
      (readNarrowsRows → ∀ j f off r n, CallRead j f off r n ∈ es → r ⊆ a ∧ n = nulls) ∧
      (readNarrowsRows → ∀ j f r, CallOutputRows j f r ∈ es → r ⊆ a) ∧
      (∀ j f, CallOutputRows j f [] ∈ es →
         (∀ e k, e ∈ es → eventSpec e = Some k → (k ≤ j)%nat) ∧
         (∀ k, (j < k)%nat →
            specChildren (scanSpec_ s') !! k = specChildren (scanSpec_ s) !! k)).
Proof.
  induction specs as [|c rest IH]; intros i s offset a nulls s' a' Hrun; simpl in Hrun.
  { simplify_eq. split_and!; try done. exists []. rewrite app_nil_r.
    split_and!; try done; empty_log. }
  apply bind_Ok in Hrun as ([[s1 a1] stop] & Hstep & Hrun).
  destruct (readChild_spec _ _ _ _ _ _ _ _ _ Hstep)
    as (Hf1 & Hlen1 & Hk1 & Hstop & Hsub1 & es1 & Hc1 & Hev1 & Hrd1 & Hout1 & Hch1).
  assert (Hspec1 : ∀ e, e ∈ es1 → eventSpec e = Some i).
  { intros e He. by destruct (proj1 (Forall_forall _ _) Hev1 e He) as [? _]. }
  destruct stop.
  - injection Hrun as <- <-. split_and!; try done. exists es1. split_and!; try done.
    + eapply Forall_impl; [exact Hev1|]. intros e (? & ? & ?). split_and!; try done. by exists i.
    + intros Hn j f off r n He. pose proof (Hrd1 _ He eq_refl) as Heq. by simplify_eq.
    + intros Hn j f r He. destruct (Hout1 _ _ _ He) as [-> _]. by apply Hsub1.
    + intros j f He. pose proof (Hspec1 _ He) as Hj. simpl in Hj. simplify_eq. split.
      * intros e k He' Hk. rewrite (Hspec1 _ He') in Hk. simplify_eq. done.
      * intros k Hk. apply Hk1. lia.
  - destruct (IH _ _ _ _ _ _ _ Hrun)
      as (Hf2 & Hlen2 & Hsub2 & es2 & Hc2 & Hev2 & Hrd2 & Hout2 & Hch2).
    split_and!.
    + by rewrite Hf2.
    + by rewrite Hlen2.
    + intros Hn. etrans; [by apply Hsub2|by apply Hsub1].
    + exists (es1 ++ es2). split_and!.
      * by rewrite Hc2, Hc1, app_assoc.
      * apply Forall_app. split.
        -- eapply Forall_impl; [exact Hev1|]. intros e (? & ? & ?). split_and!; try done. by exists i.
        -- eapply Forall_impl; [exact Hev2|]. intros e (? & ? & j & ? & ?).
           split_and!; try done. exists j. split; [done|lia].
      * intros Hn j f off r n He. apply elem_of_app in He as [He|He].
        -- pose proof (Hrd1 _ He eq_refl) as Heq. by simplify_eq.
        -- destruct (Hrd2 Hn _ _ _ _ _ He) as [Hr ->]. split; [|done].
           etrans; [exact Hr|by apply Hsub1].
      * intros Hn j f r He. apply elem_of_app in He as [He|He].
        -- destruct (Hout1 _ _ _ He) as [-> _]. by apply Hsub1.
        -- etrans; [by eapply Hout2|by apply Hsub1].
      * intros j f He. apply elem_of_app in He as [He|He].
        { by pose proof (Hch1 _ _ He). }
        destruct (Hch2 _ _ He) as [Hle Hun].
        assert (S i ≤ j)%nat as Hij.
        { destruct (proj1 (Forall_forall _ _) Hev2 _ He) as (_ & _ & j' & Hj' & ?).
          simpl in Hj'. simplify_eq. done. }
        split.
        -- intros e k He' Hk. apply elem_of_app in He' as [He'|He'].
           ++ rewrite (Hspec1 _ He') in Hk. simplify_eq. lia.
           ++ by eapply Hle.
        -- intros k Hk. rewrite Hun by done. apply Hk1. lia.
Qed.

Lemma isChildConstant_config s s' c :
  isRoot_ s' = isRoot_ s → fileType_ s' = fileType_ s →
  isChildConstant s' c = isChildConstant s c.
Proof. unfold isChildConstant. by intros -> ->. Qed.

Lemma parentNullCalls_config specs :
  ∀ i s s' offset nulls rows,
    isRoot_ s' = isRoot_ s → fileType_ s' = fileType_ s →
    parentNullCalls i specs s' offset nulls rows = parentNullCalls i specs s offset nulls rows.
Proof.
  induction specs as [|c rest IH]; intros i s s' offset nulls rows Hr Ht; simpl; [done|].
  by rewrite (isChildConstant_config _ _ _ Hr Ht), (IH _ _ _ _ _ _ Hr Ht).
Qed.

Lemma frame_config s s' :
  frame s' = frame s → isRoot_ s' = isRoot_ s ∧ fileType_ s' = fileType_ s.
Proof. unfold frame. by intros [= ? ? ? ? ? ? ? ? ? -> -> ?]. Qed.

Lemma recordParentNullsLoop_spec specs :
  ∀ i s offset rows s',
    recordParentNullsLoop i specs s offset rows = Ok s' →
    frame s' = frame s ∧ scanSpec_ s' = scanSpec_ s ∧
    calls s' = calls s ++ parentNullCalls i specs s offset (nullsInReadRange_ s) rows.
Proof.
  induction specs as [|c rest IH]; intros i s offset rows s' Hrun; simpl in *.
  { simplify_eq. by rewrite app_nil_r. }
  destruct (isChildConstant s c); [by apply IH|].
  apply bind_Ok in Hrun as (reader & Hreader & Hrun).
  apply IH in Hrun as (Hf & Hs & Hc). split_and!; [done|done|].
  rewrite Hc. simpl. rewrite <- app_assoc. simpl. do 2 f_equal.
  by apply parentNullCalls_config.
Qed.

Lemma recordParentNullsInChildren_spec s offset rows s' :
  recordParentNullsInChildren s offset rows = Ok s' →
  frame s' = frame s ∧ scanSpec_ s' = scanSpec_ s ∧
  calls s' = calls s ++
    (if parentNullsInLeaves (formatData_ s) then []
     else parentNullCalls 0 (specChildren (scanSpec_ s)) s offset (nullsInReadRange_ s) rows).
Proof.
  unfold recordParentNullsInChildren. destruct (parentNullsInLeaves (formatData_ s)).
  - intros [= ->]. by rewrite app_nil_r.
  - apply recordParentNullsLoop_spec.
Qed.

Lemma parentNullCalls_filter specs :
  ∀ i s offset nulls rows,
    List.filter isCallAddParentNulls (parentNullCalls i specs s offset nulls rows) =
    parentNullCalls i specs s offset nulls rows.
Proof.
  induction specs as [|c rest IH]; intros; simpl; [done|].
  destruct (isChildConstant s c); simpl; by rewrite IH.
Qed.

Lemma filter_none {A} (p : A → bool) (l : list A) :
  Forall (λ x, p x = false) l → List.filter p l = [].
Proof. induction 1 as [|x l Hx _ IH]; simpl; [done|]. by rewrite Hx. Qed.


Lemma withOutputRows_id s : withOutputRows (outputRows_ s ++ []) s = s.
Proof. destruct s. unfold withOutputRows. simpl. by rewrite app_nil_r. Qed.

Lemma list_filter_subseteq {A} (p : A → bool) (l : list A) : List.filter p l ⊆ l.
Proof.
  intros x Hx. apply list_elem_of_In in Hx. apply filter_In in Hx as [Hx _].
  by apply list_elem_of_In.
Qed.

Lemma filterNulls_spec a isNull s :
  ∃ l, filterNulls a isNull s = withOutputRows (outputRows_ s ++ l) s ∧ l ⊆ a.
Proof.
  unfold filterNulls, addOutputRows. destruct (nullsInReadRange_ s) as [nulls|].
  - eexists. split; [done|]. apply list_filter_subseteq.
  - destruct isNull.
    + exists []. split; [by rewrite withOutputRows_id|]. apply list_subseteq_nil.
    + by exists a.
Qed.

Lemma prepareRead_spec s offset rows nulls s1 :
  prepareRead s offset rows nulls = Ok s1 →
  ∃ b fmt nulls1,
    back rows = Some b ∧
    s1 = withOutputRows [] (withInputRows rows (withNulls nulls1 (withFormatData fmt s))).
Proof.
  unfold prepareRead. destruct (back rows) as [b|]; [|done].
  destruct (readNulls _ _ _) as [fmt nulls1]. intros [= <-]. by exists b, fmt, nulls1.
Qed.

Lemma applyMutation_spec s offset rows flow :
  applyMutation debugBuild s offset rows = Ok flow →
  (hasMutation_ s = false ∧ flow = Continue s rows) ∨
  (hasMutation_ s = true ∧
   ∃ b deleted,
     back rows = Some b ∧ mutation_ s = Some (mkMutation (Some deleted)) ∧
     (debugBuild = true → nullsInReadRange_ s = None ∧ b = sizeOf rows - 1) ∧
     let out := outputRows_ s ++ unsetBits deleted 0 (b + 1) in
     (out = [] ∧ flow = Return (withReadOffset (offset + b + 1) (withOutputRows out s))) ∨
     (out ≠ [] ∧ flow = Continue (withOutputRows out s) out)).
Proof.
  unfold applyMutation. destruct (hasMutation_ s); [|intros [= <-]; by left].
  intros Hrun. right. split; [done|].
  apply bind_Ok in Hrun as ([] & Hc1 & Hrun). apply check_Ok in Hc1.
  destruct (back rows) as [b|]; [|done].
  apply bind_Ok in Hrun as ([] & Hc2 & Hrun). apply check_Ok in Hc2.
  destruct (mutation_ s) as [[[deleted|]]|]; try done.
  exists b, deleted. split_and!; try done.
  { intros ->. simpl in *. apply negb_true_iff, bool_decide_eq_false in Hc1.
    apply bool_decide_eq_true in Hc2. split; [|done].
    destruct (nullsInReadRange_ s); [|done]. by destruct Hc1. }
  apply bind_Ok in Hrun as (end_ & Hend & Hrun). apply addI32_Ok in Hend as [-> _].
  simpl in Hrun. unfold addOutputRows in *. simpl in *.
  case_bool_decide as Hout; [left|right; by injection Hrun as <-].
  apply bind_Ok in Hrun as (sum & Hsum & Hrun). apply addI32_Ok in Hsum as [-> _].
  apply bind_Ok in Hrun as (ro & Hro & Hrun). apply addI32_Ok in Hro as [-> _].
  by injection Hrun as <-.
Qed.

Lemma applyStructFilter_spec s offset rows a flow :
  applyStructFilter s offset rows a = Ok flow →
  (specFilter (scanSpec_ s) = None ∧ flow = Continue s a) ∨
  (∃ kind l,
     specFilter (scanSpec_ s) = Some kind ∧ l ⊆ a ∧
     let s1 := withOutputRows (outputRows_ s ++ l) s in
     (outputRows_ s ++ l = [] ∧ ∃ s2,
        recordParentNullsInChildren s1 offset rows = Ok s2 ∧ flow = Return s2) ∨
     (outputRows_ s ++ l ≠ [] ∧ flow = Continue s1 (outputRows_ s ++ l))).
Proof.
  unfold applyStructFilter. destruct (specFilter (scanSpec_ s)) as [kind|];
    [|intros [= <-]; by left].
  intros Hrun. right. apply bind_Ok in Hrun as ([] & Hc & Hrun).
  match type of Hrun with context [filterNulls a ?b s] =>
    destruct (filterNulls_spec a b s) as (l & Hl & Hsub); rewrite Hl in Hrun end.
  exists kind, l. split_and!; try done. simpl in *.
  case_bool_decide as Hout.
  - left. split; [done|]. apply bind_Ok in Hrun as (s2 & Hrec & [= <-]). by exists s2.
  - right. by injection Hrun as <-.
Qed.


Lemma structRead_cases s offset rows nulls s' :
  structRead debugBuild s offset rows nulls = Ok s' →
  ∃ b s1,
    back rows = Some b ∧
    prepareRead (beginRead s) offset rows nulls = Ok s1 ∧
    ((applyMutation debugBuild s1 offset rows = Ok (Return s')) ∨
     (∃ s2 a1,
        applyMutation debugBuild s1 offset rows = Ok (Continue s2 a1) ∧
        ((applyStructFilter s2 offset rows a1 = Ok (Return s')) ∨
         (∃ s3 a2 s4 a3 s5,
            applyStructFilter s2 offset rows a1 = Ok (Continue s3 a2) ∧
            children_ s3 ≠ [] ∧
            readChildren 0 (specChildren (scanSpec_ s3)) s3 offset a2 (nullsInReadRange_ s2)
              = Ok (s4, a3) ∧
            recordParentNullsInChildren s4 offset rows = Ok s5 ∧
            s' = withReadOffset (offset + b + 1)
                   (withLazyVectorReadOffset offset
                      (if specHasFilter (scanSpec_ s5) then setOutputRows a3 s5 else s5)))))).
Proof.
  unfold structRead. intros Hrun.
  apply bind_Ok in Hrun as (s1 & Hprep & Hrun).
  destruct (prepareRead_spec _ _ _ _ _ Hprep) as (b & _ & _ & Hb & _).
  exists b, s1. split_and!; [done|done|].
  apply bind_Ok in Hrun as ([s2|s2 a1] & Hmut & Hrun).
  { left. by injection Hrun as <-. }
  right. exists s2, a1. split; [done|].
  apply bind_Ok in Hrun as ([s3|s3 a2] & Hfil & Hrun).
  { left. by injection Hrun as <-. }
  right. apply bind_Ok in Hrun as ([] & Hck & Hrun).
  apply check_Ok, negb_true_iff, bool_decide_eq_false in Hck.
  apply bind_Ok in Hrun as ([s4 a3] & Hloop & Hrun).
  apply bind_Ok in Hrun as (s5 & Hrec & Hrun).
  rewrite Hb in Hrun.
  apply bind_Ok in Hrun as (sum & Hsum & Hrun). apply addI32_Ok in Hsum as [-> _].
  apply bind_Ok in Hrun as (ro & Hro & Hrun). apply addI32_Ok in Hro as [-> _].
  injection Hrun as <-.
  by exists s3, a2, s4, a3, s5.
Qed.

(** C1, amended.  After [read(offset, rows, incomingNulls)] returns, the
    struct reader's own [readOffset_] is [offset + rows.back() + 1], on the
    return for an all-deleted mutation, after a short-circuit of the child
    loop and on normal completion.  Nothing is said of the return taken when
    the struct's own null filter leaves no row, nor of the read offsets of
    the children. *)
Theorem read_advances_readOffset s offset rows incomingNulls s' :
  structRead debugBuild s offset rows incomingNulls = Ok s' →
  ¬ returnsAtEmptyStructFilter debugBuild s offset rows incomingNulls →
  ∃ b, back rows = Some b ∧ readOffset_ s' = offset + b + 1.
Proof.
  intros Hrun Hnot.
  destruct (structRead_cases _ _ _ _ _ Hrun) as (b & s1 & Hb & Hprep & Hcases).
  exists b. split; [done|].
  destruct Hcases as [Hmut|(s2 & a1 & Hmut & [Hfil|Hrest])].
  - apply applyMutation_spec in Hmut as [[_ ?]|(_ & b' & d & Hb' & _ & _ & [[_ Hf]|[_ ?]])];
      try done.
    rewrite Hb in Hb'. by simplify_eq.
  - destruct Hnot. by exists s1, s2, a1, s'.
  - destruct Hrest as (s3 & a2 & s4 & a3 & s5 & _ & _ & _ & _ & ->). done.
Qed.


Lemma insert_setSelectivity_core (specs : list ChildSpec) i c sel :
  specs !! i = Some c →
  specCore <$> <[i := setSelectivity sel c]> specs = specCore <$> specs.
Proof.
  intros Hi. rewrite list_fmap_insert. apply list_insert_id.
  by rewrite list_lookup_fmap, Hi.
Qed.

Lemma chargeInput_core i n s :
  specCore <$> specChildren (scanSpec_ (chargeInput i n s)) =
  specCore <$> specChildren (scanSpec_ s).
Proof.
  unfold chargeInput. destruct (specChildren (scanSpec_ s) !! i) eqn:Hi; [|done].
  simpl. by apply insert_setSelectivity_core.
Qed.

Lemma chargeOutput_core i n s :
  specCore <$> specChildren (scanSpec_ (chargeOutput i n s)) =
  specCore <$> specChildren (scanSpec_ s).
Proof.
  unfold chargeOutput. destruct (specChildren (scanSpec_ s) !! i) eqn:Hi; [|done].
  simpl. by apply insert_setSelectivity_core.
Qed.

Lemma readChild_core i c s offset a nulls s' a' stop :
  readChild i c s offset a nulls = Ok (s', a', stop) →
  specCore <$> specChildren (scanSpec_ s') = specCore <$> specChildren (scanSpec_ s).
Proof.
  unfold readChild. intros Hrun.
  destruct (isChildConstant s c); [by injection Hrun as <- _ _|].
  apply bind_Ok in Hrun as (reader & Hreader & Hrun).
  destruct (_ && _); [by injection Hrun as <- _ _|].
  apply bind_Ok in Hrun as (reader1 & Hadv & Hrun).
  destruct (hasFilter c);
    apply bind_Ok in Hrun as (reader2 & Hread & Hrun); injection Hrun as <- _ _; [|done].
  simpl. rewrite chargeOutput_core. simpl. by rewrite chargeInput_core.
Qed.

Lemma readChildren_core specs :
  ∀ i s offset a nulls s' a',
    readChildren i specs s offset a nulls = Ok (s', a') →
    specCore <$> specChildren (scanSpec_ s') = specCore <$> specChildren (scanSpec_ s).
Proof.
  induction specs as [|c rest IH]; intros i s offset a nulls s' a' Hrun; simpl in Hrun.
  { by injection Hrun as <- _. }
  apply bind_Ok in Hrun as ([[s1 a1] stop] & Hstep & Hrun).
  apply readChild_core in Hstep. destruct stop.
  - by injection Hrun as <- _.
  - apply IH in Hrun. by rewrite Hrun.
Qed.

Lemma parentNullCalls_core specs1 :
  ∀ specs2 i s offset nulls rows,
    specCore <$> specs1 = specCore <$> specs2 →
    parentNullCalls i specs1 s offset nulls rows = parentNullCalls i specs2 s offset nulls rows.
Proof.
  induction specs1 as [|c1 rest1 IH]; intros [|c2 rest2] i s offset nulls rows Heq;
    simpl in *; try done.
  injection Heq as Hk _ Hch Hsub _ _ _ Hrest. rewrite (IH rest2) by done.
  unfold isChildConstant. by rewrite Hk, Hch, Hsub.
Qed.

Lemma beginRead_spec s :
  ∃ spec epoch,
    beginRead s = withNumReads epoch (withScanSpec spec s) ∧
    specChildren spec = specChildren (scanSpec_ s) ∧
    specFilter spec = specFilter (scanSpec_ s) ∧
    specHasFilter spec = specHasFilter (scanSpec_ s).
Proof. unfold beginRead, newRead. by eexists _, _. Qed.

(** Without a filter on the struct node, [read] never leaves at line 126. *)
Lemma no_struct_filter_no_return s offset rows incomingNulls :
  specFilter (scanSpec_ s) = None →
  ¬ returnsAtEmptyStructFilter debugBuild s offset rows incomingNulls.
Proof.
  intros Hnone (s1 & s2 & a & s3 & Hprep & Hmut & Hfil).
  destruct (prepareRead_spec _ _ _ _ _ Hprep) as (b & fmt & nulls1 & _ & ->).
  destruct (beginRead_spec s) as (spec & epoch & Hbegin & _ & Hfilter & _).
  rewrite Hbegin in Hmut.
  assert (specFilter (scanSpec_ s2) = None) as Hnone2.
  { apply applyMutation_spec in Hmut as [[_ Hf]|(_ & ? & d & _ & _ & _ & [[_ ?]|[_ Hf]])];
      try done; injection Hf as -> _; simpl; congruence. }
  apply applyStructFilter_spec in Hfil as [[_ ?]|(kind & l & Hkind & _)]; [done|congruence].
Qed.

(** The events of a successful [read], phase by phase. *)
Lemma structRead_calls s offset rows nulls s' :
  structRead debugBuild s offset rows nulls = Ok s' →
  ∃ loop,
    Forall (λ e, isCallAddParentNulls e = false ∧ eventAt offset e ∧
                 ∃ j, eventSpec e = Some j) loop ∧
    (∀ j f, CallOutputRows j f [] ∈ loop →
       (∀ e k, e ∈ loop → eventSpec e = Some k → (k ≤ j)%nat) ∧
       (∀ k, (j < k)%nat →
          specChildren (scanSpec_ s') !! k = specChildren (scanSpec_ s) !! k)) ∧
    specCore <$> specChildren (scanSpec_ s') = specCore <$> specChildren (scanSpec_ s) ∧
    ((returnsAtDeletedRows debugBuild s offset rows nulls ∧ loop = [] ∧ calls s' = calls s) ∨
     (¬ returnsAtDeletedRows debugBuild s offset rows nulls ∧
      calls s' = calls s ++ loop ++
        (if parentNullsInLeaves (formatData_ s') then []
         else parentNullCalls 0 (specChildren (scanSpec_ s)) s offset
                (nullsInReadRange_ s') rows))).
Proof.
  intros Hrun.
  destruct (structRead_cases _ _ _ _ _ Hrun) as (b & s1 & Hb & Hprep & Hcases).
  destruct (prepareRead_spec _ _ _ _ _ Hprep) as (b' & fmt & nulls1 & _ & Hs1).
  destruct (beginRead_spec s) as (spec & epoch & Hbegin & Hspec & _ & _).
  rewrite Hbegin in Hs1.
  destruct Hcases as [Hmut|(s2 & a1 & Hmut & Hcases)].
  { exists []. split_and!.
    - constructor.
    - intros j n He. by apply elem_of_nil in He.
    - apply applyMutation_spec in Hmut as [[_ ?]|(_ & ? & d & _ & _ & _ & [[_ Hf]|[_ ?]])];
        try done.
      injection Hf as ->. subst s1. simpl. by rewrite Hspec.
    - left. split_and!; [by exists s1, s'|done|].
      apply applyMutation_spec in Hmut as [[_ ?]|(_ & ? & d & _ & _ & _ & [[_ Hf]|[_ ?]])];
        try done.
      injection Hf as ->. by subst s1. }
  assert (Hnot : ¬ returnsAtDeletedRows debugBuild s offset rows nulls).
  { intros (s1' & s2' & Hprep' & Hmut'). rewrite Hprep in Hprep'. injection Hprep' as <-.
    by rewrite Hmut in Hmut'. }
  assert (Hs2 : ∃ out, s2 = withOutputRows out s1).
  { apply applyMutation_spec in Hmut as [[_ Hf]|(_ & ? & d & _ & _ & _ & [[_ ?]|[_ Hf]])];
      try done; injection Hf as -> _; [|by eexists].
    exists []. by subst s1. }
  destruct Hs2 as [out Hs2].
  destruct Hcases as [Hfil|(s3 & a2 & s4 & a3 & s5 & Hfil & _ & Hloop & Hrec & Hs')].
  { exists []. apply applyStructFilter_spec in Hfil as [[_ ?]|(kind & l & _ & _ & Hfil)];
      [done|]. simpl in Hfil. destruct Hfil as [(_ & s2' & Hrec & Hf)|[_ ?]]; [|done].
    injection Hf as <-.
    apply recordParentNullsInChildren_spec in Hrec as (Hf & Hsp & Hcalls).
    pose proof Hf as Hf'. unfold frame in Hf'. injection Hf' as _ _ _ Hn _ _ _ _ _ Hr Ht Hfmt.
    simpl in *. subst s2 s1. simpl in *. split_and!.
    - constructor.
    - intros j n He. by apply elem_of_nil in He.
    - by rewrite Hsp, Hspec.
    - right. split; [done|]. rewrite Hcalls, Hfmt, Hn. simpl. f_equal.
      rewrite Hspec. destruct (parentNullsInLeaves fmt); [done|].
      by apply parentNullCalls_config. }
  assert (Hs3 : ∃ out', s3 = withOutputRows out' s1).
  { apply applyStructFilter_spec in Hfil as [[_ Hf]|(kind & l & _ & _ & Hf)].
    - injection Hf as -> _. by exists out.
    - simpl in Hf. destruct Hf as [(_ & ? & _ & ?)|[_ Hf]]; [done|].
      injection Hf as -> _. subst s2. by eexists. }
  destruct Hs3 as [out' Hs3].
  pose proof (readChildren_core _ _ _ _ _ _ _ _ Hloop) as Hcore.
  apply readChildren_spec in Hloop as (Hf4 & Hlen4 & _ & loop & Hc4 & Hev4 & _ & _ & Hch4).
  apply recordParentNullsInChildren_spec in Hrec as (Hf5 & Hsp5 & Hc5).
  exists loop.
  assert (Hspec3 : specChildren (scanSpec_ s3) = specChildren (scanSpec_ s)).
  { subst s3 s1. simpl. done. }
  assert (Hspec' : scanSpec_ s' = scanSpec_ s4).
  { subst s'. destruct (specHasFilter (scanSpec_ s5)); simpl; done. }
  split_and!.
  - eapply Forall_impl; [exact Hev4|]. intros e (? & ? & j & ? & _). eauto.
  - intros j n He. destruct (Hch4 _ _ He) as [Hle Hun]. split; [done|].
    intros k Hk. rewrite Hspec', Hun by done. by rewrite Hspec3.
  - rewrite Hspec', Hcore. by rewrite Hspec3.
  - right. split; [done|].
    pose proof Hf5 as Hf5'. unfold frame in Hf5'.
    injection Hf5' as _ _ _ Hn5 _ _ _ _ _ Hr5 Ht5 Hfmt5.
    pose proof Hf4 as Hf4'. unfold frame in Hf4'.
    injection Hf4' as _ _ _ Hn4 _ _ _ _ _ Hr4 Ht4 Hfmt4.
    assert (Hcalls' : calls s' = calls s5).
    { subst s'. destruct (specHasFilter (scanSpec_ s5)); simpl; done. }
    assert (Hfmt' : formatData_ s' = formatData_ s5).
    { subst s'. destruct (specHasFilter (scanSpec_ s5)); simpl; done. }
    assert (Hn' : nullsInReadRange_ s' = nullsInReadRange_ s5).
    { subst s'. destruct (specHasFilter (scanSpec_ s5)); simpl; done. }
    rewrite Hcalls', Hc5, Hc4, Hfmt', Hfmt5, Hn', Hn5.
    assert (calls s3 = calls s) as -> by (subst s3 s1; done).
    rewrite <- app_assoc. do 2 f_equal.
    destruct (parentNullsInLeaves (formatData_ s4)); [done|].
    rewrite (parentNullCalls_core _ (specChildren (scanSpec_ s))).
    2:{ rewrite Hcore. by rewrite Hspec3. }
    apply parentNullCalls_config.
    + rewrite Hr4. subst s3 s1. done.
    + rewrite Ht4. subst s3 s1. done.
Qed.


Lemma parentNullCalls_all specs :
  ∀ i s offset nulls rows,
    Forall (λ e, isCallAddParentNulls e = true) (parentNullCalls i specs s offset nulls rows).
Proof.
  induction specs as [|c rest IH]; intros; simpl; [constructor|].
  destruct (isChildConstant s c); simpl; [apply IH|]. constructor; [done|apply IH].
Qed.

Lemma parentNullCalls_elem specs :
  ∀ i s offset nulls rows e,
    e ∈ parentNullCalls i specs s offset nulls rows ↔
    ∃ k c, specs !! k = Some c ∧ isChildConstant s c = false ∧
           e = CallAddParentNulls (i + k) (subscript c) offset nulls rows.
Proof.
  induction specs as [|c rest IH]; intros i s offset nulls rows e; simpl.
  { split; [by intros ?%elem_of_nil|]. by intros ([|?] & ? & ? & _). }
  rewrite elem_of_app, IH. split.
  - intros [He|(k & c' & Hk & Hc' & ->)].
    + destruct (isChildConstant s c) eqn:Hc; [by apply elem_of_nil in He|].
      apply list_elem_of_singleton in He as ->. exists 0%nat, c.
      by rewrite Nat.add_0_r.
    + exists (S k), c'. split_and!; [done|done|]. f_equal. lia.
  - intros ([|k] & c' & Hk & Hc' & ->); simpl in Hk.
    + injection Hk as ->. left. rewrite Hc', Nat.add_0_r. by apply list_elem_of_singleton.
    + right. exists k, c'. split_and!; [done|done|]. f_equal. lia.
Qed.

Lemma parentNullCalls_NoDup specs :
  ∀ i s offset nulls rows, NoDup (parentNullCalls i specs s offset nulls rows).
Proof.
  induction specs as [|c rest IH]; intros i s offset nulls rows; simpl; [constructor|].
  destruct (isChildConstant s c); simpl; [apply IH|].
  constructor; [|apply IH].
  intros (k & c' & _ & _ & Heq)%parentNullCalls_elem. injection Heq as Hi _. lia.
Qed.

(** C2, amended.  When the format injects parent nulls at the leaves, a
    read issues no [addParentNulls] at all.  When it does not, every read
    that does not return early on an all-deleted mutation issues exactly one
    [addParentNulls] per child spec that is not constant, in schema order,
    with the read's offset, the struct's null bitmap and the full original
    row set, whichever other branch the read takes. *)
Theorem read_propagates_parent_nulls s offset rows incomingNulls s' :
  structRead debugBuild s offset rows incomingNulls = Ok s' →
  ∃ es,
    calls s' = calls s ++ es ∧
    let recorded := List.filter isCallAddParentNulls es in
    (parentNullsInLeaves (formatData_ s') = true → recorded = []) ∧
    (parentNullsInLeaves (formatData_ s') = false →
     ¬ returnsAtDeletedRows debugBuild s offset rows incomingNulls →
       recorded =
         parentNullCalls 0 (specChildren (scanSpec_ s)) s offset (nullsInReadRange_ s') rows ∧
       NoDup recorded ∧
       ∀ e, e ∈ recorded ↔
         ∃ k c, specChildren (scanSpec_ s) !! k = Some c ∧ isChildConstant s c = false ∧
                e = CallAddParentNulls k (subscript c) offset (nullsInReadRange_ s') rows).
Proof.
  intros Hrun.
  destruct (structRead_calls _ _ _ _ _ Hrun)
    as (loop & Hev & _ & _ & [(Hret & -> & Hcalls)|(Hnot & Hcalls)]).
  - exists []. rewrite app_nil_r. split; [done|]. simpl. split; [done|].
    intros _ Hn. by destruct Hn.
  - eexists. split; [exact Hcalls|].
    assert (List.filter isCallAddParentNulls loop = []) as Hloop.
    { apply filter_none. eapply Forall_impl; [exact Hev|]. by intros e [? _]. }
    simpl. rewrite List.filter_app, Hloop. simpl. split.
    + by intros ->.
    + intros -> _. rewrite parentNullCalls_filter. split_and!.
      * done.
      * apply parentNullCalls_NoDup.
      * intros e. apply parentNullCalls_elem.
Qed.

(** C6.  If, within one read, the filtered child at scan-spec position [j]
    answers an empty output row set after its read, the loop stops there: for
    every later position [k] no [advanceFieldReader], no [read] and no
    selectivity charge is issued (the only call naming [k] is the closing
    [addParentNulls]), and the child spec at [k], its selectivity counters
    included, is as it was before the call. *)
Theorem read_stops_at_empty_child s offset rows incomingNulls s' :
  structRead debugBuild s offset rows incomingNulls = Ok s' →
  ∃ es,
    calls s' = calls s ++ es ∧
    ∀ j f, CallOutputRows j f [] ∈ es →
      ∀ k, (j < k)%nat →
        (∀ e, e ∈ es → eventSpec e = Some k → isCallAddParentNulls e = true) ∧
        specChildren (scanSpec_ s') !! k = specChildren (scanSpec_ s) !! k.
Proof.
  intros Hrun.
  destruct (structRead_calls _ _ _ _ _ Hrun)
    as (loop & Hev & Hch & _ & [(Hret & -> & Hcalls)|(Hnot & Hcalls)]).
  - exists []. rewrite app_nil_r. split; [done|]. empty_log.
  - eexists. split; [exact Hcalls|]. intros j f He k Hk.
    assert (CallOutputRows j f [] ∈ loop) as Hin.
    { apply elem_of_app in He as [He|He]; [done|].
      destruct (parentNullsInLeaves (formatData_ s')); [by apply elem_of_nil in He|].
      by pose proof (proj1 (Forall_forall _ _) (parentNullCalls_all _ _ _ _ _ _) _ He). }
    destruct (Hch _ _ Hin) as [Hle Hun]. split; [|by apply Hun].
    intros e He' Hspec. apply elem_of_app in He' as [He'|He'].
    + pose proof (Hle _ _ He' Hspec). lia.
    + destruct (parentNullsInLeaves (formatData_ s')); [by apply elem_of_nil in He'|].
      by apply (proj1 (Forall_forall _ _) (parentNullCalls_all _ _ _ _ _ _) _ He').
Qed.

Lemma unsetBits_nil deleted n :
  (∀ r, 0 ≤ r < n → isBitSet deleted r = true) → unsetBits deleted 0 n = [].
Proof.
  intros Hall. unfold unsetBits. apply filter_none, Forall_forall.
  intros r Hr. apply elem_of_seqZ in Hr. rewrite Hall by lia. done.
Qed.

Lemma unsetBits_subseteq deleted n : unsetBits deleted 0 n ⊆ seqZ 0 n.
Proof. unfold unsetBits. rewrite Z.sub_0_r. apply list_filter_subseteq. Qed.

Lemma dense_back (rows : RowSet) b :
  rows = seqZ 0 (sizeOf rows) → back rows = Some b → sizeOf rows = b + 1.
Proof.
  intros Hd Hb. unfold back in Hb. rewrite last_lookup, Hd in Hb.
  apply lookup_seqZ in Hb as [-> Hlt]. rewrite length_seqZ in *.
  unfold sizeOf in *. lia.
Qed.

(** C5.  A read under a mutation whose bitmap marks every row of the dense
    input row set as deleted returns with [readOffset_] moved past the whole
    window, [offset + rows.back() + 1], and touches no child: the children
    are unchanged, no call to a child has been issued (no read, no
    [addParentNulls]), and the child specs are unchanged.  In a debug build
    the struct must have no null bitmap, as the source's check demands.  The
    offset is not negative and the sums [rows.back() + 1] and
    [offset + rows.back() + 1] of lines 106 and 109 fit [vector_size_t]:
    beyond it they are undefined in the source and the call does not
    return. *)
Theorem read_all_rows_deleted_touches_no_child s offset rows incomingNulls deleted :
  hasMutation_ s = true →
  mutation_ s = Some (mkMutation (Some deleted)) →
  rows ≠ [] →
  rows = seqZ 0 (sizeOf rows) →
  0 ≤ offset ∧ offset + sizeOf rows < 2 ^ 31 →
  (∀ r, r ∈ rows → isBitSet deleted r = true) →
  (debugBuild = true →
     (readNulls (formatData_ s) (sizeOf rows) incomingNulls).2 = None) →
  ∃ s' b,
    structRead debugBuild s offset rows incomingNulls = Ok s' ∧
    back rows = Some b ∧
    readOffset_ s' = offset + b + 1 ∧
    children_ s' = children_ s ∧
    calls s' = calls s ∧
    specChildren (scanSpec_ s') = specChildren (scanSpec_ s) ∧
    outputRows_ s' = [].
Proof.
  intros Hmut Hm Hne Hdense Hfit Hall Hdbg.
  destruct (back rows) as [b|] eqn:Hb.
  2:{ unfold back in Hb. apply last_None in Hb. done. }
  pose proof (dense_back _ _ Hdense Hb) as Hsize.
  assert (0 ≤ b) as Hb0.
  { assert (0 < sizeOf rows) by (unfold sizeOf; destruct rows; [done|simpl; lia]). lia. }
  assert (unsetBits deleted 0 (b + 1) = []) as Hnil.
  { apply unsetBits_nil. intros r Hr. apply Hall. rewrite Hdense, Hsize.
    apply elem_of_seqZ. lia. }
  unfold structRead, prepareRead. rewrite Hb.
  destruct (beginRead_spec s) as (spec & epoch & -> & Hspec & _ & _). simpl.
  rewrite Hsize in Hdbg.
  destruct (readNulls (formatData_ s) (b + 1) incomingNulls) as [fmt nulls1] eqn:Hrn.
  simpl. unfold applyMutation. simpl. rewrite Hmut, Hb, Hm. simpl.
  assert (negb debugBuild || negb (bool_decide (is_Some nulls1)) = true) as ->.
  { destruct debugBuild; [|done]. simpl in Hdbg. rewrite Hdbg by done. done. }
  assert (negb debugBuild || bool_decide (b = sizeOf rows - 1) = true) as ->.
  { apply orb_true_iff. right. apply bool_decide_eq_true. lia. }
  simpl. rewrite (addI32_fits b 1) by lia. simpl.
  unfold addOutputRows. simpl. rewrite Hnil. simpl.
  rewrite (addI32_fits offset b) by lia. simpl.
  rewrite (addI32_fits (offset + b) 1) by lia. simpl.
  eexists _, b. split_and!; done.
Qed.

(** X25.  Within one read the active rows stay among the rows before them.
    Every turn of the child loop leaves rows among those it started with.
    The rows a mutation leaves are among the input rows, the rows the
    struct's own filter leaves are among those, and the rows the child loop
    leaves are among those again.  Over the whole call, the rows every child
    is read on, the output rows every filtered child answers, and the output
    row set the reader reports afterwards are all among the input rows.
    This is about which rows are there, not how often: a row may come twice
    (as on [exRepeatedRowsReader]).  The children
    are relied on to report output rows among the rows they were asked for,
    and a mutation comes with a dense input row set. *)
Theorem read_active_rows_narrow s offset rows incomingNulls :
  readNarrowsRows →
  (hasMutation_ s = true → rows = seqZ 0 (sizeOf rows)) →
  (∀ i c (st : Reader R F) a nulls st' a' stop,
     readChild i c st offset a nulls = Ok (st', a', stop) → a' ⊆ a) ∧
  (∀ s1, prepareRead (beginRead s) offset rows incomingNulls = Ok s1 →
     ∀ s2 a1, applyMutation debugBuild s1 offset rows = Ok (Continue s2 a1) →
       a1 ⊆ rows ∧
       ∀ s3 a2, applyStructFilter s2 offset rows a1 = Ok (Continue s3 a2) →
         a2 ⊆ a1 ∧
         ∀ s4 a3,
           readChildren 0 (specChildren (scanSpec_ s3)) s3 offset a2 (nullsInReadRange_ s2)
             = Ok (s4, a3) →
           a3 ⊆ a2) ∧
  (∀ s', structRead debugBuild s offset rows incomingNulls = Ok s' →
     structOutputRows s' ⊆ rows ∧
     ∃ es, calls s' = calls s ++ es ∧
       ∀ e r, e ∈ es → activeRowsOf e = Some r → r ⊆ rows).
Proof.
  intros Hnarrow Hdense.
  assert (Hmutation : ∀ s1, prepareRead (beginRead s) offset rows incomingNulls = Ok s1 →
     ∀ s2 a1, applyMutation debugBuild s1 offset rows = Ok (Continue s2 a1) →
       a1 ⊆ rows ∧ outputRows_ s2 ⊆ a1 ∧ inputRows_ s2 = rows ∧
       hasMutation_ s2 = hasMutation_ s ∧ (hasMutation_ s = true → outputRows_ s2 ⊆ rows) ∧
       calls s2 = calls s).
  { intros s1 Hprep s2 a1 Hmut.
    destruct (prepareRead_spec _ _ _ _ _ Hprep) as (b & fmt & nulls1 & Hb & ->).
    destruct (beginRead_spec s) as (spec & epoch & Hbegin & _). rewrite Hbegin in *.
    apply applyMutation_spec in Hmut as [[_ Hf]|(Hm & b' & d & Hb' & _ & _ & [[_ ?]|[_ Hf]])];
      try done; injection Hf as -> ->; simpl in *.
    - split_and!; try done; intros; apply list_subseteq_nil.
    - rewrite Hb in Hb'. injection Hb' as <-.
      assert (unsetBits d 0 (b + 1) ⊆ rows) as Hsub.
      { pose proof (dense_back _ _ (Hdense Hm) Hb) as Hsz.
        rewrite (Hdense Hm), Hsz. apply unsetBits_subseteq. }
      split_and!; done. }
  assert (Hfilter : ∀ s2 a1 s3 a2,
     outputRows_ s2 ⊆ a1 →
     applyStructFilter s2 offset rows a1 = Ok (Continue s3 a2) →
     a2 ⊆ a1 ∧ inputRows_ s3 = inputRows_ s2 ∧ hasMutation_ s3 = hasMutation_ s2 ∧
     outputRows_ s3 ⊆ outputRows_ s2 ++ a1 ∧ scanSpec_ s3 = scanSpec_ s2 ∧
     calls s3 = calls s2).
  { intros s2 a1 s3 a2 Hout Hfil.
    apply applyStructFilter_spec in Hfil as [[_ Hf]|(kind & l & _ & Hl & Hf)].
    - injection Hf as -> ->. split_and!; try done. intros x Hx. apply elem_of_app. by left.
    - simpl in Hf. destruct Hf as [(_ & ? & _ & ?)|[_ Hf]]; [done|].
      injection Hf as -> ->. simpl. split_and!; try done.
      + intros x Hx. apply elem_of_app in Hx as [Hx|Hx]; [by apply Hout|by apply Hl].
      + intros x Hx. apply elem_of_app in Hx as [Hx|Hx]; apply elem_of_app;
          [by left|right; by apply Hl]. }
  assert (Hrecorded : ∀ (pnil : bool) specs (st : Reader R F) offset' rows' nulls' e r,
     e ∈ (if pnil then [] else parentNullCalls 0 specs st offset' nulls' rows') →
     activeRowsOf e = Some r → False).
  { intros pnil specs st offset' rows' nulls' e r He Hr.
    destruct pnil; [by apply elem_of_nil in He|].
    pose proof (proj1 (Forall_forall _ _)
                  (parentNullCalls_all specs 0 st offset' nulls' rows') _ He) as Hp.
    by destruct e. }
  split_and!.
  - intros i c st a nulls st' a' stop Hstep.
    by apply (readChild_spec _ _ _ _ _ _ _ _ _ Hstep).
  - intros s1 Hprep s2 a1 Hmut.
    destruct (Hmutation _ Hprep _ _ Hmut) as (Ha1 & Hout & _). split; [done|].
    intros s3 a2 Hfil. destruct (Hfilter _ _ _ _ Hout Hfil) as (Ha2 & _). split; [done|].
    intros s4 a3 Hloop.
    apply readChildren_spec in Hloop as (_ & _ & Ha3 & _). by apply Ha3.
  - intros s' Hrun.
    destruct (structRead_cases _ _ _ _ _ Hrun) as (b & s1 & Hb & Hprep & Hcases).
    destruct Hcases as [Hmut|(s2 & a1 & Hmut & Hcases)].
    { apply applyMutation_spec in Hmut as [[_ ?]|(Hm & ? & d & _ & _ & _ & [[Hnil Hf]|[_ ?]])];
        try done.
      injection Hf as ->. unfold structOutputRows.
      destruct (prepareRead_spec _ _ _ _ _ Hprep) as (? & ? & ? & _ & ->).
      destruct (beginRead_spec s) as (spec & epoch & -> & _). simpl in *.
      rewrite Hnil. split.
      - destruct (_ || _); [apply list_subseteq_nil|done].
      - exists []. rewrite app_nil_r. split; [done|]. empty_log. }
    destruct (Hmutation _ Hprep _ _ Hmut) as (Ha1 & Hout & Hin2 & Hm2 & Hm2' & Hc2).
    destruct Hcases as [Hfil|(s3 & a2 & s4 & a3 & s5 & Hfil & _ & Hloop & Hrec & ->)].
    { apply applyStructFilter_spec in Hfil as [[_ ?]|(kind & l & _ & Hl & Hf)]; [done|].
      simpl in Hf. destruct Hf as [(Hnil & s2' & Hrec & Hf)|[_ ?]]; [|done].
      injection Hf as ->.
      apply recordParentNullsInChildren_spec in Hrec as (Hf & Hsp & Hcalls).
      unfold frame in Hf. injection Hf as _ Hi Ho _ _ _ _ _ Hm _ _ _. simpl in *.
      unfold structOutputRows. rewrite Ho, Hi, Hnil, Hin2. split.
      - destruct (_ || _); [apply list_subseteq_nil|done].
      - eexists. split; [by rewrite Hcalls, Hc2|].
        intros e r He Hr. by destruct (Hrecorded _ _ _ _ _ _ _ _ He Hr). }
    destruct (Hfilter _ _ _ _ Hout Hfil) as (Ha2 & Hin3 & Hm3 & Hout3 & Hsp3 & Hc3).
    apply readChildren_spec in Hloop
      as (Hf4 & _ & Ha3 & loop & Hc4 & _ & Hrd & Hanswer & _).
    apply recordParentNullsInChildren_spec in Hrec as (Hf5 & Hsp5 & Hc5).
    unfold frame in Hf4, Hf5.
    injection Hf4 as _ Hi4 Ho4 _ _ _ _ _ Hm4 _ _ _.
    injection Hf5 as _ Hi5 Ho5 _ _ _ _ _ Hm5 _ _ _.
    split.
    + unfold structOutputRows.
      destruct (specHasFilter (scanSpec_ s5)) eqn:Hhf; simpl; rewrite Hhf; simpl.
      * etrans; [by apply Ha3|]. by etrans.
      * rewrite Hm5, Hm4, Hm3, Hm2, Ho5, Ho4, Hi5, Hi4, Hin3, Hin2.
        destruct (hasMutation_ s) eqn:Hm; [|done].
        etrans; [exact Hout3|]. intros x Hx.
        apply elem_of_app in Hx as [Hx|Hx]; [by apply Hm2'|by apply Ha1].
    + eexists. split.
      { assert (calls (withReadOffset (offset + b + 1)
                  (withLazyVectorReadOffset offset
                     (if specHasFilter (scanSpec_ s5) then setOutputRows a3 s5 else s5)))
                = calls s5) as -> by (by destruct (specHasFilter (scanSpec_ s5))).
        rewrite Hc5, Hc4, Hc3, Hc2, <- app_assoc. done. }
      intros e r He Hr. apply elem_of_app in He as [He|He].
      * assert (r ⊆ a2) as Hra2.
        { destruct e; try done; simpl in Hr; injection Hr as ->.
          - by apply (Hrd Hnarrow _ _ _ _ _ He).
          - by apply (Hanswer Hnarrow _ _ _ He). }
        etrans; [exact Hra2|]. by etrans.
      * by destruct (Hrecorded _ _ _ _ _ _ _ _ He Hr).
Qed.

End ReadTheorems.

Section ResultTheorems.

Lemma tryReuseResult_wraps :
  ∀ result reused, tryReuseResult result = Some reused →
    ∃ row, UniquelyWraps result row ∧ reused = clearedForReuse row.
Proof.
  fix IH 1. intros result reused.
  destruct result as [u t nulls n flag cs|u t n l loaded|u t n ix values|u t n x|u t vs];
    simpl; destruct (Nat.eqb_spec u 1) as [->|]; simpl; try done.
  - intros [= <-]. eexists. split; [constructor|done].
  - destruct loaded as [[v|]|]; try done. intros Hv.
    destruct (IH v reused Hv) as (row & Hw & ->). exists row. split; [by constructor|done].
  - destruct values as [v|]; try done. intros Hv.
    destruct (IH v reused Hv) as (row & Hw & ->). exists row. split; [by constructor|done].
Qed.

Lemma wraps_tryReuseResult result row :
  UniquelyWraps result row → tryReuseResult result = Some (clearedForReuse row).
Proof. induction 1; simpl; done. Qed.

Lemma wraps_row_inv result row :
  UniquelyWraps result row →
  ∃ t nulls n flag cs, row = RowVector 1 t nulls n flag cs.
Proof. induction 1; [by eexists _, _, _, _, _|done..]. Qed.

Lemma fillRowVectorChildren_fields fields i t :
  fields !! i = Some t →
  fillRowVectorChildren (ROW fields) !! i =
  Some (if isRow t then Some (RowVector 1 t None 0 false (fillRowVectorChildren t)) else None).
Proof.
  intros Hi. simpl. change (List.map ?f fields) with (f <$> fields).
  by rewrite list_lookup_fmap, Hi.
Qed.

(** C7 as stated fails: a dictionary held by the caller alone, around a row
    container that has a second holder, meets the stated condition and is not
    reused. *)
Lemma reuse_refused_for_shared_inner_row :
  ¬ (is_Some (tryReuseResult exWrappedShared) ↔ reusableAsStated exWrappedShared = true).
Proof.
  intros [_ Hback]. destruct (Hback eq_refl) as [v Hv]. discriminate Hv.
Qed.

Lemma copyNulls_spec readerNulls rows :
  ∀ i0 nulls, 0 ≤ i0 →
    (∀ j, j < i0 → Z.testbit (copyNulls readerNulls i0 rows nulls) j = Z.testbit nulls j) ∧
    (∀ k row, rows !! k = Some row →
       Z.testbit (copyNulls readerNulls i0 rows nulls) (i0 + Z.of_nat k)
       = Z.testbit readerNulls row).
Proof.
  induction rows as [|row rest IH]; intros i0 nulls Hi0; simpl.
  { split; [done|]. intros k row Hk. by destruct k. }
  destruct (IH (i0 + 1) (setBit nulls i0 (isBitSet readerNulls row))) as [Hlow Hrows]; [lia|].
  split.
  - intros j Hj. rewrite Hlow by lia. unfold setBit.
    destruct (isBitSet readerNulls row).
    + apply Z.setbit_neq; lia.
    + apply Z.clearbit_neq; lia.
  - intros [|k] row' Hk; simpl in Hk.
    + injection Hk as <-. rewrite Z.add_0_r, Hlow by lia. unfold setBit, isBitSet.
      destruct (Z.testbit readerNulls row) eqn:Hbit.
      * by apply Z.setbit_eq.
      * apply Z.clearbit_eq.
    + replace (i0 + Z.of_nat (S k)) with (i0 + 1 + Z.of_nat k) by lia. by apply Hrows.
Qed.

End ResultTheorems.

Section GetValuesTheorems.
Context {R F : Type} `{ColumnReader R} `{FormatData F}.
Implicit Types s : Reader R F.

Lemma getChild_length i c rows t (s s' : Reader R F) fields fields' lp lp' :
  getChild i c rows t (s, fields, lp) = Ok (s', fields', lp') →
  length fields' = length fields.
Proof.
  unfold getChild. intros Hrun.
  destruct (negb (projectOut c)); [by injection Hrun as _ <- _|].
  destruct (atZ fields (channel c)) as [childResult|]; [|done].
  destruct (isConstant c).
  { apply bind_Ok in Hrun as (field & _ & [= _ <- _]). apply length_setZ. }
  case_bool_decide.
  { apply bind_Ok in Hrun as (field & _ & [= _ <- _]). apply length_setZ. }
  destruct (atZ (children_ s) (subscript c)) as [[reader|]|]; try done.
  destruct (_ || _).
  { apply bind_Ok in Hrun as ([reader' field] & _ & [= _ <- _]). apply length_setZ. }
  match type of Hrun with
  | match ?reset with _ => _ end = _ => destruct reset
  end.
  - injection Hrun as _ <- _. apply length_setZ.
  - destruct (atZ (tyChildren t) (channel c)); [|done].
    injection Hrun as _ <- _. apply length_setZ.
Qed.

Lemma getChildren_length specs :
  ∀ i rows t (s s' : Reader R F) fields fields' lp lp',
    getChildren i specs rows t (s, fields, lp) = Ok (s', fields', lp') →
    length fields' = length fields.
Proof.
  induction specs as [|c rest IH]; intros i rows t s s' fields fields' lp lp' Hrun;
    simpl in Hrun.
  { by injection Hrun as _ <- _. }
  apply bind_Ok in Hrun as ([[s1 fields1] lp1] & Hstep & Hrun).
  apply getChild_length in Hstep. apply IH in Hrun. by rewrite Hrun.
Qed.

(** C7, amended.  [getValues] reuses the previous result exactly when
    unwrapping it through loaded lazy and dictionary layers reaches a row
    container and every layer on the way, that row container included, has a
    single owner; the container it then fills is that row container, its
    lazy-and-wrapped flag cleared.  In every other case it fills a fresh row
    container of the result's type, with no rows: a field of row type holds
    an empty row container built the same way, any other field is unset.
    Either way the batch [getValues] hands back is that container, with its
    rows, nulls and fields set. *)
Theorem result_reused_iff_uniquely_wrapped_row (result : Vector) :
  (∀ reused,
     tryReuseResult result = Some reused ↔
     ∃ row, UniquelyWraps result row ∧ reused = clearedForReuse row) ∧
  (∀ reused, tryReuseResult result = Some reused →
     resultContainer result = reused ∧
     ∃ t nulls n cs, reused = RowVector 1 t nulls n false cs) ∧
  (tryReuseResult result = None →
     ∃ fields,
       resultContainer result = RowVector 1 (typeOf result) None 0 false fields ∧
       ∀ rowFields, typeOf result = ROW rowFields →
         length fields = length rowFields ∧
         ∀ i t, rowFields !! i = Some t →
           fields !! i =
           Some (if isRow t
                 then Some (RowVector 1 t None 0 false (fillRowVectorChildren t))
                 else None)) ∧
  (∀ (s s' : Reader R F) rows out,
     structGetValues s rows (Some result) = Ok (s', out) →
     ∃ u t nulls0 n0 flag fields0 nulls fields,
       resultContainer result = RowVector u t nulls0 n0 flag fields0 ∧
       out = Some (RowVector u t nulls (sizeOf rows) flag fields) ∧
       length fields = length fields0).
Proof.
  split_and!.
  - intros reused. split; [apply tryReuseResult_wraps|].
    intros (row & Hw & ->). by apply wraps_tryReuseResult.
  - intros reused Hr. unfold resultContainer. rewrite Hr. split; [done|].
    apply tryReuseResult_wraps in Hr as (row & Hw & ->).
    apply wraps_row_inv in Hw as (t & nulls & n & flag & cs & ->). simpl. eauto.
  - intros Hnone. unfold resultContainer. rewrite Hnone. eexists. split; [done|].
    intros rowFields ->. split.
    + simpl. by rewrite length_map.
    + intros i t. apply fillRowVectorChildren_fields.
  - intros s s' rows out. unfold structGetValues. intros Hrun.
    apply bind_Ok in Hrun as ([] & _ & Hrun).
    apply bind_Ok in Hrun as ([] & _ & Hrun).
    destruct (resultContainer result) as [u t nulls0 n0 flag fields0| | | |]; try done.
    case_bool_decide.
    + injection Hrun as _ <-. by eexists u, t, nulls0, n0, flag, fields0, _, _.
    + apply bind_Ok in Hrun as ([[s1 fields1] lp] & Hloop & [= _ <-]).
      apply getChildren_length in Hloop.
      by eexists u, t, nulls0, n0, flag, fields0, _, _.
Qed.

(** C8.  The batch [getValues(rows, result)] produces is a row container of
    exactly [rows.size()] rows.  With a null bitmap for the read range, the
    null bit of output position [i] is the bit at [rows[i]] of that bitmap;
    without one, every output row is non-null. *)
Theorem getValues_size_and_nulls s (rows : RowSet) result s' out :
  structGetValues s rows result = Ok (s', out) →
  ∃ u t nulls flag fields,
    out = Some (RowVector u t nulls (sizeOf rows) flag fields) ∧
    ∀ (i : nat) row, rows !! i = Some row →
      match nullsInReadRange_ s with
      | Some readerNulls =>
          (∃ bits, nulls = Some bits ∧
             isBitSet bits (Z.of_nat i) = isBitSet readerNulls row) ∧
          isNullAt (RowVector u t nulls (sizeOf rows) flag fields) (Z.of_nat i)
          = negb (isBitSet readerNulls row)
      | None =>
          isNullAt (RowVector u t nulls (sizeOf rows) flag fields) (Z.of_nat i) = false
      end.
Proof.
  unfold structGetValues. intros Hrun.
  apply bind_Ok in Hrun as ([] & _ & Hrun).
  destruct result as [r|]; [|done].
  apply bind_Ok in Hrun as ([] & _ & Hrun).
  destruct (resultContainer r) as [u t nulls n flag fields| | | |]; try done.
  case_bool_decide as Hsize.
  { injection Hrun as <- <-. exists u, t, nulls, flag, fields. split; [done|].
    intros i row Hi. apply sizeOf_0 in Hsize. subst rows. by destruct i. }
  apply bind_Ok in Hrun as ([[s1 fields1] lazyPrepared] & Hloop & Hrun).
  injection Hrun as <- <-.
  eexists u, t, _, flag, fields1. split; [done|].
  intros i row Hi. destruct (nullsInReadRange_ s) as [readerNulls|]; simpl.
  - destruct (copyNulls_spec readerNulls rows 0 (mutableNulls nulls (sizeOf rows)))
      as [_ Hbits]; [done|].
    specialize (Hbits _ _ Hi). rewrite Z.add_0_l in Hbits. unfold isBitSet.
    split; [by eexists|]. by rewrite Hbits.
  - unfold clearNulls. destruct nulls as [bits|]; [|done].
    unfold isBitSet. rewrite Z.lor_spec, Z.sub_0_r, Z.shiftl_0_r.
    apply lookup_lt_Some in Hi.
    rewrite (Z.ones_spec_low (sizeOf rows)) by (unfold sizeOf; lia).
    by rewrite orb_true_r.
Qed.

End GetValuesTheorems.

Section NextTheorems.
Context {R F : Type} `{ColumnReader R} `{FormatData F}.
Context (debugBuild : bool).
Implicit Types s : Reader R F.

Lemma countBits_range bits n : 0 ≤ n → 0 ≤ countBits bits 0 n ≤ n.
Proof.
  intros Hn. unfold countBits, sizeOf. rewrite Z.sub_0_r. split; [lia|].
  pose proof (List.filter_length_le (isBitSet bits) (seqZ 0 n)) as Hle.
  rewrite length_seqZ in Hle. lia.
Qed.

Lemma wrapConstants_spec (specs : list ChildSpec) :
  ∀ (numValues : Z) (fields : list VectorPtr),
    (∀ c, c ∈ specs → isConstant c = true →
       0 ≤ channel c < sizeOf fields ∧ is_Some (constantValue c)) →
    ((∀ c, c ∈ specs → isConstant c = true) →
     NoDup (channel <$> specs) →
       ∃ fields',
         wrapConstants specs numValues fields = Ok fields' ∧
         length fields' = length fields ∧
         (∀ c, c ∈ specs →
            atZ fields' (channel c) = Some (wrapInConstant (toI32 numValues) 0 (constantValue c))) ∧
         (∀ i, (∀ c, c ∈ specs → channel c ≠ i) → atZ fields' i = atZ fields i)) ∧
    ((∃ c, c ∈ specs ∧ isConstant c = false) →
       wrapConstants specs numValues fields = Abort CheckFailed).
Proof.
  induction specs as [|c rest IH]; intros numValues fields Hwf.
  { split.
    - intros _ _. exists fields. split_and!; try done. intros c Hc. by apply elem_of_nil in Hc.
    - intros (c & Hc & _). by apply elem_of_nil in Hc. }
  destruct (isConstant c) eqn:Hk.
  2:{ split.
      - intros Hall. rewrite (Hall c) in Hk by by left. done.
      - intros _. simpl. by rewrite Hk. }
  destruct (Hwf c) as [Hch [cv Hcv]]; [by left|done|].
  assert (is_Some (atZ fields (channel c))) as [old Hold] by by apply atZ_is_Some.
  destruct (IH numValues (setZ fields (channel c) (wrapInConstant (toI32 numValues) 0 (constantValue c))))
    as [IHok IHbad].
  { intros c' Hc' Hk'. unfold sizeOf. rewrite length_setZ. apply Hwf; [by right|done]. }
  simpl. rewrite Hk, Hcv. simpl. rewrite Hold. rewrite Hcv in IHok, IHbad. simpl in IHok, IHbad.
  split.
  - intros Hall Hnd. simpl in Hnd. apply NoDup_cons in Hnd as [Hnotin Hnd].
    destruct IHok as (fields' & Hrun & Hlen & Hset & Hother); [|done|].
    { intros c' Hc'. apply Hall. by right. }
    exists fields'. split_and!; [done|by rewrite Hlen, length_setZ|..].
    + intros c' Hc'. apply elem_of_cons in Hc' as [->|Hc']; [|by apply Hset].
      rewrite Hother.
      * rewrite Hcv. simpl. apply atZ_setZ_eq. by eexists.
      * intros c' Hc' Heq. apply Hnotin. rewrite <- Heq. apply list_elem_of_fmap. by exists c'.
    + intros i Hi. rewrite Hother.
      * apply atZ_setZ_ne. apply Hi. by left.
      * intros c' Hc'. apply Hi. by right.
  - intros (c' & Hc' & Hfalse).
    apply IHbad. apply elem_of_cons in Hc' as [->|Hc']; [congruence|]. by exists c'.
Qed.

(** C10.  On a reader without children, [next(numValues, result, mutation)]
    reads nothing and leaves the reader as it was.  The result is resized to
    [numValues] minus the deleted rows counted in the mutation bitmap over
    [0, numValues) ([numValues] without a bitmap), and every child spec is
    wrapped as a constant column of that size at its channel; a child spec
    that is not constant fails the check.  The result is a row container
    with a field for the channel of every constant child spec, whose
    constant is set; where every child spec is wrapped, no two of them share
    a channel. *)
Theorem next_without_children_wraps_constants
    s (numValues : Z) (mutation : option Mutation) u t nulls n flag fields :
  children_ s = [] →
  0 ≤ numValues < 2 ^ 31 →
  let deletedCount :=
    match mutation with
    | Some (mkMutation (Some deleted)) => countBits deleted 0 numValues
    | _ => 0
    end in
  let size := numValues - deletedCount in
  let specs := specChildren (scanSpec_ s) in
  let result := Some (RowVector u t nulls n flag fields) in
  (∀ c, c ∈ specs → isConstant c = true →
     0 ≤ channel c < sizeOf fields ∧ is_Some (constantValue c)) →
  ((∀ c, c ∈ specs → isConstant c = true) →
   NoDup (channel <$> specs) →
     ∃ fields',
       structNext debugBuild s numValues result mutation
         = Ok (s, Some (RowVector u t nulls size flag fields')) ∧
       length fields' = length fields ∧
       (∀ c, c ∈ specs →
          atZ fields' (channel c) = Some (wrapInConstant size 0 (constantValue c))) ∧
       (∀ i, (∀ c, c ∈ specs → channel c ≠ i) → atZ fields' i = atZ fields i)) ∧
  ((∃ c, c ∈ specs ∧ isConstant c = false) →
     structNext debugBuild s numValues result mutation = Abort CheckFailed).
Proof.
  intros Hnone Hrange deletedCount size specs result Hwf.
  assert (0 ≤ deletedCount ≤ numValues) as Hcount.
  { subst deletedCount. destruct mutation as [[[d|]]|]; try lia. apply countBits_range. lia. }
  assert (Hsize : (match mutation with
                   | Some (mkMutation (Some deleted)) =>
                       wrapU64 (numValues - countBits deleted 0 numValues)
                   | _ => numValues
                   end) = size).
  { subst size deletedCount. destruct mutation as [[[d|]]|]; try lia.
    unfold wrapU64. apply Z.mod_small. lia. }
  assert (toI32 size = size) as Hi32 by (apply toI32_small; lia).
  destruct (wrapConstants_spec specs size fields Hwf) as [Hok Hbad].
  rewrite Hi32 in Hok.
  unfold structNext. rewrite bool_decide_eq_true_2 by done. rewrite Hsize.
  subst result. simpl. rewrite Hi32. fold specs.
  split.
  - intros Hall Hnd. destruct (Hok Hall Hnd) as (fields' & Hrun & Hlen & Hset & Hother).
    exists fields'. split_and!; try done.
    destruct specs as [|c rest] eqn:Hspecs.
    + simpl in Hrun. by injection Hrun as <-.
    + simpl in Hrun. rewrite Hi32 in Hrun. by rewrite Hrun.
  - intros Hex. pose proof (Hbad Hex) as Hrun.
    destruct specs as [|c rest] eqn:Hspecs.
    + destruct Hex as (c & Hc & _). by apply elem_of_nil in Hc.
    + simpl in Hrun. rewrite Hi32 in Hrun. by rewrite Hrun.
Qed.

End NextTheorems.

(** * The properties on concrete readers *)

Lemma leaf_skipKeepsReadOffset : skipKeepsReadOffset (R := Leaf).
Proof. intros c c' n k [= <- _]. done. Qed.

Lemma leaf_setReadOffsetRecursiveReachesSubtree :
  setReadOffsetRecursiveReachesSubtree (R := Leaf).
Proof. intros c pos. split; [done|]. by repeat constructor. Qed.

Lemma leaf_readNarrowsRows : readNarrowsRows (R := Leaf).
Proof.
  intros c c' offset rows nulls Hread. simpl in Hread. unfold leafRead in Hread.
  destruct (back rows); [|done]. injection Hread as <-. simpl. apply list_filter_subseteq.
Qed.

(** The struct reader keeps the two promises about read offsets that it asks
    of its children, so they hold at every depth of nesting. *)
Lemma struct_skipKeepsReadOffset {R F : Type} `{ColumnReader R} `{FormatData F}
    (s s' : Reader R F) n k :
  structSkip s n = Ok (s', k) → readOffset_ s' = readOffset_ s.
Proof.
  unfold structSkip. destruct (skipNulls (formatData_ s) n) as [fmt nn].
  intros Hrun. apply bind_Ok in Hrun as ([cs es] & _ & [= <- _]). done.
Qed.

Lemma struct_setReadOffsetRecursiveReachesSubtree {R F : Type} `{ColumnReader R}
    `{FormatData F} (s : Reader R F) pos :
  setReadOffsetRecursiveReachesSubtree (R := R) →
  readOffset_ (structSetReadOffsetRecursive s pos) = pos ∧
  Forall (eq pos) (structSubtreeReadOffsets (structSetReadOffsetRecursive s pos)).
Proof.
  intros Hset. split; [done|]. unfold structSubtreeReadOffsets. simpl.
  constructor; [done|]. induction (children_ s) as [|[c|] cs IH]; simpl; [done| |done].
  apply Forall_app. split; [apply Hset|done].
Qed.

(** C3 on [exSkipReader]: five rows, four of them not null. *)
Lemma skip_realigns_children_witness :
  ∃ s' es,
    structSkip exSkipReader 5 = Ok (s', 5) ∧
    calls s' = calls exSkipReader ++ es ∧
    CallSkip 0 4 ∈ es ∧
    ∃ c', children_ s' !! 2%nat = Some (Some c') ∧ readOffset c' = 105.
Proof.
  destruct (skip_returns_numValues_and_realigns_children exSkipReader 5
              leaf_skipKeepsReadOffset leaf_setReadOffsetRecursiveReachesSubtree)
    as (s' & es & Hrun & _ & Hcalls & _ & _ & Hchildren & _).
  { intros i c Hi. split; [by eexists|].
    destruct i as [|[|[|i]]]; simpl in Hi; try done; injection Hi as <-; simpl; lia. }
  exists s', es. split_and!; [done|done|..].
  - apply (Hchildren 0%nat (mkLeaf 100 [] true 0 0 0) eq_refl).
  - destruct (Hchildren 2%nat (mkLeaf 100 [] true 0 7 0) eq_refl)
      as (_ & c1 & k & c' & _ & Hc' & _ & Hro & _).
    exists c'. split; [done|]. exact Hro.
Defined.

(** C1 as stated fails: after a read of ten rows the struct reader stands at
    row 10 and its child, whose read is deferred to the lazy vector, still
    stands at row 0. *)
Lemma read_leaves_deferred_child_behind :
  ¬ (∀ s', structRead false exLazyReader 0 (seqZ 0 10) None = Ok s' →
       readOffset_ s' = 10 ∧
       ∀ i c, children_ s' !! i = Some (Some c) →
         Forall (eq 10) (subtreeReadOffsets c)).
Proof.
  intros Hclaim.
  destruct (structRead false exLazyReader 0 (seqZ 0 10) None) as [s'|f] eqn:Hrun;
    [|by vm_compute in Hrun].
  destruct (Hclaim s' eq_refl) as [_ Hchildren].
  vm_compute in Hrun. injection Hrun as <-.
  specialize (Hchildren 0%nat exLeaf eq_refl). simpl in Hchildren.
  inversion Hchildren as [|? ? Heq _]. discriminate Heq.
Qed.

(** The return of line 126 leaves [readOffset_] where it was: here at row 0
    after a read of ten rows. *)
Lemma read_keeps_readOffset_at_empty_struct_filter :
  returnsAtEmptyStructFilter false exFilteredReader 0 (seqZ 0 10) None ∧
  ∃ s', structRead false exFilteredReader 0 (seqZ 0 10) None = Ok s' ∧ readOffset_ s' = 0.
Proof.
  split.
  - do 4 eexists. split_and!; vm_compute; reflexivity.
  - eexists. split; [vm_compute; reflexivity|reflexivity].
Qed.

(** C1, amended, on [exShortCircuitReader]: the child loop stops at the first
    child and the read offset is 10. *)
Lemma read_advances_readOffset_witness :
  ∃ s' b,
    structRead false exShortCircuitReader 0 (seqZ 0 10) None = Ok s' ∧
    back (seqZ 0 10) = Some b ∧ readOffset_ s' = 0 + b + 1.
Proof.
  destruct (structRead false exShortCircuitReader 0 (seqZ 0 10) None) as [s'|f] eqn:Hrun;
    [|by vm_compute in Hrun].
  destruct (read_advances_readOffset false exShortCircuitReader 0 (seqZ 0 10) None s' Hrun)
    as (b & Hb & Hro).
  { intros (s1 & s2 & a & s3 & H1 & H2 & H3).
    vm_compute in H1. injection H1 as <-.
    vm_compute in H2. injection H2 as <- <-.
    vm_compute in H3. discriminate H3. }
  by exists s', b.
Defined.

(** C2 as stated fails: under a mutation that deletes every row the format
    does not inject parent nulls, and the read issues no [addParentNulls]
    either; so it is without a null bitmap of the struct and, in a release
    build, with one. *)
Lemma read_under_full_deletion_records_no_parent_nulls :
  ¬ (∀ s', structRead false exDeletedReader 0 (seqZ 0 5) None = Ok s' →
       parentNullsInLeaves (formatData_ s') = false →
       List.filter isCallAddParentNulls (calls s') =
       parentNullCalls 0 (specChildren (scanSpec_ exDeletedReader)) exDeletedReader 0
         (nullsInReadRange_ s') (seqZ 0 5)) ∧
  ¬ (∀ s', structRead false exDeletedNullsReader 0 (seqZ 0 5) None = Ok s' →
       parentNullsInLeaves (formatData_ s') = false →
       is_Some (nullsInReadRange_ s') →
       List.filter isCallAddParentNulls (calls s') =
       parentNullCalls 0 (specChildren (scanSpec_ exDeletedNullsReader)) exDeletedNullsReader 0
         (nullsInReadRange_ s') (seqZ 0 5)).
Proof.
  split.
  - intros Hclaim.
    destruct (structRead false exDeletedReader 0 (seqZ 0 5) None) as [s'|f] eqn:Hrun;
      [|by vm_compute in Hrun].
    pose proof (Hclaim s' eq_refl) as Hcalls.
    vm_compute in Hrun. injection Hrun as <-.
    specialize (Hcalls eq_refl). vm_compute in Hcalls. discriminate Hcalls.
  - intros Hclaim.
    destruct (structRead false exDeletedNullsReader 0 (seqZ 0 5) None) as [s'|f] eqn:Hrun;
      [|by vm_compute in Hrun].
    pose proof (Hclaim s' eq_refl) as Hcalls.
    vm_compute in Hrun. injection Hrun as <-.
    specialize (Hcalls eq_refl (mk_is_Some _ _ eq_refl)).
    vm_compute in Hcalls. discriminate Hcalls.
Qed.

(** C2, amended, on [exShortCircuitReader]: both children get the struct's
    nulls for the ten rows, the one the loop never read included. *)
Lemma read_propagates_parent_nulls_witness :
  ∃ s' es,
    structRead false exShortCircuitReader 0 (seqZ 0 10) None = Ok s' ∧
    calls s' = calls exShortCircuitReader ++ es ∧
    List.filter isCallAddParentNulls es =
    [CallAddParentNulls 0 0 0 None (seqZ 0 10); CallAddParentNulls 1 1 0 None (seqZ 0 10)].
Proof.
  destruct (structRead false exShortCircuitReader 0 (seqZ 0 10) None) as [s'|f] eqn:Hrun;
    [|by vm_compute in Hrun].
  destruct (read_propagates_parent_nulls false exShortCircuitReader 0 (seqZ 0 10) None s' Hrun)
    as (es & Hcalls & _ & Hrecord).
  exists s', es. split_and!; [done|done|].
  vm_compute in Hrun. injection Hrun as <-.
  destruct Hrecord as (-> & _ & _); [reflexivity| |vm_compute; reflexivity].
  intros (s1 & s2 & H1 & H2).
  vm_compute in H1. injection H1 as <-. vm_compute in H2. discriminate H2.
Defined.

(** C6 on [exShortCircuitReader]: the first child's filter leaves no row and
    the second child spec is untouched. *)
Lemma read_stops_at_empty_child_witness :
  ∃ s' es,
    structRead false exShortCircuitReader 0 (seqZ 0 10) None = Ok s' ∧
    calls s' = calls exShortCircuitReader ++ es ∧
    CallOutputRows 0 0 [] ∈ es ∧
    (∀ e, e ∈ es → eventSpec e = Some 1%nat → isCallAddParentNulls e = true) ∧
    specChildren (scanSpec_ s') !! 1%nat = specChildren (scanSpec_ exShortCircuitReader) !! 1%nat.
Proof.
  destruct (structRead false exShortCircuitReader 0 (seqZ 0 10) None) as [s'|f] eqn:Hrun;
    [|by vm_compute in Hrun].
  destruct (read_stops_at_empty_child false exShortCircuitReader 0 (seqZ 0 10) None s' Hrun)
    as (es & Hcalls & Hstop).
  assert (CallOutputRows 0 0 [] ∈ es) as Hin.
  { vm_compute in Hrun. injection Hrun as <-. simpl in Hcalls. rewrite <- Hcalls.
    apply list_elem_of_lookup. by exists 2%nat. }
  destruct (Hstop 0%nat 0 Hin 1%nat) as [Hevents Hspec]; [lia|].
  by exists s', es.
Defined.

(** C5 on [exDeletedReader], in a debug build. *)
Lemma read_all_rows_deleted_witness :
  ∃ s' b,
    structRead true exDeletedReader 0 (seqZ 0 5) None = Ok s' ∧
    back (seqZ 0 5) = Some b ∧
    readOffset_ s' = 0 + b + 1 ∧
    children_ s' = children_ exDeletedReader ∧
    calls s' = calls exDeletedReader ∧
    specChildren (scanSpec_ s') = specChildren (scanSpec_ exDeletedReader) ∧
    outputRows_ s' = [].
Proof.
  apply (read_all_rows_deleted_touches_no_child true exDeletedReader 0 (seqZ 0 5) None 31).
  - reflexivity.
  - reflexivity.
  - discriminate.
  - reflexivity.
  - split; [lia|reflexivity].
  - intros r Hr. apply elem_of_seqZ in Hr.
    assert (r = 0 ∨ r = 1 ∨ r = 2 ∨ r = 3 ∨ r = 4) as Hcases by lia.
    destruct Hcases as [->|[->|[->|[->| ->]]]]; reflexivity.
  - intros _. reflexivity.
Defined.

(** X25 on [exMutatedReader]: of five rows the mutation leaves 0, 2 and 4
    and the child's filter 0 and 2. *)
Lemma read_active_rows_narrow_witness :
  ∃ s',
    structRead true exMutatedReader 0 (seqZ 0 5) None = Ok s' ∧
    structOutputRows s' = [0; 2] ∧
    structOutputRows s' ⊆ seqZ 0 5.
Proof.
  destruct (structRead true exMutatedReader 0 (seqZ 0 5) None) as [s'|f] eqn:Hrun;
    [|by vm_compute in Hrun].
  exists s'. split_and!; [done| |].
  - vm_compute in Hrun. by injection Hrun as <-.
  - apply (proj2 (proj2 (read_active_rows_narrow true exMutatedReader 0 (seqZ 0 5) None
                           leaf_readNarrowsRows (λ _, eq_refl)))).
    exact Hrun.
Defined.


(** C8 on [exNullsReader]: rows 0, 2 and 4 of a window whose row 2 is
    null. *)
Lemma getValues_size_and_nulls_witness :
  ∃ s' u t nulls flag fields,
    structGetValues exNullsReader [0; 2; 4] (Some exHeldRow)
      = Ok (s', Some (RowVector u t nulls 3 flag fields)) ∧
    isNullAt (RowVector u t nulls 3 flag fields) 1 = true ∧
    isNullAt (RowVector u t nulls 3 flag fields) 2 = false.
Proof.
  destruct (structGetValues exNullsReader [0; 2; 4] (Some exHeldRow)) as [[s' out]|f] eqn:Hrun;
    [|by vm_compute in Hrun].
  destruct (getValues_size_and_nulls exNullsReader [0; 2; 4] (Some exHeldRow) s' out Hrun)
    as (u & t & nulls & flag & fields & -> & Hnulls).
  exists s', u, t, nulls, flag, fields. split_and!; [done|..].
  - exact (proj2 (Hnulls 1%nat 2 eq_refl)).
  - exact (proj2 (Hnulls 2%nat 4 eq_refl)).
Defined.

(** C9: what [setNullField] does with a field that is set: an all-null
    constant of the requested size, the field itself resized when it is a
    null constant with rows and a single owner, a new one otherwise. *)
Lemma setNullField_of_set_field (size : Z) (field : Vector) :
  let reuse :=
    isConstantEncoding field && unique (Some field) && bool_decide (0 < vsize field)
      && isNullAt field 0 in
  ∃ v,
    setNullField size (Some field) = Ok (Some v) ∧
    isConstantEncoding v = true ∧ vsize v = size ∧ valueAt v 0 = None ∧
    v = if reuse then resize size field else createNullConstant (typeOf field) size.
Proof.
  intros reuse. unfold setNullField. fold reuse. destruct reuse eqn:Hreuse.
  - eexists. split; [done|].
    destruct field as [| | |u t n x|]; try done. simpl in *.
    apply andb_true_iff in Hreuse as [_ Hnull]. by destruct x.
  - eexists. by split.
Qed.

(** C9: the field of a column missing from the file is unset in the row
    container a parent's fresh result holds for a nested struct, and in the
    fresh container [getValues] allocates when the previous result has
    another holder.  [setNullField] then reads the type through the null
    pointer: there is no null constant, the call does not return. *)
Lemma getValues_missing_field_unset_aborts :
  structGetValues exNestedReader [0; 1; 2] (Some exEmptyRow) = Abort Undefined ∧
  structGetValues exNestedReader [0; 1; 2] (Some exHeldRow) = Abort Undefined ∧
  setNullField 3 None = Abort Undefined.
Proof. split_and!; vm_compute; reflexivity. Qed.

(** C10 on [exConstantReader]: five rows of which rows 0 and 1 are
    deleted; and on [exNotAllConstantReader], whose second child spec is not
    constant. *)
Lemma next_without_children_witness :
  (∃ fields',
     structNext false exConstantReader 5 (Some exHeldRow) (Some (mkMutation (Some 3)))
       = Ok (exConstantReader, Some (RowVector 2 (ROW [BIGINT; BIGINT]) None 3 false fields')) ∧
     atZ fields' 1 = Some (Some (ConstantVector 1 BIGINT 3 (Some 7))) ∧
     atZ fields' 0 = Some (Some (ConstantVector 1 BIGINT 3 (Some 9)))) ∧
  structNext false exNotAllConstantReader 5 (Some exHeldRow) None = Abort CheckFailed.
Proof.
  split.
  - destruct (next_without_children_wraps_constants false exConstantReader 5
                (Some (mkMutation (Some 3))) 2 (ROW [BIGINT; BIGINT]) None 0 false
                [Some (FlatVector 1 BIGINT []); Some (FlatVector 1 BIGINT [])])
      as [Hok _].
    + reflexivity.
    + lia.
    + intros c Hc _. simpl in Hc.
      apply elem_of_cons in Hc as [->|Hc];
        [split; [unfold sizeOf; simpl; lia|by eexists]|].
      apply elem_of_cons in Hc as [->|Hc];
        [split; [unfold sizeOf; simpl; lia|by eexists]|].
      by apply elem_of_nil in Hc.
    + destruct Hok as (fields' & Hrun & _ & Hset & _).
      { intros c Hc. simpl in Hc.
        apply elem_of_cons in Hc as [->|Hc]; [done|].
        apply elem_of_cons in Hc as [->|Hc]; [done|].
        by apply elem_of_nil in Hc. }
      { simpl. apply NoDup_cons. split; [|apply NoDup_singleton].
        intros Hin. apply list_elem_of_singleton in Hin. discriminate Hin. }
      exists fields'. split_and!.
      * exact Hrun.
      * apply (Hset (exConstantSpec 1 7)). simpl. apply elem_of_cons. by left.
      * apply (Hset (exConstantSpec 0 9)). simpl. apply elem_of_cons. right.
        apply elem_of_cons. by left.
  - destruct (next_without_children_wraps_constants false exNotAllConstantReader 5
                None 2 (ROW [BIGINT; BIGINT]) None 0 false
                [Some (FlatVector 1 BIGINT []); Some (FlatVector 1 BIGINT [])])
      as [_ Hbad].
    + reflexivity.
    + lia.
    + intros c Hc Hk. simpl in Hc.
      apply elem_of_cons in Hc as [->|Hc];
        [split; [unfold sizeOf; simpl; lia|by eexists]|].
      apply elem_of_cons in Hc as [->|Hc]; [discriminate Hk|].
      by apply elem_of_nil in Hc.
    + apply Hbad. exists (exSpec 0 0 true false). split; [|reflexivity].
      simpl. apply elem_of_cons. right. apply elem_of_cons. by left.
Defined.

(** * Scenarios of the specification *)

(** A previous result with every field set, held by the caller alone. *)
Definition exOwnedRow : Vector :=
  RowVector 1 (ROW [BIGINT; BIGINT]) None 0 false
    [Some (FlatVector 1 BIGINT []); Some (FlatVector 1 BIGINT [])].

(** "mutation marks rows {1,3} deleted out of 5 dense input rows; after
    read, the struct's output row set excludes {1,3}; getValues on that
    output set yields exactly 3 rows."  The one child is projected without a
    filter: it comes back as a lazy vector of three rows and no call reaches
    it but the closing [addParentNulls]. *)
Example scenario_deleted_rows :
  ∃ s',
    structNext true (exReader (mkFmt None false) [exSpec 0 0 true false] None [Some exLeaf])
      5 (Some exHeldRow) (Some (mkMutation (Some 10)))
    = Ok (s', Some (RowVector 1 (ROW [BIGINT; BIGINT]) None 3 false
                      [Some (LazyVector 1 BIGINT 3 (mkLoader 0 0) None); None])) ∧
    structOutputRows s' = [0; 2; 4] ∧
    readOffset_ s' = 5 ∧
    calls s' = [CallAddParentNulls 0 0 0 None [0; 1; 2; 3; 4]].
Proof. eexists. split_and!; vm_compute; reflexivity. Qed.

(** "column d is absent from the file but present in query schema as
    nullable; getValues produces an all-null constant column of the requested
    size without invoking any child reader": so it is when the field of the
    previous result is set. *)
Example scenario_missing_column :
  ∃ s' lazy,
    structGetValues exNestedReader [0; 1; 2] (Some exOwnedRow)
    = Ok (s', Some (RowVector 1 (ROW [BIGINT; BIGINT]) None 3 false
                      [Some lazy; Some (ConstantVector 1 BIGINT 3 None)])) ∧
    calls s' = [].
Proof. do 2 eexists. split; vm_compute; reflexivity. Qed.

(** * The struct reader beyond the specification *)

Section ReadLoopTheorems.
Context {R F : Type} `{ColumnReader R} `{FormatData F}.
Context (debugBuild : bool).
Implicit Types s : Reader R F.

Ltac in_log H :=
  simpl in H;
  repeat (apply elem_of_cons in H as [H|H];
          [try discriminate H; try (injection H as ?; subst)|]);
  try (by apply elem_of_nil in H).

Ltac empty_log :=
  intros; match goal with H : _ ∈ [] |- _ => by apply elem_of_nil in H end.

(** The state a read enters the child loop with, written out over the state
    it started from. *)
Lemma structRead_to_loop s offset rows nulls s1 s2 a1 s3 a2 :
  prepareRead (beginRead s) offset rows nulls = Ok s1 →
  applyMutation debugBuild s1 offset rows = Ok (Continue s2 a1) →
  applyStructFilter s2 offset rows a1 = Ok (Continue s3 a2) →
  ∃ out fmt nulls1,
    s3 = withOutputRows out
           (withInputRows rows
              (withNulls nulls1
                 (withFormatData fmt
                    (withNumReads (specNumReads (scanSpec_ s))
                       (withScanSpec (newRead (scanSpec_ s)).1 s))))) ∧
    nullsInReadRange_ s2 = nulls1.
Proof.
  intros Hprep Hmut Hfil.
  destruct (prepareRead_spec _ _ _ _ _ Hprep) as (b & fmt & nulls1 & _ & ->).
  unfold beginRead, newRead in *. simpl in *.
  apply applyMutation_spec in Hmut as [[_ Hf]|(_ & ? & d & _ & _ & _ & [[_ ?]|[_ Hf]])];
    try done; injection Hf as -> ->.
  - apply applyStructFilter_spec in Hfil as [[_ Hf]|(kind & l & _ & _ & Hf)].
    + injection Hf as -> ->. by eexists _, _, _.
    + simpl in Hf. destruct Hf as [(_ & ? & _ & ?)|[_ Hf]]; [done|].
      injection Hf as -> ->. by eexists _, _, _.
  - apply applyStructFilter_spec in Hfil as [[_ Hf]|(kind & l & _ & _ & Hf)].
    + injection Hf as -> ->. by eexists _, _, _.
    + simpl in Hf. destruct Hf as [(_ & ? & _ & ?)|[_ Hf]]; [done|].
      injection Hf as -> ->. by eexists _, _, _.
Qed.


(** The calls of one turn of the child loop: none, or the alignment and the
    read of the child, followed for a filtered child by its answer and the
    selectivity charge. *)
Lemma readChild_turn i c s offset a nulls s' a' stop :
  readChild i c s offset a nulls = Ok (s', a', stop) →
  ∃ es, calls s' = calls s ++ es ∧
    (es = [] ∨
     (isChildConstant s c = false ∧
      ∃ rest,
        es = CallAdvanceFieldReader i (subscript c) offset
               :: CallRead i (subscript c) offset a nulls :: rest ∧
        (rest = [] ∨
         ∃ r n m, rest = [CallOutputRows i (subscript c) r; ChargeSelectivity i n m]))).
Proof.
  unfold readChild. intros Hrun.
  destruct (isChildConstant s c) eqn:Hconst.
  { injection Hrun as <- _ _. exists []. rewrite app_nil_r. split; [done|by left]. }
  apply bind_Ok in Hrun as (reader & Hreader & Hrun).
  destruct (isTopLevel reader && projectOut c && negb (hasFilter c) && negb (extractValues c)).
  { injection Hrun as <- _ _. exists []. rewrite app_nil_r. split; [done|by left]. }
  apply bind_Ok in Hrun as (reader1 & Hadv & Hrun).
  destruct (hasFilter c).
  - apply bind_Ok in Hrun as (reader2 & Hread & Hrun). injection Hrun as <- _ _.
    match goal with |- context [chargeOutput i ?n ?s0] =>
      destruct (chargeOutput_spec i n s0) as (_ & _ & Hl & _) end.
    match goal with |- context [chargeInput i ?n ?s0] =>
      destruct (chargeInput_spec i n s0) as (_ & _ & Hl' & _) end.
    eexists. split.
    { simpl. rewrite Hl. simpl. rewrite Hl'. simpl. rewrite <- app_assoc. done. }
    right. split; [done|]. eexists. split; [done|]. right. by eexists _, _, _.
  - apply bind_Ok in Hrun as (reader2 & Hread & Hrun). injection Hrun as <- _ _.
    eexists. split; [simpl; by rewrite <- app_assoc|].
    right. split; [done|]. eexists. split; [done|]. by left.
Qed.

Lemma readsFollowAdvance_nil : readsFollowAdvance [].
Proof. split; intros; by rewrite lookup_nil in *. Qed.

Lemma readsFollowAdvance_app es1 es2 :
  readsFollowAdvance es1 → readsFollowAdvance es2 → readsFollowAdvance (es1 ++ es2).
Proof.
  intros [Hr1 Ha1] [Hr2 Ha2]. split.
  - intros n i f off r x Hn. apply lookup_app_Some in Hn as [Hn|[Hle Hn]].
    + destruct (Hr1 _ _ _ _ _ _ Hn) as (m & -> & Hm). exists m. split; [done|].
      by apply lookup_app_l_Some.
    + destruct (Hr2 _ _ _ _ _ _ Hn) as (m & Heq & Hm).
      exists (length es1 + m)%nat. split; [lia|].
      rewrite lookup_app_r by lia. by replace (length es1 + m - length es1)%nat with m by lia.
  - intros m i f off Hm. apply lookup_app_Some in Hm as [Hm|[Hle Hm]].
    + destruct (Ha1 _ _ _ _ Hm) as (r & x & Hn). exists r, x. by apply lookup_app_l_Some.
    + destruct (Ha2 _ _ _ _ Hm) as (r & x & Hn). exists r, x.
      rewrite lookup_app_r by lia. by replace (S m - length es1)%nat with (S (m - length es1)) by lia.
Qed.

Lemma readsFollowAdvance_inert es :
  Forall (λ e, isCallAddParentNulls e = true) es → readsFollowAdvance es.
Proof.
  intros Hall. split.
  - intros n i f off r x Hn. apply list_elem_of_lookup_2 in Hn.
    by pose proof (proj1 (Forall_forall _ _) Hall _ Hn).
  - intros n i f off Hn. apply list_elem_of_lookup_2 in Hn.
    by pose proof (proj1 (Forall_forall _ _) Hall _ Hn).
Qed.

Lemma readChildren_turns specs :
  ∀ i s offset a nulls s' a',
    readChildren i specs s offset a nulls = Ok (s', a') →
    ∃ es, calls s' = calls s ++ es ∧ readsFollowAdvance es ∧
      ∀ e j, e ∈ es → eventSpec e = Some j →
        ∃ c, (i ≤ j)%nat ∧ specs !! (j - i)%nat = Some c ∧ isChildConstant s c = false.
Proof.
  induction specs as [|c rest IH]; intros i s offset a nulls s' a' Hrun; simpl in Hrun.
  { injection Hrun as <- _. exists []. rewrite app_nil_r.
    split_and!; [done|apply readsFollowAdvance_nil|empty_log]. }
  apply bind_Ok in Hrun as ([[s1 a1] stop] & Hstep & Hrun).
  pose proof (readChild_spec _ _ _ _ _ _ _ _ _ Hstep) as (Hf1 & _).
  destruct (readChild_turn _ _ _ _ _ _ _ _ _ Hstep) as (es1 & Hc1 & Hshape).
  assert (readsFollowAdvance es1 ∧
          ∀ e j, e ∈ es1 → eventSpec e = Some j → j = i ∧ isChildConstant s c = false)
    as [Hfollow1 Hspec1].
  { destruct Hshape as [->|(Hconst & tail & -> & Htail)].
    - split; [apply readsFollowAdvance_nil|empty_log].
    - split.
      + split.
        * intros [|[|n]] i' f off r x Hn; simpl in Hn; try done.
          { injection Hn as <- <- <- <- <-. by exists 0%nat. }
          destruct Htail as [->|(r' & n' & m' & ->)]; [done|].
          by destruct n as [|[|n]].
        * intros [|[|n]] i' f off Hn; simpl in Hn; try done.
          { injection Hn as <- <- <-. by eexists _, _. }
          destruct Htail as [->|(r' & n' & m' & ->)]; [done|].
          by destruct n as [|[|n]].
      + intros e j He Hj.
        destruct Htail as [->|(r' & n' & m' & ->)];
          repeat (apply elem_of_cons in He as [->|He];
                  [simpl in Hj; by injection Hj as <-|]);
          by apply elem_of_nil in He. }
  assert (∀ e j, e ∈ es1 → eventSpec e = Some j →
            ∃ c0, (i ≤ j)%nat ∧ (c :: rest) !! (j - i)%nat = Some c0 ∧
                  isChildConstant s c0 = false) as Hspec1'.
  { intros e j He Hj. destruct (Hspec1 _ _ He Hj) as [-> Hconst].
    exists c. rewrite Nat.sub_diag. done. }
  destruct stop.
  - injection Hrun as <- _. by exists es1.
  - destruct (IH _ _ _ _ _ _ _ Hrun) as (es2 & Hc2 & Hfollow2 & Hspec2).
    exists (es1 ++ es2). split_and!.
    + by rewrite Hc2, Hc1, app_assoc.
    + by apply readsFollowAdvance_app.
    + intros e j He Hj. apply elem_of_app in He as [He|He]; [by eapply Hspec1'|].
      destruct (Hspec2 _ _ He Hj) as (c0 & Hle & Hc0 & Hconst).
      exists c0. split_and!; [lia| |].
      * by replace (j - i)%nat with (S (j - S i)) by lia.
      * by rewrite <- (isChildConstant_frame _ _ _ Hf1).
Qed.

Lemma app_partition_eq {A} (p : A → bool) (l1 r1 l2 r2 : list A) :
  Forall (λ x, p x = false) l1 → Forall (λ x, p x = true) r1 →
  Forall (λ x, p x = false) l2 → Forall (λ x, p x = true) r2 →
  l1 ++ r1 = l2 ++ r2 → l1 = l2 ∧ r1 = r2.
Proof.
  revert l2. induction l1 as [|x l1 IH]; intros [|y l2] Hl1 Hr1 Hl2 Hr2 Heq; simpl in *.
  - done.
  - subst r1. apply Forall_cons in Hr1 as [Hy _]. apply Forall_cons in Hl2 as [Hy' _].
    congruence.
  - subst r2. apply Forall_cons in Hr2 as [Hx _]. apply Forall_cons in Hl1 as [Hx' _].
    congruence.
  - injection Heq as -> Heq. apply Forall_cons in Hl1 as [_ Hl1].
    apply Forall_cons in Hl2 as [_ Hl2].
    destruct (IH l2 Hl1 Hr1 Hl2 Hr2 Heq) as [-> ->]. done.
Qed.

Lemma recorded_all (pnil : bool) specs s offset nulls rows :
  Forall (λ e, isCallAddParentNulls e = true)
    (if pnil then [] else parentNullCalls 0 specs s offset nulls rows).
Proof. destruct pnil; [constructor|apply parentNullCalls_all]. Qed.

(** The calls of a read that returns: those of the child loop, then the
    parent nulls recorded in the children. *)
Lemma structRead_log s offset rows nulls s' :
  structRead debugBuild s offset rows nulls = Ok s' →
  ∃ loop recorded,
    calls s' = calls s ++ loop ++ recorded ∧
    readsFollowAdvance loop ∧
    (∀ e j, e ∈ loop → eventSpec e = Some j →
       ∃ c, specChildren (scanSpec_ s) !! j = Some c ∧ isChildConstant s c = false) ∧
    (recorded = [] ∨
     recorded = parentNullCalls 0 (specChildren (scanSpec_ s)) s offset
                  (nullsInReadRange_ s') rows).
Proof.
  intros Hrun.
  destruct (structRead_calls _ _ _ _ _ _ Hrun)
    as (loop0 & Hev0 & _ & _ & [(_ & _ & Hcalls0)|(Hnot & Hcalls0)]).
  { exists [], []. rewrite !app_nil_r.
    split_and!; [done|apply readsFollowAdvance_nil|empty_log|by left]. }
  assert (Forall (λ e, isCallAddParentNulls e = false) loop0) as Hloop0.
  { eapply Forall_impl; [exact Hev0|]. by intros e [? _]. }
  match type of Hcalls0 with _ = _ ++ _ ++ ?r => set (recorded := r) in * end.
  assert (Forall (λ e, isCallAddParentNulls e = true) recorded) as Hall
    by apply recorded_all.
  assert (recorded = [] ∨
          recorded = parentNullCalls 0 (specChildren (scanSpec_ s)) s offset
                       (nullsInReadRange_ s') rows) as Hrec.
  { subst recorded. destruct (parentNullsInLeaves (formatData_ s')); [by left|by right]. }
  clearbody recorded.
  destruct (structRead_cases _ _ _ _ _ _ Hrun) as (b & s1 & Hb & Hprep & Hcases).
  destruct Hcases as [Hmut|(s2 & a1 & Hmut & [Hfil|Hrest])].
  - destruct Hnot. by exists s1, s'.
  - exists [], recorded.
    assert (∃ X, calls s' = calls s ++ X ∧ Forall (λ e, isCallAddParentNulls e = true) X)
      as (X & Hcalls & HX).
    { apply applyStructFilter_spec in Hfil as [[_ ?]|(kind & l & _ & _ & Hfil)]; [done|].
      simpl in Hfil. destruct Hfil as [(_ & s2' & Hrec' & Hf)|[_ ?]]; [|done].
      injection Hf as <-.
      apply recordParentNullsInChildren_spec in Hrec' as (_ & _ & Hcalls).
      eexists. split; [|apply recorded_all]. rewrite Hcalls. f_equal.
      destruct (prepareRead_spec _ _ _ _ _ Hprep) as (? & ? & ? & _ & ->).
      unfold beginRead, newRead in *. simpl in *.
      apply applyMutation_spec in Hmut as [[_ Hm]|(_ & ? & d & _ & _ & _ & [[_ ?]|[_ Hm]])];
        try done; by injection Hm as -> _. }
    rewrite Hcalls in Hcalls0. apply app_inv_head in Hcalls0.
    destruct (app_partition_eq isCallAddParentNulls [] X loop0 recorded) as [_ ->];
      [constructor|done..|].
    split_and!; [done|apply readsFollowAdvance_nil|empty_log|done].
  - destruct Hrest as (s3 & a2 & s4 & a3 & s5 & Hfil & _ & Hloop & Hrec5 & Hs').
    destruct (structRead_to_loop _ _ _ _ _ _ _ _ _ Hprep Hmut Hfil)
      as (out & fmt & nulls1 & Hs3 & _).
    destruct (readChildren_turns _ _ _ _ _ _ _ _ Hloop) as (loop & Hc4 & Hfollow & Hspecs).
    assert (Forall (λ e, isCallAddParentNulls e = false) loop) as Hloop'.
    { destruct (readChildren_spec _ _ _ _ _ _ _ _ Hloop) as (_ & _ & _ & es & Hes & Hev & _).
      rewrite Hes in Hc4. apply app_inv_head in Hc4 as <-.
      eapply Forall_impl; [exact Hev|]. by intros e [? _]. }
    apply recordParentNullsInChildren_spec in Hrec5 as (_ & _ & Hc5).
    assert (calls s' = calls s5) as Hcalls'.
    { subst s'. by destruct (specHasFilter (scanSpec_ s5)). }
    assert (calls s3 = calls s) as Hcalls3 by (by subst s3).
    rewrite Hcalls', Hc5, Hc4, Hcalls3, <- app_assoc in Hcalls0.
    apply app_inv_head in Hcalls0.
    match type of Hcalls0 with _ ++ ?X = _ =>
      destruct (app_partition_eq isCallAddParentNulls loop X loop0 recorded) as [_ HX];
        [done|apply recorded_all|done..|] end.
    exists loop, recorded. split_and!; [|done| |done].
    + by rewrite Hcalls', Hc5, Hc4, Hcalls3, <- app_assoc, HX.
    + intros e j He Hj. destruct (Hspecs _ _ He Hj) as (c & _ & Hc & Hconst).
      exists c. rewrite Nat.sub_0_r in Hc. split.
      * by subst s3.
      * rewrite <- Hconst. apply isChildConstant_config; by subst s3.
Qed.

(** X1.  A read that returns issues calls only for child specs that are not
    constant: every call it makes to a child (alignment, read, output rows,
    parent nulls) and every selectivity charge names a position of the scan
    spec whose child spec neither carries a constant nor stands for a field
    missing from the file. *)
Theorem read_leaves_constant_children_alone s offset rows incomingNulls s' :
  structRead debugBuild s offset rows incomingNulls = Ok s' →
  ∃ es,
    calls s' = calls s ++ es ∧
    ∀ e k, e ∈ es → eventSpec e = Some k →
      ∃ c, specChildren (scanSpec_ s) !! k = Some c ∧ isChildConstant s c = false.
Proof.
  intros Hrun.
  destruct (structRead_log _ _ _ _ _ Hrun) as (loop & recorded & Hcalls & _ & Hloop & Hrec).
  exists (loop ++ recorded). split; [done|].
  intros e k He Hk. apply elem_of_app in He as [He|He]; [by eapply Hloop|].
  destruct Hrec as [->| ->]; [by apply elem_of_nil in He|].
  apply parentNullCalls_elem in He as (k' & c & Hc & Hconst & ->).
  simpl in Hk. injection Hk as <-. by exists c.
Qed.

(** X2.  Within a read a child is aligned before it is read, and only then:
    every [read] of a child comes right after an [advanceFieldReader] of the
    same child at the same offset, every [advanceFieldReader] is followed at
    once by the [read] of that child, and both carry the offset of the struct's
    read. *)
Theorem read_aligns_child_before_reading s offset rows incomingNulls s' :
  structRead debugBuild s offset rows incomingNulls = Ok s' →
  ∃ es,
    calls s' = calls s ++ es ∧
    readsFollowAdvance es ∧
    ∀ i f off r x, CallRead i f off r x ∈ es → off = offset.
Proof.
  intros Hrun.
  destruct (structRead_log _ _ _ _ _ Hrun) as (loop & recorded & Hcalls & Hfollow & _ & Hrec).
  exists (loop ++ recorded). split_and!; [done| |].
  - apply readsFollowAdvance_app; [done|].
    destruct Hrec as [->| ->]; [apply readsFollowAdvance_nil|].
    apply readsFollowAdvance_inert, parentNullCalls_all.
  - intros i f off r x He.
    destruct (structRead_calls _ _ _ _ _ _ Hrun)
      as (loop0 & Hev & _ & _ & [(_ & -> & Hcalls0)|(_ & Hcalls0)]).
    + rewrite Hcalls0 in Hcalls. rewrite <- (app_nil_r (calls s)) in Hcalls at 1.
      apply app_inv_head in Hcalls. rewrite <- Hcalls in He. by apply elem_of_nil in He.
    + rewrite Hcalls0 in Hcalls. apply app_inv_head in Hcalls. rewrite <- Hcalls in He.
      apply elem_of_app in He as [He|He].
      * by destruct (proj1 (Forall_forall _ _) Hev _ He) as (_ & ? & _).
      * destruct (parentNullsInLeaves (formatData_ s')); [by apply elem_of_nil in He|].
        by pose proof (proj1 (Forall_forall _ _) (parentNullCalls_all _ _ _ _ _ _) _ He).
Qed.

End ReadLoopTheorems.

Section ReadCheckTheorems.
Context {R F : Type} `{ColumnReader R} `{FormatData F}.
Context (debugBuild : bool).
Implicit Types s : Reader R F.

Lemma back_is_Some (rows : RowSet) : rows ≠ [] → ∃ b, back rows = Some b.
Proof.
  intros Hne. unfold back. destruct (list.last rows) as [b|] eqn:Hb; [by exists b|].
  by apply last_None in Hb.
Qed.

(** X3.  The struct's own filter must be an is-null or is-not-null filter.
    With a filter of any other kind a read returns only where it leaves
    before the filter is looked at, on a mutation that deleted every row;
    without a mutation the read of a non-empty row set fails the check. *)
Theorem read_rejects_value_filter_on_struct s offset rows incomingNulls :
  specFilter (scanSpec_ s) = Some kOtherFilter →
  (∀ s', structRead debugBuild s offset rows incomingNulls = Ok s' →
     returnsAtDeletedRows debugBuild s offset rows incomingNulls) ∧
  (hasMutation_ s = false → rows ≠ [] →
     structRead debugBuild s offset rows incomingNulls = Abort CheckFailed).
Proof.
  intros Hkind. split.
  - intros s' Hrun.
    destruct (structRead_cases _ _ _ _ _ _ Hrun) as (b & s1 & Hb & Hprep & Hcases).
    destruct Hcases as [Hmut|(s2 & a1 & Hmut & Hcases)]; [by exists s1, s'|].
    assert (specFilter (scanSpec_ s2) = Some kOtherFilter) as Hkind2.
    { destruct (prepareRead_spec _ _ _ _ _ Hprep) as (? & ? & ? & _ & ->).
      unfold beginRead, newRead in *. simpl in *.
      apply applyMutation_spec in Hmut as [[_ Hf]|(_ & ? & d & _ & _ & _ & [[_ ?]|[_ Hf]])];
        try done; by injection Hf as -> _. }
    assert (∀ a flow, applyStructFilter s2 offset rows a ≠ Ok flow) as Hfails.
    { intros a flow. unfold applyStructFilter. by rewrite Hkind2. }
    destruct Hcases as [Hfil|(s3 & a2 & ? & ? & ? & Hfil & _)]; by apply Hfails in Hfil.
  - intros Hmut Hne. destruct (back_is_Some rows Hne) as [b Hb].
    unfold structRead, prepareRead, beginRead, newRead. rewrite Hb. simpl.
    destruct (readNulls (formatData_ s) (b + 1) incomingNulls) as [fmt nulls1]. simpl.
    unfold applyMutation. simpl. rewrite Hmut. simpl.
    unfold applyStructFilter. simpl. by rewrite Hkind.
Qed.

(** X4.  A read needs children.  On a reader without children it returns
    only at one of its two early returns (every row deleted, or no row left
    by the struct's own filter); without a mutation and without a filter on
    the struct, the read of a non-empty row set fails the check. *)
Theorem read_requires_children s offset rows incomingNulls :
  children_ s = [] →
  (∀ s', structRead debugBuild s offset rows incomingNulls = Ok s' →
     returnsAtDeletedRows debugBuild s offset rows incomingNulls ∨
     returnsAtEmptyStructFilter debugBuild s offset rows incomingNulls) ∧
  (hasMutation_ s = false → specFilter (scanSpec_ s) = None → rows ≠ [] →
     structRead debugBuild s offset rows incomingNulls = Abort CheckFailed).
Proof.
  intros Hnone. split.
  - intros s' Hrun.
    destruct (structRead_cases _ _ _ _ _ _ Hrun) as (b & s1 & Hb & Hprep & Hcases).
    destruct Hcases as [Hmut|(s2 & a1 & Hmut & Hcases)]; [left; by exists s1, s'|].
    destruct Hcases as [Hfil|(s3 & a2 & s4 & a3 & s5 & Hfil & Hsome & _)].
    { right. by exists s1, s2, a1, s'. }
    destruct (structRead_to_loop _ _ _ _ _ _ _ _ _ _ Hprep Hmut Hfil)
      as (out & fmt & nulls1 & -> & _).
    by destruct Hsome.
  - intros Hmut Hfilter Hne. destruct (back_is_Some rows Hne) as [b Hb].
    unfold structRead, prepareRead, beginRead, newRead. rewrite Hb. simpl.
    destruct (readNulls (formatData_ s) (b + 1) incomingNulls) as [fmt nulls1]. simpl.
    unfold applyMutation. simpl. rewrite Hmut. simpl.
    unfold applyStructFilter. simpl. rewrite Hfilter. simpl.
    by rewrite Hnone.
Qed.

End ReadCheckTheorems.

Section ReadFrameTheorems.
Context {R F : Type} `{ColumnReader R} `{FormatData F}.
Context (debugBuild : bool).
Implicit Types s : Reader R F.

Ltac empty_log :=
  intros; match goal with H : _ ∈ [] |- _ => by apply elem_of_nil in H end.

Lemma readerAt_present s fieldIndex :
  isOk (readerAt s fieldIndex) ↔ childPresent (children_ s) fieldIndex.
Proof.
  unfold readerAt, childPresent, isOk.
  destruct (atZ (children_ s) fieldIndex) as [[reader|]|]; split; intros [? ?]; by eauto.
Qed.

Lemma putChild_present s fieldIndex reader j :
  childPresent (children_ s) fieldIndex →
  length (children_ (putChild fieldIndex reader s)) = length (children_ s) ∧
  (childPresent (children_ (putChild fieldIndex reader s)) j ↔ childPresent (children_ s) j).
Proof.
  intros [old Hold]. simpl. split; [apply length_setZ|].
  unfold childPresent. destruct (decide (fieldIndex = j)) as [->|Hne].
  - rewrite atZ_setZ_eq by by eexists. split; intros _; by eexists.
  - by rewrite atZ_setZ_ne.
Qed.

Lemma readChild_children i c s offset a nulls s' a' stop :
  readChild i c s offset a nulls = Ok (s', a', stop) →
  length (children_ s') = length (children_ s) ∧
  (∀ j, childPresent (children_ s') j ↔ childPresent (children_ s) j) ∧
  specShape (scanSpec_ s') = specShape (scanSpec_ s).
Proof.
  unfold readChild. intros Hrun.
  destruct (isChildConstant s c); [by injection Hrun as <- _ _|].
  apply bind_Ok in Hrun as (reader & Hreader & Hrun).
  assert (childPresent (children_ s) (subscript c)) as Hpresent.
  { apply readerAt_present. by eexists. }
  destruct (_ && _); [by injection Hrun as <- _ _|].
  apply bind_Ok in Hrun as (reader1 & Hadv & Hrun).
  destruct (hasFilter c).
  - apply bind_Ok in Hrun as (reader2 & Hread & Hrun). injection Hrun as <- _ _.
    match goal with |- context [chargeOutput i ?n ?s0] =>
      destruct (chargeOutput_spec i n s0) as (_ & Hc & _);
      pose proof (chargeOutput_core i n s0) as Hcore;
      assert (specFilter (scanSpec_ (chargeOutput i n s0)) = specFilter (scanSpec_ s0) ∧
              specHasFilter (scanSpec_ (chargeOutput i n s0)) = specHasFilter (scanSpec_ s0))
        as [Hfil Hhas]
        by (unfold chargeOutput; by destruct (specChildren (scanSpec_ s0) !! i))
    end.
    match goal with |- context [chargeInput i ?n ?s0] =>
      destruct (chargeInput_spec i n s0) as (_ & Hc' & _);
      pose proof (chargeInput_core i n s0) as Hcore';
      assert (specFilter (scanSpec_ (chargeInput i n s0)) = specFilter (scanSpec_ s0) ∧
              specHasFilter (scanSpec_ (chargeInput i n s0)) = specHasFilter (scanSpec_ s0))
        as [Hfil' Hhas']
        by (unfold chargeInput; by destruct (specChildren (scanSpec_ s0) !! i))
    end.
    simpl in *. rewrite Hc. simpl. rewrite Hc'. simpl.
    split_and!.
    + by rewrite !length_setZ.
    + intros j. etrans; [apply (putChild_present (putChild (subscript c) reader1 s))|].
      { by apply (putChild_present s). }
      by apply (putChild_present s).
    + unfold specShape. rewrite Hcore, Hfil, Hhas. simpl. by rewrite Hcore', Hfil', Hhas'.
  - apply bind_Ok in Hrun as (reader2 & Hread & Hrun). injection Hrun as <- _ _. simpl.
    split_and!; [by rewrite !length_setZ| |done].
    intros j. etrans; [apply (putChild_present (putChild (subscript c) reader1 s))|].
    { by apply (putChild_present s). }
    by apply (putChild_present s).
Qed.

Lemma readChildren_children specs :
  ∀ i s offset a nulls s' a',
    readChildren i specs s offset a nulls = Ok (s', a') →
    length (children_ s') = length (children_ s) ∧
    (∀ j, childPresent (children_ s') j ↔ childPresent (children_ s) j) ∧
    specShape (scanSpec_ s') = specShape (scanSpec_ s).
Proof.
  induction specs as [|c rest IH]; intros i s offset a nulls s' a' Hrun; simpl in Hrun.
  { by injection Hrun as <- _. }
  apply bind_Ok in Hrun as ([[s1 a1] stop] & Hstep & Hrun).
  apply readChild_children in Hstep as (Hlen1 & Hpres1 & Hshape1). destruct stop.
  - by injection Hrun as <- _.
  - apply IH in Hrun as (Hlen2 & Hpres2 & Hshape2). split_and!.
    + by rewrite Hlen2.
    + intros j. by rewrite Hpres2.
    + by rewrite Hshape2.
Qed.

(** The loop over the child specs returns exactly when [children_.at] finds
    a reader for every child spec that is not constant. *)
Lemma recordParentNullsLoop_returns specs :
  ∀ i s offset rows,
    isOk (recordParentNullsLoop i specs s offset rows) ↔
    ∀ c, c ∈ specs → isChildConstant s c = false →
      childPresent (children_ s) (subscript c).
Proof.
  induction specs as [|c rest IH]; intros i s offset rows; simpl.
  { split; [empty_log|by eexists]. }
  destruct (isChildConstant s c) eqn:Hconst.
  { rewrite IH. split.
    - intros Hall c' Hc' Hconst'. apply elem_of_cons in Hc' as [->|Hc']; [congruence|].
      by apply Hall.
    - intros Hall c' Hc'. apply Hall. by right. }
  destruct (readerAt s (subscript c)) as [reader|f] eqn:Hreader; simpl.
  - assert (childPresent (children_ s) (subscript c)) as Hpresent.
    { apply readerAt_present. by eexists. }
    rewrite IH. simpl. split.
    + intros Hall c' Hc' Hconst'. apply elem_of_cons in Hc' as [->|Hc']; [done|].
      apply (putChild_present s (subscript c)
               (addParentNulls reader offset (nullsInReadRange_ s) rows)); [done|].
      by apply Hall.
    + intros Hall c' Hc' Hconst'.
      apply (putChild_present s (subscript c)
               (addParentNulls reader offset (nullsInReadRange_ s) rows)); [done|].
      apply Hall; [by right|done].
  - split; [by intros [? ?]|]. intros Hall.
    destruct (Hall c) as [reader Hp]; [by left|done|].
    unfold readerAt in Hreader. by rewrite Hp in Hreader.
Qed.

Lemma recordParentNullsLoop_children specs :
  ∀ i s offset rows s',
    recordParentNullsLoop i specs s offset rows = Ok s' →
    length (children_ s') = length (children_ s) ∧
    ∀ j, childPresent (children_ s') j ↔ childPresent (children_ s) j.
Proof.
  induction specs as [|c rest IH]; intros i s offset rows s' Hrun; simpl in Hrun.
  { by injection Hrun as <-. }
  destruct (isChildConstant s c); [by apply IH in Hrun|].
  apply bind_Ok in Hrun as (reader & Hreader & Hrun).
  assert (childPresent (children_ s) (subscript c)) as Hpresent.
  { apply readerAt_present. by eexists. }
  apply IH in Hrun as [Hlen Hpres]. simpl in *. split.
  - by rewrite Hlen, length_setZ.
  - intros j. rewrite Hpres. by apply (putChild_present s).
Qed.

Lemma recordParentNullsInChildren_children s offset rows s' :
  recordParentNullsInChildren s offset rows = Ok s' →
  length (children_ s') = length (children_ s) ∧
  ∀ j, childPresent (children_ s') j ↔ childPresent (children_ s) j.
Proof.
  unfold recordParentNullsInChildren. destruct (parentNullsInLeaves (formatData_ s)).
  - by intros [= <-].
  - apply recordParentNullsLoop_children.
Qed.

(** X5.  [recordParentNullsInChildren] returns exactly when the format
    injects parent nulls at the leaves, or [children_] holds a reader at the
    subscript of every child spec that is not constant; a subscript outside
    [children_] (the sentinel of a missing field among them) or an absent
    reader ends the call. *)
Theorem recordParentNulls_returns_iff_children_present s offset rows :
  isOk (recordParentNullsInChildren s offset rows) ↔
  parentNullsInLeaves (formatData_ s) = true ∨
  ∀ c, c ∈ specChildren (scanSpec_ s) → isChildConstant s c = false →
    childPresent (children_ s) (subscript c).
Proof.
  unfold recordParentNullsInChildren.
  destruct (parentNullsInLeaves (formatData_ s)); [split; [by left|by eexists]|].
  rewrite recordParentNullsLoop_returns. split; [by right|].
  by intros [?|?].
Qed.

(** What a read that returns leaves as it was. *)
Lemma structRead_frame s offset rows incomingNulls s' :
  structRead debugBuild s offset rows incomingNulls = Ok s' →
  (rows_ s', mutation_ s', hasMutation_ s', isRoot_ s', fileType_ s')
    = (rows_ s, mutation_ s, hasMutation_ s, isRoot_ s, fileType_ s) ∧
  specShape (scanSpec_ s') = specShape (scanSpec_ s) ∧
  inputRows_ s' = rows ∧
  length (children_ s') = length (children_ s) ∧
  ∀ j, childPresent (children_ s') j ↔ childPresent (children_ s) j.
Proof.
  intros Hrun.
  destruct (structRead_cases _ _ _ _ _ _ Hrun) as (b & s1 & Hb & Hprep & Hcases).
  destruct (prepareRead_spec _ _ _ _ _ Hprep) as (? & fmt & nulls1 & _ & Hs1).
  unfold beginRead, newRead in Hs1. simpl in Hs1.
  destruct Hcases as [Hmut|(s2 & a1 & Hmut & Hcases)].
  { apply applyMutation_spec in Hmut as [[_ ?]|(_ & ? & d & _ & _ & _ & [[_ Hf]|[_ ?]])];
      try done.
    injection Hf as ->. by subst s1. }
  assert (∃ out, s2 = withOutputRows out s1) as [out Hs2].
  { apply applyMutation_spec in Hmut as [[_ Hf]|(_ & ? & d & _ & _ & _ & [[_ ?]|[_ Hf]])];
      try done; injection Hf as -> _; [|by eexists].
    exists []. by subst s1. }
  destruct Hcases as [Hfil|(s3 & a2 & s4 & a3 & s5 & Hfil & _ & Hloop & Hrec & ->)].
  { apply applyStructFilter_spec in Hfil as [[_ ?]|(kind & l & _ & _ & Hfil)]; [done|].
    simpl in Hfil. destruct Hfil as [(_ & s2' & Hrec & Hf)|[_ ?]]; [|done].
    injection Hf as <-.
    destruct (recordParentNullsInChildren_children _ _ _ _ Hrec) as [Hlen Hpres].
    apply recordParentNullsInChildren_spec in Hrec as (Hf & Hsp & _).
    unfold frame in Hf. injection Hf as _ Hi _ _ _ _ Hrows Hm Hhm Hr Ht _.
    subst s2 s1. simpl in *. by rewrite Hrows, Hm, Hhm, Hr, Ht, Hsp, Hi. }
  destruct (structRead_to_loop _ _ _ _ _ _ _ _ _ _ Hprep Hmut Hfil)
    as (out' & fmt' & nulls' & Hs3 & _).
  destruct (readChildren_children _ _ _ _ _ _ _ _ Hloop) as (Hlen4 & Hpres4 & Hshape4).
  apply readChildren_spec in Hloop as (Hf4 & _).
  destruct (recordParentNullsInChildren_children _ _ _ _ Hrec) as [Hlen5 Hpres5].
  apply recordParentNullsInChildren_spec in Hrec as (Hf5 & Hsp5 & _).
  unfold frame in Hf4, Hf5.
  injection Hf4 as _ Hi4 _ _ _ _ Hrows4 Hm4 Hhm4 Hr4 Ht4 _.
  injection Hf5 as _ Hi5 _ _ _ _ Hrows5 Hm5 Hhm5 Hr5 Ht5 _.
  assert (∃ st, (st = s5 ∨ st = setOutputRows a3 s5) ∧
            (if specHasFilter (scanSpec_ s5) then setOutputRows a3 s5 else s5) = st)
    as (st & Hst & ->).
  { destruct (specHasFilter (scanSpec_ s5)); eexists; (split; [|done]); [by right|by left]. }
  assert ((rows_ st, mutation_ st, hasMutation_ st, isRoot_ st, fileType_ st,
           scanSpec_ st, inputRows_ st, children_ st)
          = (rows_ s5, mutation_ s5, hasMutation_ s5, isRoot_ s5, fileType_ s5,
             scanSpec_ s5, inputRows_ s5, children_ s5)) as Hfinal
    by (by destruct Hst as [-> | ->]).
  injection Hfinal as Hrows6 Hm6 Hhm6 Hr6 Ht6 Hsp6 Hi6 Hch6. simpl.
  rewrite Hrows6, Hm6, Hhm6, Hr6, Ht6, Hsp6, Hi6, Hch6.
  rewrite Hrows5, Hm5, Hhm5, Hr5, Ht5, Hsp5, Hi5, Hlen5.
  rewrite Hrows4, Hm4, Hhm4, Hr4, Ht4, Hshape4, Hi4, Hlen4.
  subst s3. simpl. split_and!; try done.
  intros j. by rewrite Hpres5, Hpres4.
Qed.

(** X6.  A read that returns leaves the reader's configuration as it was: the
    dense row numbers, the mutation, the root flag and the file type, the
    struct's filter and every child spec but for its selectivity counters.
    It remembers the rows it was asked for, and it neither adds nor removes a
    child reader: [children_] keeps its length, and a position holds a reader
    afterwards exactly when it held one before. *)
Theorem read_keeps_configuration s offset rows incomingNulls s' :
  structRead debugBuild s offset rows incomingNulls = Ok s' →
  (rows_ s', mutation_ s', hasMutation_ s', isRoot_ s', fileType_ s')
    = (rows_ s, mutation_ s, hasMutation_ s, isRoot_ s, fileType_ s) ∧
  specShape (scanSpec_ s') = specShape (scanSpec_ s) ∧
  inputRows_ s' = rows ∧
  length (children_ s') = length (children_ s) ∧
  ∀ j, childPresent (children_ s') j ↔ childPresent (children_ s) j.
Proof.
  intros Hrun.
  destruct (structRead_frame _ _ _ _ _ Hrun) as (Hconf & Hshape & Hinput & Hlen & Hpres).
  split_and!; [done..|]. intros j. apply (Hpres j).
Qed.

End ReadFrameTheorems.

Section GetValuesLoopTheorems.
Context {R F : Type} `{ColumnReader R} `{FormatData F}.
Implicit Types s : Reader R F.

Ltac empty_log :=
  intros; match goal with H : _ ∈ [] |- _ => by apply elem_of_nil in H end.

Lemma setConstantField_spec constant size field out :
  setConstantField constant size field = Ok out →
  ∃ cv, constant = Some cv ∧ delivered (AsConstant (valueAt cv 0)) size out.
Proof.
  unfold setConstantField. destruct constant as [cv|]; [|done]. intros Hrun.
  exists cv. split; [done|]. simpl.
  assert (delivered (AsConstant (valueAt cv 0)) size (wrapInConstant size 0 (Some cv)))
    as Hfresh by (by eexists).
  destruct field as [f|]; [|by injection Hrun as <-].
  destruct (isConstantEncoding f && unique (Some f) && bool_decide (0 < vsize f)
            && equalValueAt f cv) eqn:Hreuse; injection Hrun as <-; [|done].
  apply andb_true_iff in Hreuse as [Hreuse Heq].
  apply andb_true_iff in Hreuse as [Hreuse _].
  apply andb_true_iff in Hreuse as [Henc _].
  apply bool_decide_eq_true in Heq.
  destruct f; try done. by eexists.
Qed.

Lemma setNullField_spec size field out :
  setNullField size field = Ok out → delivered AsNullConstant size out.
Proof.
  unfold setNullField. destruct field as [f|]; [|done].
  destruct (isConstantEncoding f && unique (Some f) && bool_decide (0 < vsize f)
            && isNullAt f 0) eqn:Hreuse; intros [= <-]; [|by eexists].
  apply andb_true_iff in Hreuse as [Hreuse Hnull].
  apply andb_true_iff in Hreuse as [Hreuse _].
  apply andb_true_iff in Hreuse as [Henc _].
  destruct f as [| | |u t n x|]; try done. simpl in *. eexists. split_and!; try done.
  by destruct x.
Qed.

(** One turn of the loop of [getValues]. *)
Lemma getChild_step i c rows t s fields lp s' fields' lp' :
  getChild i c rows t (s, fields, lp) = Ok (s', fields', lp') →
  valuesFrame s' = valuesFrame s ∧
  (outputRows_ s' = outputRows_ s ∨ outputRows_ s' = rows) ∧
  (∀ ch, ch ≠ channel c → atZ fields' ch = atZ fields ch) ∧
  (projectOut c = false → s' = s ∧ fields' = fields) ∧
  (projectOut c = true →
     ∃ d es,
       calls s' = calls s ++ es ∧
       ∃ field, atZ fields' (channel c) = Some field ∧ delivered d (sizeOf rows) field ∧
       match d with
       | AsConstant value =>
           es = [] ∧ isConstant c = true ∧
           ∃ cv, constantValue c = Some cv ∧ value = valueAt cv 0
       | AsNullConstant =>
           es = [] ∧ isConstant c = false ∧ subscript c = kConstantChildSpecSubscript
       | Eagerly =>
           es = [CallGetValues i (subscript c) rows] ∧ isConstant c = false ∧
           subscript c ≠ kConstantChildSpecSubscript
       | Lazily loader =>
           es = [] ∧ isConstant c = false ∧ subscript c ≠ kConstantChildSpecSubscript ∧
           hasFilter c = false ∧ extractValues c = false ∧
           loader = mkLoader (subscript c) (numReads_ s)
       end).
Proof.
  unfold getChild. intros Hrun.
  destruct (projectOut c) eqn:Hproj; simpl in Hrun.
  2:{ injection Hrun as <- <- _. split_and!; try done. by left. }
  destruct (atZ fields (channel c)) as [childResult|] eqn:Hold; [|done].
  assert (∀ x, atZ (setZ fields (channel c) x) (channel c) = Some x) as Hset.
  { intros x. apply atZ_setZ_eq. by eexists. }
  assert (∀ x ch, ch ≠ channel c → atZ (setZ fields (channel c) x) ch = atZ fields ch)
    as Hother.
  { intros x ch Hne. by apply atZ_setZ_ne. }
  destruct (isConstant c) eqn:Hconst.
  { apply bind_Ok in Hrun as (field & Hfield & [= <- <- _]).
    apply setConstantField_spec in Hfield as (cv & Hcv & Hd).
    split_and!; [done|by left|by apply Hother|done|]. intros _.
    exists (AsConstant (valueAt cv 0)), []. rewrite app_nil_r. split; [done|].
    eexists. split_and!; [apply Hset|done|done|done|by exists cv]. }
  case_bool_decide as Hmissing.
  { apply bind_Ok in Hrun as (field & Hfield & [= <- <- _]).
    apply setNullField_spec in Hfield.
    split_and!; [done|by left|by apply Hother|done|]. intros _.
    exists AsNullConstant, []. rewrite app_nil_r. split; [done|].
    eexists. split_and!; [apply Hset|done..]. }
  destruct (atZ (children_ s) (subscript c)) as [[reader|]|]; try done.
  destruct (extractValues c || hasFilter c || negb (isTopLevel reader)) eqn:Heager.
  { apply bind_Ok in Hrun as ([reader' field] & _ & [= <- <- _]).
    split_and!; [done|by left|by apply Hother|done|]. intros _.
    exists Eagerly, [CallGetValues i (subscript c) rows]. split; [done|].
    eexists. split_and!; [apply Hset|done..]. }
  apply orb_false_iff in Heager as [Heager _].
  apply orb_false_iff in Heager as [Hextract Hfilter].
  match type of Hrun with
  | context [mkLoader _ (numReads_ ?s0)] =>
      assert (valuesFrame s0 = valuesFrame s ∧ calls s0 = calls s ∧
              (outputRows_ s0 = outputRows_ s ∨ outputRows_ s0 = rows)) as (Hf & Hc & Ho)
        by (destruct lp; [by split_and!; [..|left]|];
            case_bool_decide; by split_and!; [..|(by left) || (by right)]);
      remember s0 as s1 eqn:Hs1
  end.
  assert (numReads_ s1 = numReads_ s) as Hreads.
  { unfold valuesFrame in Hf. by injection Hf as _ _ _ -> _ _ _ _ _ _ _ _. }
  assert (∀ field,
            delivered (Lazily (mkLoader (subscript c) (numReads_ s1))) (sizeOf rows) field →
            (s1, setZ fields (channel c) field, true) = (s', fields', lp') →
            valuesFrame s' = valuesFrame s ∧
            (outputRows_ s' = outputRows_ s ∨ outputRows_ s' = rows) ∧
            (∀ ch, ch ≠ channel c → atZ fields' ch = atZ fields ch) ∧
            (true = false → s' = s ∧ fields' = fields) ∧
            (true = true →
             ∃ d es, calls s' = calls s ++ es ∧
               ∃ field, atZ fields' (channel c) = Some field ∧
                 delivered d (sizeOf rows) field ∧
                 match d with
                 | AsConstant value =>
                     es = [] ∧ false = true ∧
                     ∃ cv, constantValue c = Some cv ∧ value = valueAt cv 0
                 | AsNullConstant =>
                     es = [] ∧ false = false ∧ subscript c = kConstantChildSpecSubscript
                 | Eagerly =>
                     es = [CallGetValues i (subscript c) rows] ∧ false = false ∧
                     subscript c ≠ kConstantChildSpecSubscript
                 | Lazily loader =>
                     es = [] ∧ false = false ∧ subscript c ≠ kConstantChildSpecSubscript ∧
                     hasFilter c = false ∧ extractValues c = false ∧
                     loader = mkLoader (subscript c) (numReads_ s)
                 end)) as Hlazy.
  { intros field Hd [= <- <- _].
    split_and!; [done|done|by apply Hother|done|]. intros _.
    exists (Lazily (mkLoader (subscript c) (numReads_ s1))), []. rewrite app_nil_r.
    split; [done|]. exists field. split_and!; [apply Hset|done..|by rewrite Hreads]. }
  match type of Hrun with
  | match ?reset with _ => _ end = _ => destruct reset as [lazy|] eqn:Hreset
  end.
  - injection Hrun as Heq1 Heq2 Heq3. apply (Hlazy (Some lazy)); [|congruence].
    destruct childResult as [f|]; [|done].
    destruct (isLazy f && unique (Some f)) eqn:Hl; [|done].
    apply andb_true_iff in Hl as [Hl Hu]. injection Hreset as <-.
    destruct f as [|u ty n l ld| | |]; try done. simpl in Hu.
    apply Nat.eqb_eq in Hu as ->. by eexists.
  - destruct (atZ (tyChildren t) (channel c)) as [ty|]; [|done].
    injection Hrun as Heq1 Heq2 Heq3.
    apply (Hlazy (Some (LazyVector 1 ty (sizeOf rows) (mkLoader (subscript c) (numReads_ s1)) None)));
      [by eexists|congruence].
Qed.


Lemma getChildren_steps specs :
  ∀ i rows t s fields lp s' fields' lp',
    getChildren i specs rows t (s, fields, lp) = Ok (s', fields', lp') →
    valuesFrame s' = valuesFrame s ∧
    (outputRows_ s' = outputRows_ s ∨ outputRows_ s' = rows) ∧
    (∀ ch, (∀ c, c ∈ specs → projectOut c = true → channel c ≠ ch) →
       atZ fields' ch = atZ fields ch) ∧
    ∃ es, calls s' = calls s ++ es ∧
      ∀ e, e ∈ es →
        ∃ j c, (i ≤ j)%nat ∧ specs !! (j - i)%nat = Some c ∧ projectOut c = true ∧
               e = CallGetValues j (subscript c) rows.
Proof.
  induction specs as [|c rest IH]; intros i rows t s fields lp s' fields' lp' Hrun;
    simpl in Hrun.
  { injection Hrun as <- <- _. split_and!; [done|by left|done|].
    exists []. rewrite app_nil_r. split; [done|empty_log]. }
  apply bind_Ok in Hrun as ([[s1 fields1] lp1] & Hstep & Hrun).
  apply getChild_step in Hstep as (Hf1 & Ho1 & Hother1 & Hskip1 & Hturn1).
  apply IH in Hrun as (Hf2 & Ho2 & Hother2 & es2 & Hc2 & Hev2).
  assert (∃ es1, calls s1 = calls s ++ es1 ∧
            ∀ e, e ∈ es1 → projectOut c = true ∧ e = CallGetValues i (subscript c) rows)
    as (es1 & Hc1 & Hev1).
  { destruct (projectOut c) eqn:Hproj.
    - destruct (Hturn1 eq_refl) as (d & es1 & Hc1 & field & _ & _ & Hd).
      exists es1. split; [done|]. intros e He.
      destruct d; try (destruct Hd as (-> & _); by apply elem_of_nil in He).
      destruct Hd as (-> & _). by apply list_elem_of_singleton in He as ->.
    - destruct (Hskip1 eq_refl) as [-> _]. exists []. rewrite app_nil_r.
      split; [done|empty_log]. }
  split_and!.
  - by rewrite Hf2.
  - destruct Ho2 as [->|]; [done|by right].
  - intros ch Hch. rewrite Hother2 by (intros c' Hc'; apply Hch; by right).
    destruct (projectOut c) eqn:Hproj.
    + apply Hother1. intros Heq. by apply (Hch c); [left|..].
    + by destruct (Hskip1 eq_refl) as [_ ->].
  - exists (es1 ++ es2). split; [by rewrite Hc2, Hc1, app_assoc|].
    intros e He. apply elem_of_app in He as [He|He].
    + destruct (Hev1 _ He) as [Hproj ->]. exists i, c. by rewrite Nat.sub_diag.
    + destruct (Hev2 _ He) as (j & c' & Hle & Hj & Hproj & ->).
      exists j, c'. split_and!; [lia| |done..].
      by replace (j - i)%nat with (S (j - S i)) by lia.
Qed.

(** The field at the channel of a projected child spec, when no later
    projected child spec writes the same channel. *)
Lemma getChildren_delivery specs :
  ∀ i rows t s fields lp s' fields' lp' k c,
    getChildren i specs rows t (s, fields, lp) = Ok (s', fields', lp') →
    specs !! k = Some c → projectOut c = true →
    (∀ j c', (k < j)%nat → specs !! j = Some c' → projectOut c' = true →
       channel c' ≠ channel c) →
    ∃ d es field,
      calls s' = calls s ++ es ∧
      atZ fields' (channel c) = Some field ∧
      delivered d (sizeOf rows) field ∧
      match d with
      | AsConstant value =>
          isConstant c = true ∧ ∃ cv, constantValue c = Some cv ∧ value = valueAt cv 0
      | AsNullConstant =>
          isConstant c = false ∧ subscript c = kConstantChildSpecSubscript
      | Eagerly =>
          isConstant c = false ∧ subscript c ≠ kConstantChildSpecSubscript ∧
          CallGetValues (i + k) (subscript c) rows ∈ es
      | Lazily loader =>
          isConstant c = false ∧ subscript c ≠ kConstantChildSpecSubscript ∧
          (∀ f r, CallGetValues (i + k) f r ∉ es) ∧
          hasFilter c = false ∧ extractValues c = false ∧
          loader = mkLoader (subscript c) (numReads_ s)
      end.
Proof.
  induction specs as [|c0 rest IH];
    intros i rows t s fields lp s' fields' lp' k c Hrun Hk Hproj Hlast; [done|].
  simpl in Hrun. apply bind_Ok in Hrun as ([[s1 fields1] lp1] & Hstep & Hrun).
  destruct k as [|k]; simpl in Hk.
  - injection Hk as ->.
    apply getChild_step in Hstep as (_ & _ & _ & _ & Hturn).
    destruct (Hturn Hproj) as (d & es1 & Hc1 & field & Hfield & Hd & Hcase).
    apply getChildren_steps in Hrun as (_ & _ & Hother & es2 & Hc2 & Hev2).
    exists d, (es1 ++ es2), field. split_and!.
    + by rewrite Hc2, Hc1, app_assoc.
    + rewrite Hother; [done|]. intros c' Hc' Hproj'.
      apply list_elem_of_lookup in Hc' as [j Hj]. by apply (Hlast (S j)); [lia|..].
    + done.
    + assert (∀ f r, CallGetValues (i + 0) f r ∉ es2) as Hlater.
      { intros f r He. destruct (Hev2 _ He) as (j & c' & Hle & _ & _ & Heq).
        injection Heq as Hij _ _. lia. }
      destruct d.
      * by destruct Hcase as (_ & ? & ?).
      * by destruct Hcase as (_ & ? & ?).
      * destruct Hcase as (-> & ? & ?). split_and!; [done..|].
        rewrite Nat.add_0_r. apply elem_of_app. left. by apply list_elem_of_singleton.
      * destruct Hcase as (-> & ? & ? & ? & ? & ?).
        split_and!; try done; intros f r He; by apply (Hlater f r).
  - apply getChild_step in Hstep as (Hf1 & _ & _ & Hskip1 & Hturn1).
    assert (∃ es1, calls s1 = calls s ++ es1 ∧ ∀ f r, CallGetValues (i + S k) f r ∉ es1)
      as (es1 & Hc1 & Hev1).
    { destruct (projectOut c0) eqn:Hproj0.
      - destruct (Hturn1 eq_refl) as (d & es1 & Hc1 & field & _ & _ & Hd).
        exists es1. split; [done|]. intros f r He.
        destruct d; try (destruct Hd as (-> & _); by apply elem_of_nil in He).
        destruct Hd as (-> & _). apply list_elem_of_singleton in He.
        injection He as Hi _ _. lia.
      - destruct (Hskip1 eq_refl) as [-> _]. exists []. rewrite app_nil_r.
        split; [done|]. intros f r He. by apply elem_of_nil in He. }
    destruct (IH (S i) rows t s1 fields1 lp1 s' fields' lp' k c Hrun Hk Hproj)
      as (d & es2 & field & Hc2 & Hfield & Hd & Hcase).
    { intros j c' Hlt Hj. apply (Hlast (S j)); [lia|done]. }
    exists d, (es1 ++ es2), field. split_and!; [by rewrite Hc2, Hc1, app_assoc|done..|].
    replace (i + S k)%nat with (S i + k)%nat in * by lia.
    destruct d; try done.
    + destruct Hcase as (? & ? & ?). split_and!; [done..|]. apply elem_of_app. by right.
    + destruct Hcase as (? & ? & Hnone & ? & ? & ->). split_and!; try done.
      * intros f r He. apply elem_of_app in He as [He|He];
          [by apply (Hev1 f r)|by apply (Hnone f r)].
      * unfold valuesFrame in Hf1. by injection Hf1 as _ _ _ -> _ _ _ _ _ _ _ _.
Qed.

(** What a [getValues] that returns did, over the state it started from. *)
Lemma structGetValues_run s rows result s' out :
  structGetValues s rows (Some result) = Ok (s', out) →
  ∃ u t nulls0 n0 flag fields0 nulls fields,
    resultContainer result = RowVector u t nulls0 n0 flag fields0 ∧
    out = Some (RowVector u t nulls (sizeOf rows) flag fields) ∧
    ((rows = [] ∧ s' = s ∧ fields = fields0 ∧ nulls = nulls0) ∨
     (rows ≠ [] ∧ ∃ lp,
        getChildren 0 (specChildren (scanSpec_ s)) rows t (s, fields0, false)
          = Ok (s', fields, lp))).
Proof.
  unfold structGetValues. intros Hrun.
  apply bind_Ok in Hrun as ([] & _ & Hrun).
  apply bind_Ok in Hrun as ([] & _ & Hrun).
  destruct (resultContainer result) as [u t nulls0 n0 flag fields0| | | |]; try done.
  exists u, t, nulls0, n0, flag, fields0.
  case_bool_decide as Hsize.
  - injection Hrun as <- <-. eexists _, _. split_and!; [done..|].
    left. by apply sizeOf_0 in Hsize.
  - apply bind_Ok in Hrun as ([[s1 fields1] lp] & Hloop & [= <- <-]).
    eexists _, _. split_and!; [done..|]. right. split; [|by exists lp].
    intros ->. by apply Hsize.
Qed.

(** X7.  [getValues] writes only the fields at the channels of the projected
    child specs: every other field of the row container it fills, reused or
    fresh, is as it was.  Of the reader it changes nothing but the children
    and the output rows, which are left as they were or set to [rows]; on an
    empty row set it returns with the container resized and the reader, the
    fields and the nulls untouched. *)
Theorem getValues_writes_only_projected_channels s rows result s' out :
  structGetValues s rows (Some result) = Ok (s', out) →
  ∃ u t nulls0 n0 flag fields0 nulls fields,
    resultContainer result = RowVector u t nulls0 n0 flag fields0 ∧
    out = Some (RowVector u t nulls (sizeOf rows) flag fields) ∧
    (∀ ch, (∀ c, c ∈ specChildren (scanSpec_ s) → projectOut c = true → channel c ≠ ch) →
       atZ fields ch = atZ fields0 ch) ∧
    valuesFrame s' = valuesFrame s ∧
    (outputRows_ s' = outputRows_ s ∨ outputRows_ s' = rows) ∧
    (rows = [] → s' = s ∧ fields = fields0 ∧ nulls = nulls0).
Proof.
  intros Hrun.
  destruct (structGetValues_run _ _ _ _ _ Hrun)
    as (u & t & nulls0 & n0 & flag & fields0 & nulls & fields & Hcont & Hout & Hcases).
  exists u, t, nulls0, n0, flag, fields0, nulls, fields. split; [done|]. split; [done|].
  destruct Hcases as [(-> & -> & -> & ->)|(Hne & lp & Hloop)].
  - split_and!; try done. by left.
  - apply getChildren_steps in Hloop as (Hf & Ho & Hother & _).
    split_and!; done.
Qed.

(** X8.  After a [getValues] over a non-empty row set, the field at the
    channel of a projected child spec that carries a constant is a
    constant-encoded vector of [rows.size()] rows whose value is the value at
    position 0 of the spec's constant, whether the field was resized in place
    or wrapped anew.  This is stated for a child spec whose channel no later
    projected child spec names. *)
Theorem getValues_sets_constant_field s rows result s' out k c :
  structGetValues s rows (Some result) = Ok (s', out) →
  rows ≠ [] →
  specChildren (scanSpec_ s) !! k = Some c →
  projectOut c = true →
  isConstant c = true →
  (∀ j c', (k < j)%nat → specChildren (scanSpec_ s) !! j = Some c' → projectOut c' = true →
     channel c' ≠ channel c) →
  ∃ cv u t nulls flag fields v,
    constantValue c = Some cv ∧
    out = Some (RowVector u t nulls (sizeOf rows) flag fields) ∧
    atZ fields (channel c) = Some (Some v) ∧
    isConstantEncoding v = true ∧ vsize v = sizeOf rows ∧ valueAt v 0 = valueAt cv 0.
Proof.
  intros Hrun Hne Hk Hproj Hconst Hlast.
  destruct (structGetValues_run _ _ _ _ _ Hrun)
    as (u & t & nulls0 & n0 & flag & fields0 & nulls & fields & _ & Hout & Hcases).
  destruct Hcases as [(? & _)|(_ & lp & Hloop)]; [done|].
  destruct (getChildren_delivery _ _ _ _ _ _ _ _ _ _ _ _ Hloop Hk Hproj Hlast)
    as (d & es & field & _ & Hfield & Hd & Hcase).
  destruct d; try (destruct Hcase as (? & _); congruence).
  destruct Hcase as (_ & cv & Hcv & ->). destruct Hd as (v & -> & Henc & Hsize & Hval).
  by exists cv, u, t, nulls, flag, fields, v.
Qed.

(** X9.  After a [getValues] over a non-empty row set, a projected child
    spec with a reader (not constant, not missing from the file) is served
    in one of two ways.  Either the child's own [getValues] was called for
    it, with the same rows; or no such call was made, the child spec has no
    filter and does not extract values, and the field at its channel is an
    unloaded lazy vector of [rows.size()] rows whose loader names the child
    and the epoch of the reader's last read.  Every [getValues] issued to a
    child passes the same rows.  This is stated for a child spec whose
    channel no later projected child spec names. *)
Theorem getValues_serves_child_eagerly_or_lazily s rows result s' out k c :
  structGetValues s rows (Some result) = Ok (s', out) →
  rows ≠ [] →
  specChildren (scanSpec_ s) !! k = Some c →
  projectOut c = true →
  isConstant c = false →
  subscript c ≠ kConstantChildSpecSubscript →
  (∀ j c', (k < j)%nat → specChildren (scanSpec_ s) !! j = Some c' → projectOut c' = true →
     channel c' ≠ channel c) →
  ∃ es u t nulls flag fields,
    calls s' = calls s ++ es ∧
    out = Some (RowVector u t nulls (sizeOf rows) flag fields) ∧
    (∀ j f r, CallGetValues j f r ∈ es → r = rows) ∧
    (CallGetValues k (subscript c) rows ∈ es ∨
     ((∀ f r, CallGetValues k f r ∉ es) ∧
      hasFilter c = false ∧ extractValues c = false ∧
      ∃ ty, atZ fields (channel c)
            = Some (Some (LazyVector 1 ty (sizeOf rows)
                            (mkLoader (subscript c) (numReads_ s)) None)))).
Proof.
  intros Hrun Hne Hk Hproj Hconst Hsub Hlast.
  destruct (structGetValues_run _ _ _ _ _ Hrun)
    as (u & t & nulls0 & n0 & flag & fields0 & nulls & fields & _ & Hout & Hcases).
  destruct Hcases as [(? & _)|(_ & lp & Hloop)]; [done|].
  destruct (getChildren_delivery _ _ _ _ _ _ _ _ _ _ _ _ Hloop Hk Hproj Hlast)
    as (d & es & field & Hcalls & Hfield & Hd & Hcase).
  apply getChildren_steps in Hloop as (_ & _ & _ & es' & Hcalls' & Hev).
  rewrite Hcalls in Hcalls'. apply app_inv_head in Hcalls' as <-.
  exists es, u, t, nulls, flag, fields. split_and!; [done|done|..].
  - intros j f r He. destruct (Hev _ He) as (j' & c' & _ & _ & _ & Heq). by injection Heq.
  - destruct d; try (destruct Hcase as (? & ?); congruence).
    + left. by destruct Hcase as (_ & _ & ?).
    + right. destruct Hcase as (_ & _ & Hnone & Hfilter & Hextract & ->).
      destruct Hd as [ty ->]. split_and!; [done..|]. by exists ty.
Qed.

End GetValuesLoopTheorems.

Section NextReadTheorems.
Context {R F : Type} `{ColumnReader R} `{FormatData F}.
Context (debugBuild : bool).
Implicit Types s : Reader R F.

(** Lines 80-84: [rows_] resized to [numValues] holds the row numbers from 0
    on, once it held them up to its old size. *)
Lemma resize_iota (n k : Z) :
  0 ≤ n → 0 ≤ k → take (Z.to_nat n) (seqZ 0 k) ++ seqZ k (n - k) = seqZ 0 n.
Proof.
  intros Hn Hk. destruct (decide (n ≤ k)) as [Hle|Hgt].
  - rewrite (seqZ_nil k) by lia. rewrite app_nil_r.
    replace k with (n + (k - n)) by lia. rewrite seqZ_app by lia.
    rewrite take_app_le by (rewrite length_seqZ; lia).
    apply take_ge. rewrite length_seqZ. lia.
  - rewrite take_ge by (rewrite length_seqZ; lia).
    replace n with (k + (n - k)) at 2 by lia. by rewrite seqZ_app by lia.
Qed.

Lemma back_seqZ n : 0 < n → back (seqZ 0 n) = Some (n - 1).
Proof.
  intros Hn. unfold back. rewrite last_lookup, length_seqZ.
  apply lookup_seqZ. split; lia.
Qed.

Lemma resultContainer_row (result : Vector) :
  ∃ u t nulls n flag fields, resultContainer result = RowVector u t nulls n flag fields.
Proof.
  unfold resultContainer. destruct (tryReuseResult result) as [reused|] eqn:Hr.
  - apply tryReuseResult_wraps in Hr as (row & Hw & ->).
    apply wraps_row_inv in Hw as (t & nulls & n & flag & cs & ->). simpl. by eexists _, _, _, _, _, _.
  - by eexists _, _, _, _, _, _.
Qed.

(** Where a read that returns leaves [readOffset_], when the struct has no
    filter of its own. *)
Lemma structRead_readOffset s offset rows nulls s' :
  structRead debugBuild s offset rows nulls = Ok s' →
  specFilter (scanSpec_ s) = None →
  ∃ b, back rows = Some b ∧ readOffset_ s' = offset + b + 1.
Proof.
  intros Hrun Hnone.
  destruct (structRead_cases _ _ _ _ _ _ Hrun) as (b & s1 & Hb & Hprep & Hcases).
  exists b. split; [done|].
  destruct Hcases as [Hmut|(s2 & a1 & Hmut & [Hfil|Hrest])].
  - apply applyMutation_spec in Hmut as [[_ ?]|(_ & b' & d & Hb' & _ & _ & [[_ Hf]|[_ ?]])];
      try done.
    rewrite Hb in Hb'. by simplify_eq.
  - destruct (no_struct_filter_no_return debugBuild s offset rows nulls Hnone).
    by exists s1, s2, a1, s'.
  - destruct Hrest as (s3 & a2 & s4 & a3 & s5 & _ & _ & _ & _ & ->). done.
Qed.

(** X10.  On a reader with children, [next(numValues, result, mutation)]
    reads the rows [0 .. numValues) at the reader's read offset and hands
    their output rows to [getValues]: when it returns, [rows_] and the input
    rows are the row numbers below [numValues], the mutation is the one
    passed in, and the result holds as many rows as the reader reports
    output rows.  Without a filter on the struct itself the read offset has
    advanced by [numValues].  This is stated for a reader whose [rows_]
    holds the row numbers from 0 on before the call, as every [next] leaves
    it. *)
Theorem next_reads_then_gets_values s numValues result mutation s' out :
  children_ s ≠ [] →
  0 ≤ numValues →
  rows_ s = seqZ 0 (sizeOf (rows_ s)) →
  structNext debugBuild s numValues result mutation = Ok (s', out) →
  rows_ s' = seqZ 0 numValues ∧
  inputRows_ s' = seqZ 0 numValues ∧
  mutation_ s' = mutation ∧
  hasMutation_ s' = match mutation with Some (mkMutation (Some _)) => true | _ => false end ∧
  (∃ v, out = Some v ∧ vsize v = sizeOf (structOutputRows s')) ∧
  (specFilter (scanSpec_ s) = None → readOffset_ s' = readOffset_ s + numValues).
Proof.
  intros Hsome Hn Hdense. unfold structNext.
  rewrite bool_decide_eq_false_2 by done.
  set (k := sizeOf (rows_ s)) in *.
  rewrite Hdense, resize_iota by (done || unfold k, sizeOf; lia).
  intros Hrun. apply bind_Ok in Hrun as (s1 & Hread & Hvalues). simpl in Hread.
  set (s0 := withMutation mutation _ _) in Hread.
  destruct (structRead_frame debugBuild _ _ _ _ _ Hread)
    as (Hconf & Hshape & Hinput & _).
  injection Hconf as Hrows Hmut Hhas _ _.
  destruct result as [result|]; [|by apply bind_Ok in Hvalues as ([] & _ & ?)].
  destruct (structGetValues_run _ _ _ _ _ Hvalues)
    as (u & t & nulls0 & n0 & flag & fields0 & nulls & fields & _ & -> & Hcases).
  assert (valuesFrame s' = valuesFrame s1 ∧
          (outputRows_ s' = outputRows_ s1 ∨ outputRows_ s' = structOutputRows s1))
    as [Hframe Hout].
  { destruct Hcases as [(_ & -> & _)|(_ & lp & Hloop)]; [split; [done|by left]|].
    by apply getChildren_steps in Hloop as (? & ? & _). }
  unfold valuesFrame in Hframe.
  injection Hframe as Hro' Hin' _ _ _ Hrows' Hmut' Hhas' _ _ Hspec' _.
  assert (structOutputRows s' = structOutputRows s1) as Hsame.
  { unfold structOutputRows in *. rewrite Hspec', Hhas', Hin'.
    destruct (specHasFilter (scanSpec_ s1) || hasMutation_ s1); [|done].
    by destruct Hout as [->| ->]. }
  split_and!.
  - by rewrite Hrows', Hrows.
  - by rewrite Hin', Hinput.
  - by rewrite Hmut', Hmut.
  - by rewrite Hhas', Hhas.
  - eexists. split; [done|]. simpl. by rewrite Hsame.
  - intros Hnone. rewrite Hro'.
    destruct (structRead_readOffset _ _ _ _ _ Hread) as (b & Hb & ->); [done|].
    assert (0 < numValues) as Hpos.
    { destruct (decide (0 < numValues)); [done|].
      rewrite seqZ_nil in Hb by lia. done. }
    rewrite back_seqZ in Hb by done. injection Hb as <-. simpl. lia.
Qed.


(** A read under a mutation that deleted every row of the dense row set. *)
Lemma structRead_all_deleted s offset rows incomingNulls deleted :
  hasMutation_ s = true →
  mutation_ s = Some (mkMutation (Some deleted)) →
  rows ≠ [] →
  rows = seqZ 0 (sizeOf rows) →
  0 ≤ offset ∧ offset + sizeOf rows < 2 ^ 31 →
  (∀ r, r ∈ rows → isBitSet deleted r = true) →
  (debugBuild = true →
     (readNulls (formatData_ s) (sizeOf rows) incomingNulls).2 = None) →
  ∃ s' b,
    structRead debugBuild s offset rows incomingNulls = Ok s' ∧
    back rows = Some b ∧
    readOffset_ s' = offset + b + 1 ∧
    children_ s' = children_ s ∧
    calls s' = calls s ∧
    outputRows_ s' = [] ∧
    hasMutation_ s' = true.
Proof.
  intros Hmut Hm Hne Hdense Hfit Hall Hdbg.
  destruct (back_is_Some rows Hne) as [b Hb].
  pose proof (dense_back _ _ Hdense Hb) as Hsize.
  assert (0 ≤ b) as Hb0.
  { assert (0 < sizeOf rows) by (unfold sizeOf; destruct rows; [done|simpl; lia]). lia. }
  assert (unsetBits deleted 0 (b + 1) = []) as Hnil.
  { apply unsetBits_nil. intros r Hr. apply Hall. rewrite Hdense, Hsize.
    apply elem_of_seqZ. lia. }
  unfold structRead, prepareRead, beginRead, newRead. rewrite Hb. simpl.
  rewrite Hsize in Hdbg.
  destruct (readNulls (formatData_ s) (b + 1) incomingNulls) as [fmt nulls1] eqn:Hrn.
  simpl. unfold applyMutation. simpl. rewrite Hmut, Hb, Hm. simpl.
  assert (negb debugBuild || negb (bool_decide (is_Some nulls1)) = true) as ->.
  { destruct debugBuild; [|done]. simpl in Hdbg. rewrite Hdbg by done. done. }
  assert (negb debugBuild || bool_decide (b = sizeOf rows - 1) = true) as ->.
  { apply orb_true_iff. right. apply bool_decide_eq_true. lia. }
  simpl. rewrite (addI32_fits b 1) by lia. simpl.
  unfold addOutputRows. simpl. rewrite Hnil. simpl.
  rewrite (addI32_fits offset b) by lia. simpl.
  rewrite (addI32_fits (offset + b) 1) by lia. simpl.
  eexists _, b. split_and!; done.
Qed.

(** X11.  On a reader with children, a [next] under a mutation whose bitmap
    marks every one of the [numValues] rows as deleted returns an empty
    batch: the result is a row container of no rows, the read offset has
    advanced by [numValues], and no child has been read, asked for values or
    changed.  This is stated for a result of row type and, in a debug
    build, for a struct without a null bitmap, as the check in [read]
    demands; and for a [numValues] and a read offset within [vector_size_t]
    whose sum fits it too, as the row numbers that [next] fills in and the
    sum of line 109 are 32-bit. *)
Theorem next_returns_empty_batch_when_all_rows_deleted s numValues result deleted :
  children_ s ≠ [] →
  0 < numValues < 2 ^ 31 →
  0 ≤ readOffset_ s ∧ readOffset_ s + numValues < 2 ^ 31 →
  rows_ s = seqZ 0 (sizeOf (rows_ s)) →
  isRow (typeOf result) = true →
  (∀ r, 0 ≤ r < numValues → isBitSet deleted r = true) →
  (debugBuild = true → (readNulls (formatData_ s) numValues None).2 = None) →
  ∃ s' v,
    structNext debugBuild s numValues (Some result) (Some (mkMutation (Some deleted)))
      = Ok (s', Some v) ∧
    vsize v = 0 ∧
    readOffset_ s' = readOffset_ s + numValues ∧
    children_ s' = children_ s ∧
    calls s' = calls s.
Proof.
  intros Hsome [Hn Hn31] Hfit Hdense Hrow Hall Hdbg. unfold structNext.
  rewrite bool_decide_eq_false_2 by done.
  set (k := sizeOf (rows_ s)) in *.
  rewrite Hdense, resize_iota by (lia || unfold k, sizeOf; lia).
  set (s0 := withMutation _ _ _).
  assert (sizeOf (seqZ 0 numValues) = numValues) as Hsize.
  { unfold sizeOf. rewrite length_seqZ. lia. }
  destruct (structRead_all_deleted s0 (readOffset_ s0) (rows_ s0) None deleted)
    as (s1 & b & Hread & Hb & Hro & Hch & Hcalls & Hout & Hhas); try done.
  { simpl. intros Hnil. apply (f_equal sizeOf) in Hnil. rewrite Hsize in Hnil.
    unfold sizeOf in Hnil. simpl in Hnil. lia. }
  { simpl. by rewrite Hsize. }
  { simpl. rewrite Hsize. lia. }
  { simpl. intros r Hr. apply elem_of_seqZ in Hr. apply Hall. lia. }
  { simpl. by rewrite Hsize. }
  rewrite Hread. simpl.
  assert (structOutputRows s1 = []) as ->.
  { unfold structOutputRows. by rewrite Hhas, orb_true_r. }
  unfold structGetValues. rewrite Hch. simpl.
  rewrite bool_decide_eq_false_2 by done. simpl. rewrite Hrow. simpl.
  destruct (resultContainer_row result) as (u & t & nulls & n & flag & fields & ->).
  simpl. eexists _, _. split_and!; [done|done|..|done|done].
  rewrite Hro. simpl in Hb. rewrite back_seqZ in Hb by done. injection Hb as <-.
  simpl. lia.
Qed.

End NextReadTheorems.

Section SkipComposition.
Context {R F : Type} `{ColumnReader R} `{FormatData F}.
Implicit Types s : Reader R F.

Lemma skipChildren_run (cs : list (option R)) :
  ∀ i numNonNulls numValues cs' es,
    skipChildren i cs numNonNulls numValues = Ok (cs', es) →
    ∀ j c, cs !! j = Some (Some c) →
      ∃ c1 k,
        skip c numNonNulls = Ok (c1, k) ∧
        cs' !! j = Some (Some (setReadOffsetRecursive c1 (toI32 (readOffset c1 + numValues)))).
Proof.
  induction cs as [|[c|] rest IH]; intros i nn nv cs' es Hrun j c' Hj; simpl in Hrun.
  - done.
  - apply bind_Ok in Hrun as ([c1 k] & Hskip & Hrun).
    apply bind_Ok in Hrun as ([rest' es'] & Hrest & [= <- _]).
    destruct j as [|j]; simpl in Hj.
    + injection Hj as <-. exists c1, k. split; [done|]. simpl. by rewrite toI32_wrapU64.
    + by apply (IH _ _ _ _ _ Hrest).
  - apply bind_Ok in Hrun as ([rest' es'] & Hrest & [= <- _]).
    destruct j as [|j]; simpl in Hj; [done|]. by apply (IH _ _ _ _ _ Hrest).
Qed.

Lemma structSkip_run s numValues s' r :
  structSkip s numValues = Ok (s', r) →
  r = numValues ∧ readOffset_ s' = readOffset_ s ∧
  ∀ j c, children_ s !! j = Some (Some c) →
    ∃ c1 k,
      skip c (skipNulls (formatData_ s) numValues).2 = Ok (c1, k) ∧
      children_ s' !! j
        = Some (Some (setReadOffsetRecursive c1 (toI32 (readOffset c1 + numValues)))).
Proof.
  unfold structSkip. destruct (skipNulls (formatData_ s) numValues) as [fmt nn].
  intros Hrun. apply bind_Ok in Hrun as ([cs es] & Hloop & [= <- <-]).
  split_and!; [done..|]. intros j c Hj. by apply (skipChildren_run _ _ _ _ _ _ Hloop).
Qed.

(** X12.  Two skips in a row add up: after [skip(a)] and then [skip(b)] the
    read offset of every child, and of every reader below it, is the child's
    old read offset plus [a + b], whatever number of values the format had
    the children skip each time; the two calls return [a] and [b], and the
    struct's own read offset is where it was.  This is stated for children
    whose [skip] leaves their own read offset alone and whose
    [setReadOffsetRecursive] reaches the readers below them, and for sums
    that fit [vector_size_t]. *)
Theorem skip_twice_adds_up s a b s1 s2 r1 r2 :
  skipKeepsReadOffset →
  setReadOffsetRecursiveReachesSubtree →
  structSkip s a = Ok (s1, r1) →
  structSkip s1 b = Ok (s2, r2) →
  (∀ i c, children_ s !! i = Some (Some c) →
     - 2 ^ 31 ≤ readOffset c + a < 2 ^ 31 ∧ - 2 ^ 31 ≤ readOffset c + a + b < 2 ^ 31) →
  r1 = a ∧ r2 = b ∧
  readOffset_ s2 = readOffset_ s ∧
  ∀ i c, children_ s !! i = Some (Some c) →
    ∃ c2,
      children_ s2 !! i = Some (Some c2) ∧
      readOffset c2 = readOffset c + (a + b) ∧
      Forall (eq (readOffset c + (a + b))) (subtreeReadOffsets c2).
Proof.
  intros Hkeep Hset Hfirst Hsecond Hrange.
  apply structSkip_run in Hfirst as (-> & Hro1 & Hch1).
  apply structSkip_run in Hsecond as (-> & Hro2 & Hch2).
  split_and!; [done|done|by rewrite Hro2|].
  intros i c Hi. destruct (Hrange i c Hi) as [Ha Hab].
  destruct (Hch1 i c Hi) as (c1 & k1 & Hskip1 & Hi1).
  rewrite (Hkeep _ _ _ _ Hskip1), toI32_small in Hi1 by done.
  destruct (Hch2 i _ Hi1) as (c2 & k2 & Hskip2 & Hi2).
  rewrite (Hkeep _ _ _ _ Hskip2) in Hi2.
  destruct (Hset c1 (readOffset c + a)) as [Hpos1 _]. rewrite Hpos1 in Hi2.
  rewrite toI32_small in Hi2 by lia.
  eexists. split; [exact Hi2|].
  replace (readOffset c + (a + b)) with (readOffset c + a + b) by lia.
  apply Hset.
Qed.

End SkipComposition.

(** ** On concrete readers *)

(** X1 on [exMixedReader]: the read calls the filtered child and never names
    position 0, where the constant stands. *)
Lemma read_leaves_constant_children_alone_witness :
  ∃ s' es,
    structRead false exMixedReader 0 (seqZ 0 5) None = Ok s' ∧
    calls s' = calls exMixedReader ++ es ∧
    CallRead 1 0 0 (seqZ 0 5) (Some 27) ∈ es ∧
    ∀ e, e ∈ es → eventSpec e ≠ Some 0%nat.
Proof.
  destruct (structRead false exMixedReader 0 (seqZ 0 5) None) as [s'|f] eqn:Hrun;
    [|by vm_compute in Hrun].
  destruct (read_leaves_constant_children_alone false exMixedReader 0 (seqZ 0 5) None s' Hrun)
    as (es & Hcalls & Hspecs).
  exists s', es. split_and!; [done|done|..].
  - vm_compute in Hrun. injection Hrun as <-. simpl in Hcalls. rewrite <- Hcalls.
    apply list_elem_of_lookup. by exists 1%nat.
  - intros e He Hzero. destruct (Hspecs e 0%nat He Hzero) as (c & Hc & Hconst).
    injection Hc as <-. discriminate Hconst.
Defined.

(** X2 on [exShortCircuitReader]: the one read of the call stands second,
    right after the alignment of the same child. *)
Lemma read_aligns_child_before_reading_witness :
  ∃ s' es,
    structRead false exShortCircuitReader 0 (seqZ 0 10) None = Ok s' ∧
    calls s' = calls exShortCircuitReader ++ es ∧
    readsFollowAdvance es ∧
    es !! 0%nat = Some (CallAdvanceFieldReader 0 0 0) ∧
    es !! 1%nat = Some (CallRead 0 0 0 (seqZ 0 10) None).
Proof.
  destruct (structRead false exShortCircuitReader 0 (seqZ 0 10) None) as [s'|f] eqn:Hrun;
    [|by vm_compute in Hrun].
  destruct (read_aligns_child_before_reading false exShortCircuitReader 0 (seqZ 0 10) None
              s' Hrun) as (es & Hcalls & Hfollow & _).
  exists s', es. split_and!; [done|done|done|..];
    vm_compute in Hrun; injection Hrun as <-; simpl in Hcalls; by rewrite <- Hcalls.
Defined.

(** X3 on [exValueFilterReader]. *)
Lemma read_rejects_value_filter_on_struct_witness :
  structRead false exValueFilterReader 0 (seqZ 0 5) None = Abort CheckFailed.
Proof.
  apply (proj2 (read_rejects_value_filter_on_struct false exValueFilterReader 0 (seqZ 0 5)
                  None eq_refl)); [reflexivity|discriminate].
Defined.

(** X4 on [exConstantReader], which has no children. *)
Lemma read_requires_children_witness :
  structRead false exConstantReader 0 (seqZ 0 5) None = Abort CheckFailed.
Proof.
  apply (proj2 (read_requires_children false exConstantReader 0 (seqZ 0 5) None eq_refl));
    [reflexivity|reflexivity|discriminate].
Defined.

(** X6 on [exMutatedReader]. *)
Lemma read_keeps_configuration_witness :
  ∃ s',
    structRead true exMutatedReader 0 (seqZ 0 5) None = Ok s' ∧
    mutation_ s' = Some (mkMutation (Some 10)) ∧
    inputRows_ s' = seqZ 0 5 ∧
    length (children_ s') = 1%nat.
Proof.
  destruct (structRead true exMutatedReader 0 (seqZ 0 5) None) as [s'|f] eqn:Hrun;
    [|by vm_compute in Hrun].
  destruct (read_keeps_configuration true exMutatedReader 0 (seqZ 0 5) None s' Hrun)
    as (Hconf & _ & Hinput & Hlen & _).
  injection Hconf as _ Hmut _ _ _.
  by exists s'.
Defined.

(** X7 on [exLazyReader]: the one child spec is at channel 0, and the field
    at channel 1 of the fresh container stays unset. *)
Lemma getValues_writes_only_projected_channels_witness :
  ∃ s' u t nulls flag fields,
    structGetValues exLazyReader [0; 1; 2] (Some exHeldRow)
      = Ok (s', Some (RowVector u t nulls 3 flag fields)) ∧
    atZ fields 1 = Some None ∧
    readOffset_ s' = readOffset_ exLazyReader.
Proof.
  destruct (structGetValues exLazyReader [0; 1; 2] (Some exHeldRow)) as [[s' out]|f] eqn:Hrun;
    [|by vm_compute in Hrun].
  destruct (getValues_writes_only_projected_channels exLazyReader [0; 1; 2] exHeldRow s' out
              Hrun)
    as (u & t & nulls0 & n0 & flag & fields0 & nulls & fields & Hcont & -> & Hother & Hframe & _).
  exists s', u, t, nulls, flag, fields. split_and!; [done|..].
  - rewrite Hother.
    + vm_compute in Hcont. by injection Hcont as <- <- <- <- <- <-.
    + intros c Hc _. simpl in Hc. apply list_elem_of_singleton in Hc as ->. discriminate.
  - unfold valuesFrame in Hframe. by injection Hframe as -> _ _ _ _ _ _ _ _ _ _ _.
Defined.

(** X8 on [exMixedReader]: the constant 7 at channel 1, for three rows. *)
Lemma getValues_sets_constant_field_witness :
  ∃ s' u t nulls flag fields v,
    structGetValues exMixedReader [0; 1; 2] (Some exHeldRow)
      = Ok (s', Some (RowVector u t nulls 3 flag fields)) ∧
    atZ fields 1 = Some (Some v) ∧
    isConstantEncoding v = true ∧ vsize v = 3 ∧ valueAt v 0 = Some 7.
Proof.
  destruct (structGetValues exMixedReader [0; 1; 2] (Some exHeldRow)) as [[s' out]|f] eqn:Hrun;
    [|by vm_compute in Hrun].
  destruct (getValues_sets_constant_field exMixedReader [0; 1; 2] exHeldRow s' out 0%nat
              (exConstantSpec 1 7) Hrun)
    as (cv & u & t & nulls & flag & fields & v & Hcv & -> & Hfield & Henc & Hsize & Hval);
    [discriminate|reflexivity|reflexivity|reflexivity| |].
  { intros j c' Hlt Hj _. destruct j as [|[|j]]; [lia| |done].
    injection Hj as <-. discriminate. }
  injection Hcv as <-.
  by exists s', u, t, nulls, flag, fields, v.
Defined.

(** X9 on [exLazyReader]: the child is projected without a filter and comes
    back as a lazy vector of three rows bound to epoch 0; on [exMixedReader]
    the filtered child is asked for its values. *)
Lemma getValues_serves_child_eagerly_or_lazily_witness :
  (∃ s' u t nulls flag fields ty,
     structGetValues exLazyReader [0; 1; 2] (Some exHeldRow)
       = Ok (s', Some (RowVector u t nulls 3 flag fields)) ∧
     calls s' = [] ∧
     atZ fields 0 = Some (Some (LazyVector 1 ty 3 (mkLoader 0 0) None))) ∧
  (∃ s' out es,
     structGetValues exMixedReader [0; 1; 2] (Some exHeldRow) = Ok (s', out) ∧
     calls s' = calls exMixedReader ++ es ∧
     CallGetValues 1 0 [0; 1; 2] ∈ es).
Proof.
  split.
  - destruct (structGetValues exLazyReader [0; 1; 2] (Some exHeldRow)) as [[s' out]|f] eqn:Hrun;
      [|by vm_compute in Hrun].
    destruct (getValues_serves_child_eagerly_or_lazily exLazyReader [0; 1; 2] exHeldRow s' out
                0%nat (exSpec 0 0 true false) Hrun)
      as (es & u & t & nulls & flag & fields & Hcalls & -> & _ & Hserved);
      [discriminate|reflexivity|reflexivity|reflexivity|discriminate| |].
    { intros j c' Hlt Hj. by destruct j as [|[|j]]; [lia|..]. }
    assert (es = []) as ->.
    { vm_compute in Hrun. injection Hrun as <- _. simpl in Hcalls. by rewrite <- Hcalls. }
    destruct Hserved as [Hin|(_ & _ & _ & ty & Hfield)]; [by apply elem_of_nil in Hin|].
    exists s', u, t, nulls, flag, fields, ty. by rewrite Hcalls.
  - destruct (structGetValues exMixedReader [0; 1; 2] (Some exHeldRow)) as [[s' out]|f] eqn:Hrun;
      [|by vm_compute in Hrun].
    destruct (getValues_serves_child_eagerly_or_lazily exMixedReader [0; 1; 2] exHeldRow s' out
                1%nat (exSpec 0 0 true true) Hrun)
      as (es & u & t & nulls & flag & fields & Hcalls & -> & _ & Hserved);
      [discriminate|reflexivity|reflexivity|reflexivity|discriminate| |].
    { intros j c' Hlt Hj. by destruct j as [|[|j]]; [lia|lia|]. }
    destruct Hserved as [Hin|(_ & Hfilter & _)]; [|discriminate Hfilter].
    by eexists s', _, es.
Defined.

(** X10 on [exLazyReader]: five rows from row 0. *)
Lemma next_reads_then_gets_values_witness :
  ∃ s' v,
    structNext false exLazyReader 5 (Some exHeldRow) None = Ok (s', Some v) ∧
    rows_ s' = seqZ 0 5 ∧ vsize v = 5 ∧ readOffset_ s' = 5.
Proof.
  destruct (structNext false exLazyReader 5 (Some exHeldRow) None) as [[s' out]|f] eqn:Hrun;
    [|by vm_compute in Hrun].
  destruct (next_reads_then_gets_values false exLazyReader 5 (Some exHeldRow) None s' out)
    as (Hrows & _ & _ & _ & (v & -> & Hsize) & Hro); [discriminate|lia|reflexivity|done|].
  exists s', v. split_and!; [done|done| |by apply Hro].
  rewrite Hsize. vm_compute in Hrun. by injection Hrun as <- _.
Defined.

(** X11 on [exLazyReader], in a debug build: the bitmap deletes rows 0 to
    4. *)
Lemma next_returns_empty_batch_when_all_rows_deleted_witness :
  ∃ s' v,
    structNext true exLazyReader 5 (Some exHeldRow) (Some (mkMutation (Some 31)))
      = Ok (s', Some v) ∧
    vsize v = 0 ∧ readOffset_ s' = 5 ∧ calls s' = [].
Proof.
  destruct (next_returns_empty_batch_when_all_rows_deleted true exLazyReader 5 exHeldRow 31)
    as (s' & v & Hrun & Hsize & Hro & _ & Hcalls).
  - discriminate.
  - lia.
  - simpl. lia.
  - reflexivity.
  - reflexivity.
  - intros r Hr.
    assert (r = 0 ∨ r = 1 ∨ r = 2 ∨ r = 3 ∨ r = 4) as Hcases by lia.
    destruct Hcases as [->|[->|[->|[->| ->]]]]; reflexivity.
  - intros _. reflexivity.
  - by exists s', v.
Defined.

(** X12 on [exSkipReader]: five rows, then three. *)
Lemma skip_twice_adds_up_witness :
  ∃ s1 s2 c2,
    structSkip exSkipReader 5 = Ok (s1, 5) ∧
    structSkip s1 3 = Ok (s2, 3) ∧
    children_ s2 !! 2%nat = Some (Some c2) ∧ readOffset c2 = 108.
Proof.
  destruct (structSkip exSkipReader 5) as [[s1 r1]|f] eqn:Hfirst; [|by vm_compute in Hfirst].
  destruct (structSkip s1 3) as [[s2 r2]|f] eqn:Hsecond.
  2:{ vm_compute in Hfirst. injection Hfirst as <- _. by vm_compute in Hsecond. }
  destruct (skip_twice_adds_up exSkipReader 5 3 s1 s2 r1 r2
              leaf_skipKeepsReadOffset leaf_setReadOffsetRecursiveReachesSubtree
              Hfirst Hsecond) as (-> & -> & _ & Hchildren).
  { intros i c Hi.
    destruct i as [|[|[|i]]]; simpl in Hi; try done; injection Hi as <-; simpl; lia. }
  destruct (Hchildren 2%nat (mkLeaf 100 [] true 0 7 0) eq_refl) as (c2 & Hc2 & Hro & _).
  by exists s1, s2, c2.
Defined.

(** * Properties of the [map_union_sum] aggregate *)

Module MapUnionSumProperties.
Import MapUnionSum.

Section AccumulatorTheorems.
Context {K : Type} `{Iteration K} `{CheckedArithmetic}.
Implicit Types acc : Accumulator K.

Lemma result_bind_Returns {A B} (m : Result A) (k : A → Result B) b :
  m ≫= k = Returns b → ∃ a, m = Returns a ∧ k a = Returns b.
Proof. destruct m; simpl; [eauto|done]. Qed.

Lemma isNullAt_Returns {T} (v : Column T) row null :
  isNullAt v row = Returns null →
  ∃ entry, atZ v row = Some entry ∧ null = bool_decide (entry = None).
Proof.
  unfold isNullAt, entryAt. destruct (atZ v row) as [entry|]; [|done].
  intros [= <-]. by exists entry.
Qed.

Lemma valueAt_Returns {T} (v : Column T) row value :
  valueAt v row = Returns value → atZ v row = Some (Some value).
Proof.
  unfold valueAt, entryAt. destruct (atZ v row) as [[x|]|]; try done. by intros [= <-].
Qed.

(** One call of [addValue]: the sum of the key grows by the value, a null
    counting as 0. *)
Lemma addValue_spec acc key mapValues row acc' :
  checkedPlusContract →
  addValue acc key mapValues row = Returns acc' →
  let addend := default 0 (mjoin (atZ mapValues row)) in
  sums acc' = <[key := sumOf acc key + addend]> (sums acc) ∧
  minValue ≤ sumOf acc key + addend ≤ maxValue ∨
  (sums acc' = <[key := sumOf acc key + addend]> (sums acc) ∧ addend = 0).
Proof.
  intros (Hinteger & _ & Hplus). unfold addValue, plusAssign. rewrite Hinteger. intros Hrun.
  apply result_bind_Returns in Hrun as (null & Hnull & Hrun).
  apply isNullAt_Returns in Hnull as (entry & Hentry & ->).
  rewrite Hentry. simpl. destruct entry as [value|]; simpl in *.
  - apply result_bind_Returns in Hrun as (value' & Hvalue & Hrun).
    apply valueAt_Returns in Hvalue. rewrite Hentry in Hvalue. injection Hvalue as <-.
    apply result_bind_Returns in Hrun as (sum & Hsum & [= <-]).
    rewrite Hplus in Hsum. case_bool_decide; [|done]. injection Hsum as <-. by left.
  - injection Hrun as <-. by right.
Qed.

Lemma contribution_not_mentioned (key : K) entries :
  ¬ mentions key entries → contribution key entries = 0.
Proof.
  unfold mentions. induction entries as [|entry rest IH]; simpl; [done|].
  intros Hnot. rewrite Exists_cons in Hnot. case_decide; [by destruct Hnot; left|].
  apply IH. intros ?. apply Hnot. by right.
Qed.

Lemma rowEntries_cons (mapKeys : Column K) mapValues offset size :
  0 < size →
  rowEntries mapKeys mapValues offset size =
  (mjoin (atZ mapKeys offset), mjoin (atZ mapValues offset))
    :: rowEntries mapKeys mapValues (offset + 1) (size - 1).
Proof.
  intros Hsize. unfold rowEntries. rewrite seqZ_cons by done. simpl.
  rewrite Z.add_0_r. f_equal.
  rewrite <- (fmap_add_seqZ 1 0), <- list_fmap_compose.
  apply list_fmap_ext. intros _ i _. simpl. by rewrite !Z.add_assoc.
Qed.

(** The loop of [addValues] over the entries of a map. *)
Lemma addValuesFrom_spec (mapKeys : Column K) mapValues offset :
  checkedPlusContract →
  ∀ positions acc acc',
    addValuesFrom acc mapKeys mapValues offset positions = Returns acc' →
    let entries :=
      (λ i, (mjoin (atZ mapKeys (offset + i)), mjoin (atZ mapValues (offset + i))))
        <$> positions in
    (inRange acc → inRange acc') ∧
    ∀ key,
      (mentions key entries →
         sums acc' !! key = Some (sumOf acc key + contribution key entries)) ∧
      (¬ mentions key entries → sums acc' !! key = sums acc !! key).
Proof.
  intros Hcontract. induction positions as [|i rest IH]; intros acc acc' Hrun;
    cbn [addValuesFrom] in Hrun; cbv zeta.
  { injection Hrun as <-. split; [done|]. intros key. split; [|done].
    intros Hm. by apply Exists_nil in Hm. }
  rewrite fmap_cons.
  apply result_bind_Returns in Hrun as (null & Hnull & Hrun).
  apply isNullAt_Returns in Hnull as (entry & Hentry & ->).
  apply result_bind_Returns in Hrun as (acc1 & Hstep & Hrun).
  destruct (IH _ _ Hrun) as [Hrange IHkeys]. rewrite Hentry.
  set (restEntries := _ <$> rest) in *. clearbody restEntries.
  set (addend := default 0 (mjoin (atZ mapValues (offset + i)))).
  destruct entry as [key0|]; simpl in Hstep.
  - apply result_bind_Returns in Hstep as (key0' & Hkey & Hstep).
    apply valueAt_Returns in Hkey. rewrite Hentry in Hkey. injection Hkey as <-.
    pose proof (addValue_spec _ _ _ _ _ Hcontract Hstep) as Hadd. simpl in Hadd.
    fold addend in Hadd.
    assert (sums acc1 = <[key0 := sumOf acc key0 + addend]> (sums acc)) as Hsums
      by (by destruct Hadd as [[? _]|[? _]]).
    split.
    + intros Hin. apply Hrange. unfold inRange. rewrite Hsums.
      apply map_Forall_insert_2; [|done].
      destruct Hadd as [[_ ?]|[_ Hzero]]; [done|]. rewrite Hzero, Z.add_0_r.
      unfold sumOf. destruct (sums acc !! key0) as [sum|] eqn:Hsum; simpl.
      * by apply (Hin key0).
      * by destruct Hcontract as (_ & ? & _).
    + intros key. destruct (IHkeys key) as [IHyes IHno]. unfold mentions in *.
      rewrite Exists_cons. simpl. fold addend. split.
      * intros Hm. destruct (decide (mentions key restEntries)) as [Hrest|Hrest].
        -- rewrite (IHyes Hrest). f_equal. unfold sumOf at 1. rewrite Hsums.
           case_decide as Hkey; [injection Hkey as ->|].
           ++ rewrite lookup_insert_eq. simpl. lia.
           ++ rewrite lookup_insert_ne by congruence. done.
        -- rewrite (IHno Hrest), (contribution_not_mentioned _ _ Hrest), Hsums.
           destruct Hm as [[= ->]|Hm]; [|done].
           rewrite lookup_insert_eq. rewrite decide_True by done. f_equal. lia.
      * intros Hnot. rewrite IHno by (intros ?; apply Hnot; by right).
        rewrite Hsums. apply lookup_insert_ne. intros ->. apply Hnot. by left.
  - injection Hstep as <-. split; [done|]. intros key.
    destruct (IHkeys key) as [IHyes IHno]. unfold mentions in *.
    rewrite Exists_cons. simpl. split.
    + intros [?|Hm]; [done|]. by apply IHyes.
    + intros Hnot. apply IHno. intros ?. apply Hnot. by right.
Qed.


Lemma addValues_run acc (mapVector : MapVector K) mapKeys mapValues row acc' :
  addValues acc mapVector mapKeys mapValues row = Returns acc' →
  ∃ offset size,
    offsetAt mapVector row = Returns offset ∧
    sizeAt mapVector row = Returns size ∧
    addValuesFrom acc mapKeys mapValues offset (seqZ 0 size) = Returns acc'.
Proof.
  unfold addValues. intros Hrun.
  apply result_bind_Returns in Hrun as (offset & Hoffset & Hrun).
  apply result_bind_Returns in Hrun as (size & Hsize & Hrun).
  by exists offset, size.
Qed.

(** X13.  For an integer sum type, [addValues] adds a map to the accumulator
    key by key.  When it returns, the sum of every key the map mentions is
    its old sum, 0 for a key that is new, plus the values the map holds for
    the key, a null value counting as 0; so a key that comes with null
    values only is entered with the sum it had, or 0.  Entries with a null
    key are ignored, and the sum of a key the map does not mention is as it
    was.  The checked addition is relied on to return the exact sum when it
    returns.  Nothing is said of [float] and [double], which add unchecked
    and round. *)
Theorem addValues_sums_per_key acc (mapVector : MapVector K) mapKeys mapValues row acc' :
  checkedPlusContract →
  addValues acc mapVector mapKeys mapValues row = Returns acc' →
  ∃ offset size,
    offsetAt mapVector row = Returns offset ∧
    sizeAt mapVector row = Returns size ∧
    let entries := rowEntries mapKeys mapValues offset size in
    ∀ key,
      (mentions key entries →
         sums acc' !! key = Some (sumOf acc key + contribution key entries)) ∧
      (¬ mentions key entries → sums acc' !! key = sums acc !! key).
Proof.
  intros Hcontract Hrun.
  apply addValues_run in Hrun as (offset & size & Hoffset & Hsize & Hrun).
  exists offset, size. split; [done|]. split; [done|].
  by apply (addValuesFrom_spec _ _ _ Hcontract) in Hrun as [_ Hkeys].
Qed.

(** X14.  For an integer sum type, no sum leaves the range of [S]
    unnoticed: if every sum of the accumulator is a value of [S] before
    [addValues], so is every sum after it, whenever it returns.  The checked
    addition is relied on to return the exact sum when it fits and to raise
    otherwise.  Nothing is said of [float] and [double], whose addition is
    not checked. *)
Theorem addValues_keeps_sums_in_range acc (mapVector : MapVector K) mapKeys mapValues row acc' :
  checkedPlusContract →
  inRange acc →
  addValues acc mapVector mapKeys mapValues row = Returns acc' →
  inRange acc'.
Proof.
  intros Hcontract Hin Hrun.
  apply addValues_run in Hrun as (offset & size & _ & _ & Hrun).
  apply (addValuesFrom_spec _ _ _ Hcontract) in Hrun as [Hrange _]. by apply Hrange.
Qed.

#[local] Instance mentions_dec (key : K) entries : Decision (mentions key entries).
Proof. unfold mentions. apply _. Qed.

(** X15.  For an integer sum type, the order of two maps does not show in
    the sums: adding one map and then another leaves the accumulator that
    adding them the other way round leaves, whenever all four calls return.
    Nothing is said of [float] and [double], where the rounding depends on
    the order. *)
Theorem addValues_in_either_order
    acc (mapVector1 mapVector2 : MapVector K) keys1 values1 row1 keys2 values2 row2
    acc1 acc12 acc2 acc21 :
  checkedPlusContract →
  addValues acc mapVector1 keys1 values1 row1 = Returns acc1 →
  addValues acc1 mapVector2 keys2 values2 row2 = Returns acc12 →
  addValues acc mapVector2 keys2 values2 row2 = Returns acc2 →
  addValues acc2 mapVector1 keys1 values1 row1 = Returns acc21 →
  acc12 = acc21.
Proof.
  intros Hcontract Ha Hab Hb Hba.
  apply addValues_run in Ha as (o1 & n1 & Ho1 & Hn1 & Ha).
  apply addValues_run in Hab as (o2 & n2 & Ho2 & Hn2 & Hab).
  apply addValues_run in Hb as (o2' & n2' & Ho2' & Hn2' & Hb).
  apply addValues_run in Hba as (o1' & n1' & Ho1' & Hn1' & Hba).
  rewrite Ho2 in Ho2'. injection Ho2' as <-. rewrite Hn2 in Hn2'. injection Hn2' as <-.
  rewrite Ho1 in Ho1'. injection Ho1' as <-. rewrite Hn1 in Hn1'. injection Hn1' as <-.
  apply (addValuesFrom_spec _ _ _ Hcontract) in Ha as [_ Ha].
  apply (addValuesFrom_spec _ _ _ Hcontract) in Hab as [_ Hab].
  apply (addValuesFrom_spec _ _ _ Hcontract) in Hb as [_ Hb].
  apply (addValuesFrom_spec _ _ _ Hcontract) in Hba as [_ Hba].
  cbv zeta in *.
  set (entries1 := _ <$> seqZ 0 n1) in *. set (entries2 := _ <$> seqZ 0 n2) in *.
  destruct acc12 as [sums12], acc21 as [sums21]. f_equal. simpl in *.
  apply map_eq. intros key.
  destruct (Ha key) as [Hyes1 Hno1], (Hab key) as [Hyes12 Hno12].
  destruct (Hb key) as [Hyes2 Hno2], (Hba key) as [Hyes21 Hno21].
  unfold sumOf in *.
  destruct (decide (mentions key entries1)) as [Hm1|Hm1],
           (decide (mentions key entries2)) as [Hm2|Hm2].
  - rewrite (Hyes12 Hm2), (Hyes21 Hm1), (Hyes1 Hm1), (Hyes2 Hm2). simpl. f_equal. lia.
  - rewrite (Hno12 Hm2), (Hyes21 Hm1), (Hyes1 Hm1), (Hno2 Hm2). done.
  - rewrite (Hyes12 Hm2), (Hno21 Hm1), (Hno1 Hm1), (Hyes2 Hm2). done.
  - rewrite (Hno12 Hm2), (Hno21 Hm1), (Hno1 Hm1), (Hno2 Hm2). done.
Qed.



End AccumulatorTheorems.

End MapUnionSumProperties.

Module MapUnionSumExtraction.
Import MapUnionSum MapUnionSumProperties.

Section ExtractTheorems.
Context {K : Type} `{Iteration K} `{CheckedArithmetic}.
Implicit Types acc : Accumulator K.

Lemma set_spec {T} (v : Column T) idx value :
  0 ≤ idx < sizeOf v → set v idx value = Returns (setZ v idx (Some value)).
Proof.
  intros Hidx. unfold set. by destruct (proj2 (atZ_is_Some v idx) Hidx) as [? ->].
Qed.

Lemma sizeOf_setZ {A} (l : list A) i x : sizeOf (setZ l i x) = sizeOf l.
Proof. unfold sizeOf. by rewrite length_setZ. Qed.

Lemma extractEntries_spec (entries : list (K * Z)) :
  ∀ (mapKeys : Column K) (mapValues : Column Z) index,
    0 ≤ index →
    index + sizeOf entries ≤ sizeOf mapKeys →
    index + sizeOf entries ≤ sizeOf mapValues →
    ∃ keys' values',
      extractEntries entries mapKeys mapValues index = Returns (keys', values') ∧
      sizeOf keys' = sizeOf mapKeys ∧ sizeOf values' = sizeOf mapValues ∧
      (∀ j, ¬ (index ≤ j < index + sizeOf entries) →
         atZ keys' j = atZ mapKeys j ∧ atZ values' j = atZ mapValues j) ∧
      (∀ (n : nat) key sum, entries !! n = Some (key, sum) →
         atZ keys' (index + Z.of_nat n) = Some (Some key) ∧
         atZ values' (index + Z.of_nat n) = Some (Some sum)).
Proof.
  induction entries as [|[key sum] rest IH]; intros mapKeys mapValues index Hindex Hk Hv.
  { exists mapKeys, mapValues. split_and!; try done. }
  unfold sizeOf in Hk, Hv. simpl in Hk, Hv.
  simpl. rewrite set_spec by (unfold sizeOf; lia). simpl.
  rewrite set_spec by (unfold sizeOf; lia). simpl.
  destruct (IH (setZ mapKeys index (Some key)) (setZ mapValues index (Some sum)) (index + 1))
    as (keys' & values' & Hrun & Hlk & Hlv & Hother & Hset).
  { lia. } { rewrite sizeOf_setZ. unfold sizeOf. lia. }
  { rewrite sizeOf_setZ. unfold sizeOf. lia. }
  exists keys', values'. rewrite !sizeOf_setZ in *. split_and!; try done.
  - intros j Hj. unfold sizeOf in Hj. simpl in Hj.
    destruct (Hother j) as [-> ->]; [unfold sizeOf; lia|].
    rewrite !atZ_setZ_ne by lia. done.
  - intros [|n] key' sum' Hn; simpl in Hn.
    + injection Hn as <- <-. rewrite Z.add_0_r.
      destruct (Hother index) as [-> ->]; [lia|].
      rewrite !atZ_setZ_eq; [done|apply atZ_is_Some; unfold sizeOf; lia..].
    + replace (index + Z.of_nat (S n)) with (index + 1 + Z.of_nat n) by lia.
      by apply Hset.
Qed.

Lemma rowEntries_ext (keys1 keys2 : Column K) values1 values2 offset size :
  (∀ j, offset ≤ j < offset + size →
     atZ keys1 j = atZ keys2 j ∧ atZ values1 j = atZ values2 j) →
  rowEntries keys1 values1 offset size = rowEntries keys2 values2 offset size.
Proof.
  intros Hsame. unfold rowEntries. apply list_fmap_ext. intros n i Hi.
  apply lookup_seqZ in Hi as [-> Hlt].
  destruct (Hsame (offset + (0 + Z.of_nat n))) as [-> ->]; [lia|done].
Qed.

Lemma rowEntries_written (keys' : Column K) values' offset (entries : list (K * Z)) :
  (∀ (n : nat) key sum, entries !! n = Some (key, sum) →
     atZ keys' (offset + Z.of_nat n) = Some (Some key) ∧
     atZ values' (offset + Z.of_nat n) = Some (Some sum)) →
  rowEntries keys' values' offset (sizeOf entries)
  = (λ entry, (Some entry.1, Some entry.2)) <$> entries.
Proof.
  intros Hset. unfold rowEntries. apply list_eq. intros n.
  rewrite !list_lookup_fmap.
  destruct (entries !! n) as [[key sum]|] eqn:Hn; simpl.
  - rewrite lookup_seqZ_lt by (apply lookup_lt_Some in Hn; unfold sizeOf; lia). simpl.
    rewrite Z.add_0_l. destruct (Hset n key sum Hn) as [-> ->]. done.
  - rewrite lookup_seqZ_ge; [done|]. apply lookup_ge_None in Hn. unfold sizeOf. lia.
Qed.

Lemma iterate_size acc : iterationContract → sizeOf (iterate (sums acc)) = size acc.
Proof.
  intros Hiter. unfold sizeOf, size. by rewrite (Hiter (sums acc)), length_map_to_list.
Qed.

(** What [extractValues] of an accumulator leaves in the two columns. *)
Lemma extractValues_spec acc (mapKeys : Column K) (mapValues : Column Z) offset :
  iterationContract →
  0 ≤ offset →
  offset + size acc ≤ sizeOf mapKeys →
  offset + size acc ≤ sizeOf mapValues →
  ∃ keys' values',
    extractValues acc mapKeys mapValues offset = Returns (keys', values', size acc) ∧
    sizeOf keys' = sizeOf mapKeys ∧ sizeOf values' = sizeOf mapValues ∧
    (∀ j, ¬ (offset ≤ j < offset + size acc) →
       atZ keys' j = atZ mapKeys j ∧ atZ values' j = atZ mapValues j) ∧
    rowEntries keys' values' offset (size acc)
    = (λ entry, (Some entry.1, Some entry.2)) <$> iterate (sums acc).
Proof.
  intros Hiter Hoffset Hk Hv. pose proof (iterate_size acc Hiter) as Hsize.
  destruct (extractEntries_spec (iterate (sums acc)) mapKeys mapValues offset)
    as (keys' & values' & Hrun & Hlk & Hlv & Hother & Hset); [lia..|].
  exists keys', values'. unfold extractValues. rewrite Hrun. simpl.
  split_and!; [done..| |].
  - intros j Hj. apply Hother. lia.
  - rewrite <- Hsize. by apply rowEntries_written.
Qed.

Lemma entriesOf_iterate acc :
  iterationContract →
  (λ entry : K * Z, (Some entry.1, Some entry.2)) <$> iterate (sums acc)
  ≡ₚ entriesOf (sums acc).
Proof. intros Hiter. unfold entriesOf. by rewrite (Hiter (sums acc)). Qed.

(** X16.  [extractValues] of an accumulator writes every entry of the map
    exactly once: given room for them in both columns, it returns the number
    of entries, the positions from [offset] on hold the keys with their
    sums, each pair once and none of them null, in the order of the hash
    map's iteration, and every other position of the two columns is as it
    was. *)
Theorem extractValues_writes_every_entry_once
    acc (mapKeys : Column K) (mapValues : Column Z) offset :
  iterationContract →
  0 ≤ offset →
  offset + size acc ≤ sizeOf mapKeys →
  offset + size acc ≤ sizeOf mapValues →
  ∃ keys' values',
    extractValues acc mapKeys mapValues offset = Returns (keys', values', size acc) ∧
    sizeOf keys' = sizeOf mapKeys ∧ sizeOf values' = sizeOf mapValues ∧
    (∀ j, ¬ (offset ≤ j < offset + size acc) →
       atZ keys' j = atZ mapKeys j ∧ atZ values' j = atZ mapValues j) ∧
    rowEntries keys' values' offset (size acc) ≡ₚ entriesOf (sums acc).
Proof.
  intros Hiter Hoffset Hk Hv.
  destruct (extractValues_spec acc mapKeys mapValues offset Hiter Hoffset Hk Hv)
    as (keys' & values' & Hrun & Hlk & Hlv & Hother & Hentries).
  exists keys', values'. split_and!; [done..|].
  rewrite Hentries. by apply entriesOf_iterate.
Qed.


Lemma size_nonneg acc : 0 ≤ size acc.
Proof. unfold size. lia. Qed.

Lemma elementsOf_nonneg (store : list (Group K)) groups positions :
  0 ≤ elementsOf store groups positions.
Proof.
  induction positions as [|i rest IH]; simpl; [done|].
  destruct (groupAt store groups i) as [group|]; [|lia].
  destruct (isNull group); [lia|]. pose proof (size_nonneg (value group)). lia.
Qed.

Lemma countElementsFrom_spec (store : list (Group K)) groups positions :
  ∀ size0,
    (∀ i, i ∈ positions → ∃ group, groupAt store groups i = Returns group) →
    ∃ total,
      countElementsFrom store groups positions size0 = Returns total ∧
      size0 + elementsOf store groups positions ≤ total.
Proof.
  induction positions as [|i rest IH]; intros size0 Hgroups; simpl.
  { exists size0. split; [done|lia]. }
  destruct (Hgroups i) as [group Hgroup]; [by left|]. rewrite Hgroup. simpl.
  destruct (IH (size0 + size (value group))) as (total & Hrun & Hle).
  { intros j Hj. apply Hgroups. by right. }
  exists total. split; [done|]. pose proof (size_nonneg (value group)).
  destruct (isNull group); lia.
Qed.

Lemma setRow_spec (m : MapVector K) i null offset size' :
  0 ≤ i < sizeOf (rowNulls m) →
  sizeOf (rowOffsets m) = sizeOf (rowNulls m) →
  sizeOf (rowSizes m) = sizeOf (rowNulls m) →
  setRow m i null offset size'
  = Returns (mkMapVector (setZ (rowNulls m) i null) (setZ (rowOffsets m) i offset)
               (setZ (rowSizes m) i size') (mapKeys m) (mapValues m)).
Proof.
  intros Hi Ho Hs. unfold setRow.
  destruct (proj2 (atZ_is_Some (rowNulls m) i) Hi) as [? ->].
  destruct (proj2 (atZ_is_Some (rowOffsets m) i)) as [? ->]; [lia|].
  by destruct (proj2 (atZ_is_Some (rowSizes m) i)) as [? ->]; [lia|].
Qed.

(** The loop over the groups: every group gets its row, and the rows lie one
    after the other from [offset] on. *)
Lemma extractGroups_spec (store : list (Group K)) groups :
  iterationContract →
  ∀ positions (m : MapVector K) offset,
    NoDup positions →
    (∀ i, i ∈ positions →
       0 ≤ i < sizeOf (rowNulls m) ∧ ∃ group, groupAt store groups i = Returns group) →
    sizeOf (rowOffsets m) = sizeOf (rowNulls m) →
    sizeOf (rowSizes m) = sizeOf (rowNulls m) →
    sizeOf (mapValues m) = sizeOf (mapKeys m) →
    0 ≤ offset →
    offset + elementsOf store groups positions ≤ sizeOf (mapKeys m) →
    ∃ m',
      extractGroups store groups positions m offset = Returns m' ∧
      sizeOf (rowNulls m') = sizeOf (rowNulls m) ∧
      sizeOf (rowOffsets m') = sizeOf (rowNulls m) ∧
      sizeOf (rowSizes m') = sizeOf (rowNulls m) ∧
      sizeOf (mapKeys m') = sizeOf (mapKeys m) ∧
      sizeOf (mapValues m') = sizeOf (mapKeys m) ∧
      (∀ j, j < offset →
         atZ (mapKeys m') j = atZ (mapKeys m) j ∧ atZ (mapValues m') j = atZ (mapValues m) j) ∧
      (∀ i, i ∉ positions →
         atZ (rowNulls m') i = atZ (rowNulls m) i ∧
         atZ (rowOffsets m') i = atZ (rowOffsets m) i ∧
         atZ (rowSizes m') i = atZ (rowSizes m) i) ∧
      (∀ i group, i ∈ positions → groupAt store groups i = Returns group →
         rowHolds m' i group offset).
Proof.
  intros Hiter. induction positions as [|i rest IH];
    intros m offset Hnodup Hpos Hlo Hls Hlv Hoffset Hroom.
  { exists m. split_and!; try done. intros i group Hi. by apply elem_of_nil in Hi. }
  apply NoDup_cons in Hnodup as [Hnotin Hnodup].
  destruct (Hpos i) as [Hi [group Hgroup]]; [by left|].
  simpl in Hroom. rewrite Hgroup in Hroom.
  pose proof (elementsOf_nonneg store groups rest) as Hrest.
  simpl. rewrite Hgroup. simpl. destruct (isNull group) eqn:Hnull.
  - rewrite setRow_spec by done. simpl.
    match goal with |- context [extractGroups store groups rest ?m1 offset] =>
      destruct (IH m1 offset) as (m' & Hrun & Hln & Hlo' & Hls' & Hlk' & Hlv' & Hlow & Hother & Hrows)
    end;
      [done
      |intros j Hj; simpl; rewrite sizeOf_setZ; apply Hpos; by right
      |simpl; by rewrite !sizeOf_setZ
      |simpl; by rewrite !sizeOf_setZ
      |done
      |done
      |simpl; lia
      |].
    simpl in *. rewrite ?sizeOf_setZ in *.
    exists m'. split_and!; try done.
    + intros j Hj. destruct (Hother j) as (-> & -> & ->).
      { intros ?. apply Hj. by right. }
      rewrite !atZ_setZ_ne; [done|intros ->; apply Hj; by left..].
    + intros j group' Hj Hgroup'. apply elem_of_cons in Hj as [->|Hj]; [|by apply Hrows].
      rewrite Hgroup in Hgroup'. injection Hgroup' as <-.
      destruct (Hother i Hnotin) as (Hn & Ho & Hs). unfold rowHolds. rewrite Hnull.
      rewrite Hn, Ho, Hs. rewrite !atZ_setZ_eq; [done|apply atZ_is_Some; lia..].
  - pose proof (size_nonneg (value group)) as Hsize.
    destruct (extractValues_spec (value group) (mapKeys m) (mapValues m) offset)
      as (keys' & values' & Hextract & Hlk1 & Hlv1 & Hother1 & Hentries1); [done|lia..|].
    rewrite Hextract. simpl.
    rewrite setRow_spec by done. simpl.
    match goal with |- context [extractGroups store groups rest ?m1 ?o1] =>
      destruct (IH m1 o1) as (m' & Hrun & Hln & Hlo' & Hls' & Hlk' & Hlv' & Hlow & Hother & Hrows)
    end;
      [done
      |intros j Hj; simpl; rewrite sizeOf_setZ; apply Hpos; by right
      |simpl; by rewrite !sizeOf_setZ
      |simpl; by rewrite !sizeOf_setZ
      |simpl; lia
      |lia
      |simpl; lia
      |].
    simpl in *. rewrite ?sizeOf_setZ in *.
    exists m'. split_and!; try done; try lia.
    + intros j Hj. destruct (Hlow j) as [-> ->]; [lia|]. apply Hother1. lia.
    + intros j Hj. destruct (Hother j) as (-> & -> & ->).
      { intros ?. apply Hj. by right. }
      rewrite !atZ_setZ_ne; [done|intros ->; apply Hj; by left..].
    + intros j group' Hj Hgroup'. apply elem_of_cons in Hj as [->|Hj].
      * rewrite Hgroup in Hgroup'. injection Hgroup' as <-.
        destruct (Hother i Hnotin) as (Hn & Ho & Hs). unfold rowHolds. rewrite Hnull.
        rewrite Hn, Ho, Hs. rewrite !atZ_setZ_eq by (apply atZ_is_Some; lia).
        split; [done|]. exists offset. split_and!; [lia|done|done|lia|].
        rewrite <- Hentries1. apply rowEntries_ext. intros j Hj. apply Hlow. lia.
      * destruct (Hrows j group' Hj Hgroup') as [Hflag Hrow]. split; [done|].
        destruct (isNull group'); [done|].
        destruct Hrow as (o & Hle & Hrow). exists o. split; [lia|done].
Qed.


Lemma sizeOf_resizeTo {A} n (fill : A) l : 0 ≤ n → sizeOf (resizeTo n fill l) = n.
Proof.
  intros Hn. unfold sizeOf, resizeTo. rewrite length_app, length_take, length_replicate. lia.
Qed.

(** What the aggregate's [extractValues] leaves in the map vector. *)
Lemma aggregateExtractValues_spec (store : list (Group K)) groups numGroups result :
  iterationContract →
  0 ≤ numGroups →
  (∀ i, 0 ≤ i < numGroups → ∃ group, groupAt store groups i = Returns group) →
  ∃ m,
    aggregateExtractValues store groups numGroups (Some result) = Returns m ∧
    sizeOf (rowNulls m) = numGroups ∧
    sizeOf (rowOffsets m) = numGroups ∧
    sizeOf (rowSizes m) = numGroups ∧
    ∀ i group, 0 ≤ i < numGroups → groupAt store groups i = Returns group →
      rowHolds m i group 0.
Proof.
  intros Hiter Hn Hgroups. unfold aggregateExtractValues, countElements.
  destruct (countElementsFrom_spec store groups (seqZ 0 numGroups) 0)
    as (numElements & Hcount & Hroom).
  { intros i Hi. apply elem_of_seqZ in Hi. apply Hgroups. lia. }
  rewrite Hcount. simpl.
  pose proof (elementsOf_nonneg store groups (seqZ 0 numGroups)) as Hnonneg.
  match goal with |- context [extractGroups store groups _ ?m0 0] =>
    destruct (extractGroups_spec store groups Hiter (seqZ 0 numGroups) m0 0)
      as (m & Hrun & Hln & Hlo & Hls & _ & _ & _ & _ & Hrows)
  end; simpl; rewrite ?sizeOf_resizeTo by lia; try done; try lia.
  { apply NoDup_seqZ. }
  { intros i Hi. apply elem_of_seqZ in Hi. split; [lia|]. apply Hgroups. lia. }
  simpl in *. rewrite ?sizeOf_resizeTo in * by lia.
  exists m. split_and!; try done.
  intros i group Hi. apply Hrows. apply elem_of_seqZ. lia.
Qed.


Lemma contribution_perm (key : K) entries1 entries2 :
  entries1 ≡ₚ entries2 → contribution key entries1 = contribution key entries2.
Proof.
  induction 1 as [|entry l1 l2 _ IH|e1 e2 l|l1 l2 l3 _ IH1 _ IH2]; simpl.
  - done.
  - by rewrite IH.
  - repeat case_decide; lia.
  - by rewrite IH1.
Qed.

Lemma mentions_entriesOf (key : K) (g : gmap K Z) :
  mentions key (entriesOf g) ↔ is_Some (g !! key).
Proof.
  unfold mentions, entriesOf. rewrite Exists_exists. split.
  - intros (entry & Hin & Hkey). apply list_elem_of_fmap in Hin as ([k v] & -> & Hin).
    simpl in Hkey. injection Hkey as ->. apply elem_of_map_to_list in Hin. by exists v.
  - intros [v Hv]. exists (Some key, Some v). split; [|done].
    apply list_elem_of_fmap. exists (key, v). split; [done|]. by apply elem_of_map_to_list.
Qed.

Lemma contribution_entriesOf (key : K) (g : gmap K Z) :
  contribution key (entriesOf g) = default 0 (g !! key).
Proof.
  induction g as [|k v g Hk Hfresh IH] using map_first_key_ind.
  { unfold entriesOf. by rewrite map_to_list_empty, lookup_empty. }
  unfold entriesOf in *. rewrite map_to_list_insert_first_key by done.
  rewrite fmap_cons. simpl. rewrite IH. case_decide as Hkey.
  - injection Hkey as ->. rewrite lookup_insert_eq, Hk. simpl. lia.
  - rewrite lookup_insert_ne by congruence. done.
Qed.

(** The row of a group that is not null, read back by [addValues]. *)
Lemma extracted_row_entries (store : list (Group K)) groups numGroups result m i group
    acc acc' :
  iterationContract →
  0 ≤ numGroups →
  (∀ i, 0 ≤ i < numGroups → ∃ group, groupAt store groups i = Returns group) →
  aggregateExtractValues store groups numGroups (Some result) = Returns m →
  0 ≤ i < numGroups →
  groupAt store groups i = Returns group →
  isNull group = false →
  addValues acc m (mapKeys m) (mapValues m) i = Returns acc' →
  ∃ offset,
    addValuesFrom acc (mapKeys m) (mapValues m) offset (seqZ 0 (size (value group)))
      = Returns acc' ∧
    rowEntries (mapKeys m) (mapValues m) offset (size (value group))
    = (λ entry, (Some entry.1, Some entry.2)) <$> iterate (sums (value group)).
Proof.
  intros Hiter Hn Hgroups Hextract Hi Hgroup Hnull Hadd.
  destruct (aggregateExtractValues_spec store groups numGroups result Hiter Hn Hgroups)
    as (m0 & Hrun & _ & _ & _ & Hrows).
  rewrite Hextract in Hrun. injection Hrun as <-.
  destruct (Hrows i group Hi Hgroup) as [_ Hrow]. rewrite Hnull in Hrow.
  destruct Hrow as (offset & _ & Ho & Hs & _ & Hentries).
  apply addValues_run in Hadd as (offset' & size' & Ho' & Hs' & Hadd).
  unfold offsetAt in Ho'. unfold sizeAt in Hs'. rewrite Ho in Ho'. rewrite Hs in Hs'.
  injection Ho' as <-. injection Hs' as <-. by exists offset.
Qed.

(** The sums after adding an extracted row, key by key. *)
Lemma extracted_row_lookup (store : list (Group K)) groups numGroups result m i group
    acc acc' :
  iterationContract →
  checkedPlusContract →
  0 ≤ numGroups →
  (∀ i, 0 ≤ i < numGroups → ∃ group, groupAt store groups i = Returns group) →
  aggregateExtractValues store groups numGroups (Some result) = Returns m →
  0 ≤ i < numGroups →
  groupAt store groups i = Returns group →
  isNull group = false →
  addValues acc m (mapKeys m) (mapValues m) i = Returns acc' →
  ∀ key,
    sums acc' !! key =
    match sums (value group) !! key with
    | Some sum => Some (sumOf acc key + sum)
    | None => sums acc !! key
    end.
Proof.
  intros Hiter Hcontract Hn Hgroups Hextract Hi Hgroup Hnull Hadd key.
  destruct (extracted_row_entries _ _ _ _ _ _ _ _ _ Hiter Hn Hgroups Hextract Hi Hgroup
              Hnull Hadd) as (offset & Hrun & Hentries).
  apply (addValuesFrom_spec _ _ _ Hcontract) in Hrun as [_ Hkeys]. cbv zeta in Hkeys.
  change (_ <$> seqZ 0 (size (value group)))
    with (rowEntries (mapKeys m) (mapValues m) offset (size (value group))) in Hkeys.
  destruct (Hkeys key) as [Hyes Hno].
  assert (rowEntries (mapKeys m) (mapValues m) offset (size (value group))
          ≡ₚ entriesOf (sums (value group))) as Hperm.
  { rewrite Hentries. by apply entriesOf_iterate. }
  assert (mentions key (rowEntries (mapKeys m) (mapValues m) offset (size (value group)))
          ↔ is_Some (sums (value group) !! key)) as Hmentions.
  { rewrite <- mentions_entriesOf. unfold mentions. by rewrite Hperm. }
  rewrite (contribution_perm _ _ _ Hperm), contribution_entriesOf in Hyes.
  destruct (sums (value group) !! key) as [v|] eqn:Hv.
  - by rewrite Hyes by (apply Hmentions; by eexists).
  - by rewrite Hno by (rewrite Hmentions; by intros [? ?]).
Qed.

(** X18.  For an integer sum type, adding a row that [extractAccumulators]
    wrote merges the group it came from into the accumulator: the sums
    afterwards are the sums of the accumulator and of the group added key by
    key, a key of either one alone keeping the sum it had there.  This is
    what [addIntermediateResults] does with each row of a partial result.
    Nothing is said of [float] and [double]. *)
Theorem intermediate_row_merges_into_accumulator
    (store : list (Group K)) groups numGroups result m i group acc acc' :
  iterationContract →
  checkedPlusContract →
  0 ≤ numGroups →
  (∀ i, 0 ≤ i < numGroups → ∃ group, groupAt store groups i = Returns group) →
  extractAccumulators store groups numGroups (Some result) = Returns m →
  0 ≤ i < numGroups →
  groupAt store groups i = Returns group →
  isNull group = false →
  addValues acc m (mapKeys m) (mapValues m) i = Returns acc' →
  sums acc' = union_with (λ a b, Some (a + b)) (sums acc) (sums (value group)).
Proof.
  intros Hiter Hcontract Hn Hgroups Hextract Hi Hgroup Hnull Hadd.
  apply map_eq. intros key. rewrite lookup_union_with.
  rewrite (extracted_row_lookup _ _ _ _ _ _ _ _ _ Hiter Hcontract Hn Hgroups Hextract Hi
             Hgroup Hnull Hadd key).
  unfold sumOf. by destruct (sums (value group) !! key), (sums acc !! key).
Qed.

Lemma addValuesFrom_shift (mapKeys : Column K) mapValues offset positions :
  ∀ acc,
    addValuesFrom acc mapKeys mapValues offset (Z.add 1 <$> positions)
    = addValuesFrom acc mapKeys mapValues (offset + 1) positions.
Proof.
  induction positions as [|i rest IH]; intros acc; [done|].
  rewrite fmap_cons. cbn [addValuesFrom].
  replace (offset + (1 + i)) with (offset + 1 + i) by lia.
  destruct (isNullAt mapKeys (offset + 1 + i)) as [null|]; [|done]. simpl.
  match goal with |- ?step ≫= _ = _ => destruct step as [acc1|] end; [|done].
  simpl. apply IH.
Qed.

(** Entries with keys that are new to the accumulator and with sums in the
    range of [S] are added without an error. *)
Lemma addValuesFrom_returns_on_fresh (mapKeys : Column K) mapValues (entries : list (K * Z)) :
  checkedPlusContract →
  ∀ acc offset,
    rowEntries mapKeys mapValues offset (sizeOf entries)
      = (λ entry, (Some entry.1, Some entry.2)) <$> entries →
    NoDup (entries.*1) →
    (∀ key, key ∈ entries.*1 → sums acc !! key = None) →
    Forall (λ entry, minValue ≤ entry.2 ≤ maxValue) entries →
    ∃ acc', addValuesFrom acc mapKeys mapValues offset (seqZ 0 (sizeOf entries)) = Returns acc'.
Proof.
  intros Hcontract. induction entries as [|[key sum] rest IH];
    intros acc offset Hentries Hnodup Hfresh Hrange.
  { by exists acc. }
  assert (sizeOf ((key, sum) :: rest) = sizeOf rest + 1) as Hsize
    by (unfold sizeOf; simpl; lia).
  rewrite Hsize in *.
  rewrite rowEntries_cons in Hentries by (unfold sizeOf; lia).
  rewrite fmap_cons in Hentries. injection Hentries as Hkey Hsum Hentries.
  replace (sizeOf rest + 1 - 1) with (sizeOf rest) in Hentries by lia.
  rewrite seqZ_cons by (unfold sizeOf; lia).
  replace (Z.pred (sizeOf rest + 1)) with (sizeOf rest) by lia.
  change (Z.succ 0) with (1 + 0). rewrite <- fmap_add_seqZ.
  cbn [addValuesFrom]. rewrite Z.add_0_r.
  assert (atZ mapKeys offset = Some (Some key)) as Hk.
  { destruct (atZ mapKeys offset) as [[?|]|]; simpl in Hkey; by simplify_eq. }
  assert (atZ mapValues offset = Some (Some sum)) as Hv.
  { destruct (atZ mapValues offset) as [[?|]|]; simpl in Hsum; by simplify_eq. }
  apply NoDup_cons in Hnodup as [Hnotin Hnodup].
  apply Forall_cons in Hrange as [Hsumrange Hrange]. simpl in Hsumrange.
  unfold isNullAt, valueAt, entryAt. rewrite Hk. simpl.
  unfold addValue, isNullAt, valueAt, entryAt. rewrite Hv. simpl.
  unfold sumOf. rewrite (Hfresh key) by (by left). simpl.
  destruct Hcontract as (Hinteger & Hzero & Hplus). rewrite Hinteger, Hplus.
  rewrite bool_decide_eq_true_2 by lia. simpl.
  rewrite addValuesFrom_shift. apply IH; try done.
  intros key' Hkey'. simpl. rewrite lookup_insert_ne; [apply Hfresh; by right|].
  intros ->. done.
Qed.

(** X19.  A partial result can be taken up again: the row that
    [extractAccumulators] wrote for a group that is not null, added to an
    empty accumulator as [addIntermediateResults] does for a new group, gives
    back the accumulator of the group, sum by sum.  This is stated for an
    integer sum type and a group whose sums are values of [S]; nothing is
    said of [float] and [double]. *)
Theorem extracted_row_restores_accumulator
    (store : list (Group K)) groups numGroups result m i group :
  iterationContract →
  checkedPlusContract →
  0 ≤ numGroups →
  (∀ i, 0 ≤ i < numGroups → ∃ group, groupAt store groups i = Returns group) →
  extractAccumulators store groups numGroups (Some result) = Returns m →
  0 ≤ i < numGroups →
  groupAt store groups i = Returns group →
  isNull group = false →
  inRange (value group) →
  addValues (mkAccumulator ∅) m (mapKeys m) (mapValues m) i = Returns (value group).
Proof.
  intros Hiter Hcontract Hn Hgroups Hextract Hi Hgroup Hnull Hrange.
  destruct (aggregateExtractValues_spec store groups numGroups result Hiter Hn Hgroups)
    as (m0 & Hrun & _ & _ & _ & Hrows).
  unfold extractAccumulators in Hextract. rewrite Hextract in Hrun. injection Hrun as <-.
  destruct (Hrows i group Hi Hgroup) as [_ Hrow]. rewrite Hnull in Hrow.
  destruct Hrow as (offset & _ & Ho & Hs & _ & Hentries).
  pose proof (iterate_size (value group) Hiter) as Hsize.
  destruct (addValuesFrom_returns_on_fresh (mapKeys m) (mapValues m)
              (iterate (sums (value group))) Hcontract (mkAccumulator ∅) offset)
    as [acc' Hadd].
  { by rewrite Hsize. }
  { rewrite (Hiter (sums (value group))). apply NoDup_fst_map_to_list. }
  { done. }
  { rewrite (Hiter (sums (value group))). apply Forall_forall. intros [key sum] Hin.
    apply elem_of_map_to_list in Hin. by apply (Hrange key sum). }
  rewrite Hsize in Hadd.
  assert (addValues (mkAccumulator ∅) m (mapKeys m) (mapValues m) i = Returns acc') as Hcall.
  { unfold addValues, offsetAt, sizeAt. rewrite Ho, Hs. done. }
  rewrite Hcall. f_equal.
  destruct acc' as [sums'], (value group) as [sumsOfGroup] eqn:Hvalue. f_equal.
  apply map_eq. intros key.
  pose proof (extracted_row_lookup _ _ _ _ _ _ _ _ _ Hiter Hcontract Hn Hgroups Hextract Hi
                Hgroup Hnull Hcall key) as Hlookup.
  rewrite Hvalue in Hlookup. unfold sumOf in Hlookup. simpl in Hlookup.
  rewrite Hlookup, lookup_empty. simpl. by destruct (sumsOfGroup !! key).
Qed.

End ExtractTheorems.

End MapUnionSumExtraction.

Module MapUnionSumInput.
Import MapUnionSum MapUnionSumProperties MapUnionSumExtraction MapUnionSumExamples.

Section InputTheorems.
Context {K : Type} `{Iteration K} `{CheckedArithmetic}.

(** X20.  [addRawInput] serves every group on its own: when it returns, the
    store has as many groups as before, and each group is what
    [addSingleGroupRawInput] makes of it with the rows whose group pointer
    names it, in their order; the rows of other groups do not show in it.
    In particular a group keeps its null flag until a row with a map that is
    not null comes for it. *)
Theorem addRawInput_serves_every_group_on_its_own
    (store : list (Group K)) groups rows decodedMaps store' :
  addRawInput store groups rows decodedMaps = Returns store' →
  length store' = length store ∧
  ∀ pointer group, store !! pointer = Some group →
    ∃ group',
      store' !! pointer = Some group' ∧
      addSingleGroupRawInput group (filter (λ row, atZ groups row = Some pointer) rows)
        decodedMaps = Returns group'.
Proof.
  revert store. induction rows as [|row rest IH]; intros store Hrun; simpl in Hrun.
  { injection Hrun as <-. split; [done|]. intros pointer group Hgroup. by exists group. }
  apply result_bind_Returns in Hrun as (null & Hnull & Hrun).
  apply result_bind_Returns in Hrun as (store1 & Hstep & Hrun).
  destruct (IH _ Hrun) as [Hlen IHgroups].
  destruct null.
  - injection Hstep as <-. split; [done|]. intros pointer group Hgroup.
    destruct (IHgroups pointer group Hgroup) as (group' & Hgroup' & Hsingle).
    exists group'. split; [done|].
    destruct (decide (atZ groups row = Some pointer)) as [Hmine|Hother].
    + rewrite filter_cons_True by done. simpl. rewrite Hnull. done.
    + by rewrite filter_cons_False.
  - destruct (atZ groups row) as [target|] eqn:Htarget; [|done].
    destruct (store !! target) as [old|] eqn:Hold; [|done].
    apply result_bind_Returns in Hstep as (groupMap & Hadd & [= <-]).
    split; [by rewrite Hlen, length_insert|]. intros pointer group Hgroup.
    destruct (decide (target = pointer)) as [->|Hne].
    + rewrite Hold in Hgroup. injection Hgroup as <-.
      destruct (IHgroups pointer (mkGroup false groupMap)) as (group' & Hgroup' & Hsingle).
      { apply list_lookup_insert_eq. by apply lookup_lt_Some in Hold. }
      exists group'. split; [done|].
      rewrite filter_cons_True by done. simpl. rewrite Hnull. simpl. rewrite Hadd. done.
    + destruct (IHgroups pointer group) as (group' & Hgroup' & Hsingle).
      { by rewrite list_lookup_insert_ne. }
      exists group'. split; [done|]. rewrite filter_cons_False; [done|]. congruence.
Qed.

End InputTheorems.

(** The contracts on the instances of the examples. *)
Lemma int8_checkedPlusContract : @checkedPlusContract int8Arithmetic.
Proof. split; [done|]. split; [simpl; lia|done]. Qed.

Lemma listed_iterationContract : @iterationContract Z _ _ (listedIteration Z).
Proof. by intros sums. Qed.

#[local] Existing Instance int8Arithmetic.
#[local] Instance exIteration : Iteration Z := listedIteration Z.

(** X13 on [exAccumulator] and row 0 of [exInput]: key 1 goes from 100 to
    120, key 2 comes in with 0 for its null value, key 3 stays at 5, and the
    7 under the null key is dropped. *)
Lemma addValues_sums_per_key_witness :
  ∃ acc',
    addValues exAccumulator exInput (mapKeys exInput) (mapValues exInput) 0 = Returns acc' ∧
    sums acc' !! 1 = Some 120 ∧ sums acc' !! 2 = Some 0 ∧ sums acc' !! 3 = Some 5.
Proof.
  destruct (addValues exAccumulator exInput (mapKeys exInput) (mapValues exInput) 0)
    as [acc'|e] eqn:Hrun; [|by vm_compute in Hrun].
  destruct (addValues_sums_per_key exAccumulator exInput (mapKeys exInput) (mapValues exInput)
              0 acc' int8_checkedPlusContract Hrun)
    as (offset & size' & Hoffset & Hsize & Hkeys).
  injection Hoffset as <-. injection Hsize as <-. cbv zeta in Hkeys.
  exists acc'. split_and!; [done|..].
  - apply (proj1 (Hkeys 1)). apply Exists_cons. by left.
  - apply (proj1 (Hkeys 2)). do 2 (apply Exists_cons; right). apply Exists_cons. by left.
  - rewrite (proj2 (Hkeys 3)); [done|].
    intros Hm. repeat (apply Exists_cons in Hm as [Hm|Hm]; [discriminate Hm|]).
    by apply Exists_nil in Hm.
Defined.

Lemma exAccumulator_inRange : inRange exAccumulator.
Proof.
  unfold inRange, exAccumulator. simpl.
  apply map_Forall_insert_2; [lia|]. apply map_Forall_insert_2; [lia|].
  apply map_Forall_empty.
Qed.

(** X14 on [exAccumulator] and row 0 of [exInput]. *)
Lemma addValues_keeps_sums_in_range_witness :
  ∃ acc',
    addValues exAccumulator exInput (mapKeys exInput) (mapValues exInput) 0 = Returns acc' ∧
    inRange acc'.
Proof.
  destruct (addValues exAccumulator exInput (mapKeys exInput) (mapValues exInput) 0)
    as [acc'|e] eqn:Hrun; [|by vm_compute in Hrun].
  exists acc'. split; [done|].
  exact (addValues_keeps_sums_in_range exAccumulator exInput (mapKeys exInput)
           (mapValues exInput) 0 acc' int8_checkedPlusContract exAccumulator_inRange Hrun).
Defined.

(** With [int8_t] sums the order of the rows decides whether a sum
    overflows: from 100, adding 20 and then 20 and -20 fails at 140, adding
    -20 between the two 20s does not. *)
Example overflow_depends_on_the_order :
  exAddRow (exAddRow (exAddRow (Returns exAccumulator) 0) 0) 1 = Raises ArithmeticError ∧
  ∃ acc', exAddRow (exAddRow (exAddRow (Returns exAccumulator) 0) 1) 0 = Returns acc' ∧
          sums acc' !! 1 = Some 120.
Proof. split; [vm_compute; reflexivity|]. eexists. split; vm_compute; reflexivity. Qed.

(** X15 on [exAccumulator]: rows 0 and 1 of [exInput] in both orders. *)
Lemma addValues_in_either_order_witness :
  ∃ acc12 acc21,
    exAddRow (exAddRow (Returns exAccumulator) 0) 1 = Returns acc12 ∧
    exAddRow (exAddRow (Returns exAccumulator) 1) 0 = Returns acc21 ∧
    acc12 = acc21.
Proof.
  destruct (addValues exAccumulator exInput (mapKeys exInput) (mapValues exInput) 0)
    as [acc1|e] eqn:Ha; [|by vm_compute in Ha].
  destruct (addValues exAccumulator exInput (mapKeys exInput) (mapValues exInput) 1)
    as [acc2|e] eqn:Hb; [|by vm_compute in Hb].
  destruct (addValues acc1 exInput (mapKeys exInput) (mapValues exInput) 1)
    as [acc12|e] eqn:Hab.
  2:{ vm_compute in Ha. injection Ha as <-. by vm_compute in Hab. }
  destruct (addValues acc2 exInput (mapKeys exInput) (mapValues exInput) 0)
    as [acc21|e] eqn:Hba.
  2:{ vm_compute in Hb. injection Hb as <-. by vm_compute in Hba. }
  exists acc12, acc21. unfold exAddRow. cbn [mbind result_bind]. split_and!.
  - rewrite Ha. exact Hab.
  - rewrite Hb. exact Hba.
  - exact (addValues_in_either_order exAccumulator exInput exInput _ _ 0 _ _ 1
             acc1 acc12 acc2 acc21 int8_checkedPlusContract Ha Hab Hb Hba).
Defined.


(** X16 on [exAccumulator], written from position 1 of columns of four
    rows. *)
Lemma extractValues_writes_every_entry_once_witness :
  ∃ keys' values',
    extractValues exAccumulator (replicate 4 None) (replicate 4 None) 1
      = Returns (keys', values', 2) ∧
    atZ keys' 0 = Some None ∧ atZ keys' 3 = Some None ∧
    rowEntries keys' values' 1 2 ≡ₚ [(Some 3, Some 5); (Some 1, Some 100)].
Proof.
  destruct (extractValues_writes_every_entry_once exAccumulator (replicate 4 None)
              (replicate 4 None) 1 listed_iterationContract)
    as (keys' & values' & Hrun & _ & _ & Hother & Hentries);
    [lia|vm_compute; discriminate|vm_compute; discriminate|].
  exists keys', values'. split_and!; [exact Hrun|..].
  - destruct (Hother 0) as [-> _]; [|done]. vm_compute. intros [? ?]. done.
  - destruct (Hother 3) as [-> _]; [|done]. vm_compute. intros [_ ?]. done.
  - exact Hentries.
Defined.

Lemma exGroups_good i :
  0 ≤ i < 3 → ∃ group, groupAt exStore exGroups i = Returns group.
Proof.
  intros Hi. assert (i = 0 ∨ i = 1 ∨ i = 2) as [->|[->| ->]] by lia; by eexists.
Qed.


(** X18 on [exStore]: the row of [exAccumulator], added to [{1: 7, 2: 1}],
    gives [{1: 107, 2: 1, 3: 5}]. *)
Lemma intermediate_row_merges_witness :
  ∃ m acc',
    extractAccumulators exStore exGroups 3 (Some exResult) = Returns m ∧
    addValues (mkAccumulator (<[1 := 7]> (<[2 := 1]> ∅))) m (mapKeys m) (mapValues m) 1
      = Returns acc' ∧
    sums acc' !! 1 = Some 107 ∧ sums acc' !! 2 = Some 1 ∧ sums acc' !! 3 = Some 5.
Proof.
  destruct (extractAccumulators exStore exGroups 3 (Some exResult)) as [m|e] eqn:Hextract;
    [|by vm_compute in Hextract].
  destruct (addValues (mkAccumulator (<[1 := 7]> (<[2 := 1]> ∅))) m (mapKeys m) (mapValues m) 1)
    as [acc'|e] eqn:Hadd.
  2:{ vm_compute in Hextract. injection Hextract as <-. by vm_compute in Hadd. }
  pose proof (intermediate_row_merges_into_accumulator exStore exGroups 3 exResult m 1
                (mkGroup false exAccumulator) _ acc' listed_iterationContract
                int8_checkedPlusContract ltac:(lia) exGroups_good Hextract ltac:(lia)
                eq_refl eq_refl Hadd) as Hsums.
  exists m, acc'. split_and!; [done|done|..]; by rewrite Hsums.
Defined.

(** X19 on [exStore]: the row of [exAccumulator] gives it back. *)
Lemma extracted_row_restores_accumulator_witness :
  ∃ m,
    extractAccumulators exStore exGroups 3 (Some exResult) = Returns m ∧
    addValues (mkAccumulator ∅) m (mapKeys m) (mapValues m) 1 = Returns exAccumulator.
Proof.
  destruct (extractAccumulators exStore exGroups 3 (Some exResult)) as [m|e] eqn:Hextract;
    [|by vm_compute in Hextract].
  exists m. split; [done|].
  exact (extracted_row_restores_accumulator exStore exGroups 3 exResult m 1
           (mkGroup false exAccumulator) listed_iterationContract int8_checkedPlusContract
           ltac:(lia) exGroups_good Hextract ltac:(lia) eq_refl eq_refl exAccumulator_inRange).
Defined.

(** X20 on [exStore] and [exDecoded]: group 1 gets rows 0, 2 and 3, group 2
    gets row 1, and group 0 stays null. *)
Lemma addRawInput_serves_every_group_witness :
  ∃ store' group1,
    addRawInput exStore [1; 2; 1; 1]%nat [0; 1; 2; 3] exDecoded = Returns store' ∧
    store' !! 0%nat = Some (mkGroup true (mkAccumulator ∅)) ∧
    store' !! 1%nat = Some group1 ∧
    addSingleGroupRawInput (mkGroup false exAccumulator) [0; 2; 3] exDecoded = Returns group1.
Proof.
  destruct (addRawInput exStore [1; 2; 1; 1]%nat [0; 1; 2; 3] exDecoded) as [store'|e] eqn:Hrun;
    [|by vm_compute in Hrun].
  destruct (addRawInput_serves_every_group_on_its_own exStore [1; 2; 1; 1]%nat [0; 1; 2; 3]
              exDecoded store' Hrun) as [_ Hgroups].
  destruct (Hgroups 0%nat _ eq_refl) as (group0 & Hgroup0 & Hsingle0).
  destruct (Hgroups 1%nat _ eq_refl) as (group1 & Hgroup1 & Hsingle1).
  exists store', group1. split_and!; [done| |done|exact Hsingle1].
  rewrite Hgroup0. by injection Hsingle0 as <-.
Defined.

End MapUnionSumInput.

Module MapUnionSumTotals.
Import MapUnionSum MapUnionSumProperties MapUnionSumExamples.

Section TotalTheorems.
Context {K : Type} `{Iteration K} `{CheckedArithmetic}.

Lemma contribution_app (key : K) (entries1 entries2 : list (option K * option Z)) :
  contribution key (entries1 ++ entries2)
  = contribution key entries1 + contribution key entries2.
Proof.
  unfold contribution. induction entries1 as [|entry entries1 IH]; [done|].
  rewrite <- app_comm_cons. cbn [foldr]. rewrite IH. case_decide; lia.
Qed.

Lemma mentions_app (key : K) (entries1 entries2 : list (option K * option Z)) :
  mentions key (entries1 ++ entries2) ↔ mentions key entries1 ∨ mentions key entries2.
Proof. unfold mentions. apply Exists_app. Qed.

(** One row for one accumulator: what [addMap] adds are the entries of the
    map the row names. *)
Lemma addMap_spec (acc : Accumulator K) decodedMaps row acc' :
  checkedPlusContract →
  addMap acc decodedMaps row = Returns acc' →
  ∃ index,
    atZ (decodedIndices decodedMaps) row = Some index ∧
    let entries := mapEntries (decodedBase decodedMaps) index in
    ∀ key,
      (mentions key entries →
         sums acc' !! key = Some (sumOf acc key + contribution key entries)) ∧
      (¬ mentions key entries → sums acc' !! key = sums acc !! key).
Proof.
  intros Hcontract Hrun. unfold addMap in Hrun.
  apply result_bind_Returns in Hrun as (index & Hindex & Hrun).
  unfold decodedIndex in Hindex.
  destruct (atZ (decodedIndices decodedMaps) row) as [index'|] eqn:Hi; [|done].
  injection Hindex as ->. exists index. split; [done|].
  apply addValues_run in Hrun as (offset & size & Hoffset & Hsize & Hrun).
  unfold offsetAt in Hoffset. unfold sizeAt in Hsize. unfold mapEntries.
  destruct (atZ (rowOffsets (decodedBase decodedMaps)) index) as [offset'|]; [|done].
  destruct (atZ (rowSizes (decodedBase decodedMaps)) index) as [size'|]; [|done].
  injection Hoffset as ->. injection Hsize as ->.
  by apply (addValuesFrom_spec _ _ _ Hcontract) in Hrun as [_ Hkeys].
Qed.

(** X24.  What the aggregate computes for a group when the sum type is an
    integer type: when [addSingleGroupRawInput] returns, the sum of every
    key that the maps of the rows mention is the sum the group had for it, 0
    for a new key, plus all the values the maps hold for the key, a null
    value counting as 0 and the maps that are null counting for nothing; the
    sum of any other key is as it was.  The group is null afterwards exactly
    when it was null before and every row brought a null map.  The checked
    addition is relied on to return the exact sum when it returns.  Nothing
    is said of the sums of [float] and [double], which round. *)
Theorem addSingleGroupRawInput_sums_every_map
    (group : Group K) rows decodedMaps group' :
  checkedPlusContract →
  addSingleGroupRawInput group rows decodedMaps = Returns group' →
  let entries := inputEntries decodedMaps rows in
  (isNull group' = true ↔
     isNull group = true ∧ ∀ row, row ∈ rows → atZ (decodedNulls decodedMaps) row = Some true) ∧
  ∀ key,
    (mentions key entries →
       sums (value group') !! key
       = Some (sumOf (value group) key + contribution key entries)) ∧
    (¬ mentions key entries → sums (value group') !! key = sums (value group) !! key).
Proof.
  intros Hcontract. revert group.
  induction rows as [|row rest IH]; intros group Hrun; cbn [addSingleGroupRawInput] in Hrun.
  { injection Hrun as <-. split.
    - split; [intros ?; split; [done|]; intros row Hrow; by apply elem_of_nil in Hrow|by intros [? _]].
    - intros key. split; [|done]. intros Hm. by apply Exists_nil in Hm. }
  apply result_bind_Returns in Hrun as (null & Hnull & Hrun).
  apply result_bind_Returns in Hrun as (group1 & Hstep & Hrun).
  destruct (IH _ Hrun) as [IHnull IHkeys]. clear IH.
  unfold decodedIsNullAt in Hnull.
  destruct (atZ (decodedNulls decodedMaps) row) as [null'|] eqn:Hflag; [|done].
  injection Hnull as ->.
  unfold inputEntries. rewrite bind_cons. fold (inputEntries decodedMaps rest). rewrite Hflag.
  destruct null.
  - injection Hstep as <-. rewrite app_nil_l. split; [|done].
    rewrite IHnull. split.
    + intros [? Hrest]. split; [done|]. intros r Hr.
      apply elem_of_cons in Hr as [->|Hr]; [done|by apply Hrest].
    + intros [? Hall]. split; [done|]. intros r Hr. apply Hall. by right.
  - apply result_bind_Returns in Hstep as (groupMap & Hadd & [= <-]).
    destruct (addMap_spec _ _ _ _ Hcontract Hadd) as (index & -> & Hfirst).
    cbv zeta in Hfirst. simpl in IHnull, IHkeys.
    set (first := mapEntries (decodedBase decodedMaps) index) in *.
    set (others := inputEntries decodedMaps rest) in *.
    split.
    + rewrite IHnull. split; [by intros [? _]|].
      intros [_ Hall]. specialize (Hall row (proj2 (elem_of_cons _ _ _) (or_introl eq_refl))). congruence.
    + intros key. destruct (IHkeys key) as [Hin Hout]. destruct (Hfirst key) as [Hin1 Hout1].
      rewrite mentions_app, contribution_app.
      assert (Decision (mentions key first)) as [Hm1|Hm1] by (unfold mentions; apply _);
        assert (Decision (mentions key others)) as [Hm2|Hm2] by (unfold mentions; apply _).
      * split; [|tauto]. intros _. rewrite (Hin Hm2). unfold sumOf at 1.
        rewrite (Hin1 Hm1). simpl. f_equal; lia.
      * split; [|tauto]. intros _. rewrite (Hout Hm2), (Hin1 Hm1).
        rewrite (contribution_not_mentioned key others Hm2). f_equal; lia.
      * split; [|tauto]. intros _. rewrite (Hin Hm2). unfold sumOf at 1.
        rewrite (Hout1 Hm1). fold (sumOf (value group) key).
        rewrite (contribution_not_mentioned key first Hm1). f_equal; lia.
      * split; [tauto|]. intros _. by rewrite (Hout Hm2), (Hout1 Hm1).
Qed.

End TotalTheorems.

#[local] Existing Instance int8Arithmetic.
#[local] Instance exIteration : Iteration Z := listedIteration Z.

(** X24 on [exDecoded]: a new group that gets rows 0, 2 and 3, the maps
    [{1: 20, null: 7, 2: null}], null and [{1: -20}], ends with [{1: 0, 2: 0}]
    and is not null. *)
Lemma addSingleGroupRawInput_sums_every_map_witness :
  ∃ group',
    addSingleGroupRawInput (mkGroup true (mkAccumulator ∅)) [0; 2; 3] exDecoded = Returns group' ∧
    isNull group' = false ∧
    sums (value group') !! 1 = Some 0 ∧ sums (value group') !! 2 = Some 0 ∧
    sums (value group') !! 3 = None.
Proof.
  destruct (addSingleGroupRawInput (mkGroup true (mkAccumulator ∅)) [0; 2; 3] exDecoded)
    as [group'|e] eqn:Hrun; [|by vm_compute in Hrun].
  destruct (addSingleGroupRawInput_sums_every_map _ _ _ _
              MapUnionSumInput.int8_checkedPlusContract Hrun) as [Hnull Hkeys].
  exists group'. split_and!; [done|..].
  - destruct (isNull group'); [|done]. destruct (proj1 Hnull eq_refl) as [_ Hall].
    by specialize (Hall 0 (proj2 (elem_of_cons _ _ _) (or_introl eq_refl))).
  - apply (proj1 (Hkeys 1)). apply Exists_cons. by left.
  - apply (proj1 (Hkeys 2)). do 2 (apply Exists_cons; right). apply Exists_cons. by left.
  - rewrite (proj2 (Hkeys 3)); [done|].
    intros Hm. repeat (apply Exists_cons in Hm as [Hm|Hm]; [discriminate Hm|]).
    by apply Exists_nil in Hm.
Defined.

End MapUnionSumTotals.

(** * Properties of the data sinks *)

Module DataSinkProperties.
Import DataSink.

Section WriteTheorems.
Context {OS : Type} `{Platform OS}.

(** The loop from [offset] on: it ends, with the rest of the buffer written
    or, at a failed call, with part of it. *)
Lemma writeFrom_spec (file_ : Z) (buffer : list Byte.byte) :
  writeAppends →
  ∀ steps os offset os' ending,
    0 ≤ offset ≤ sizeOf buffer →
    sizeOf buffer - offset ≤ Z.of_nat steps →
    writeFrom steps os file_ buffer offset = (os', ending) →
    match ending with
    | Returns size =>
        size = sizeOf buffer ∧
        fileBytes os' file_ = fileBytes os file_ ++ drop (Z.to_nat offset) buffer
    | Raises e =>
        e = EnsureFailed ∧
        ∃ k, offset ≤ k < sizeOf buffer ∧
          fileBytes os' file_
          = fileBytes os file_ ++ take (Z.to_nat (k - offset)) (drop (Z.to_nat offset) buffer)
    | StillRunning => False
    end.
Proof.
  intros Hposix. induction steps as [|steps IH]; intros os offset os' ending Hoffset Hsteps;
    cbn [writeFrom]; cbv zeta; case_bool_decide as Hmore.
  - lia.
  - intros [= <- <-]. split; [done|].
    rewrite drop_ge by (unfold sizeOf in *; lia). by rewrite app_nil_r.
  - destruct (sysWrite os file_ (drop (Z.to_nat offset) buffer)) as [os1 n] eqn:Hwrite.
    assert (sizeOf (drop (Z.to_nat offset) buffer) = sizeOf buffer - offset) as Hdrop.
    { unfold sizeOf in *. rewrite length_drop. lia. }
    destruct (bool_decide (n = -1)) eqn:Herror.
    { apply bool_decide_eq_true in Herror. pose proof (Hposix _ _ _ _ _ Hwrite) as Hn.
      rewrite bool_decide_eq_false_2 in Hn by lia.
      intros [= <- <-]. split; [done|]. exists offset. split; [lia|].
      by rewrite Hn, Z.sub_diag, app_nil_r. }
    destruct (bool_decide (0 < n)) eqn:Hprogress.
    + apply bool_decide_eq_true in Hprogress. pose proof (Hposix _ _ _ _ _ Hwrite) as Hn.
      rewrite bool_decide_eq_true_2 in Hn by done.
      destruct Hn as [Hle Hbytes]. rewrite Hdrop in Hle. intros Hrun.
      apply IH in Hrun; [|lia..].
      assert (take (Z.to_nat n) (drop (Z.to_nat offset) buffer)
                ++ drop (Z.to_nat (offset + n)) buffer
              = drop (Z.to_nat offset) buffer) as Hjoin.
      { replace (Z.to_nat (offset + n)) with (Z.to_nat offset + Z.to_nat n)%nat by lia.
        rewrite <- drop_drop. apply take_drop. }
      destruct ending as [size|e|]; [| |done].
      * destruct Hrun as [-> Hrest]. split; [done|].
        by rewrite Hrest, Hbytes, <- app_assoc, Hjoin.
      * destruct Hrun as (-> & k & Hk & Hrest). split; [done|].
        exists k. split; [lia|]. rewrite Hrest, Hbytes, <- app_assoc. f_equal.
        replace (Z.to_nat (k - offset)) with (Z.to_nat n + Z.to_nat (k - (offset + n)))%nat
          by lia.
        rewrite <- Hjoin at 2.
        rewrite take_app_ge by (rewrite length_take, length_drop; unfold sizeOf in *; lia).
        f_equal. f_equal.
        rewrite length_take, length_drop. unfold sizeOf in *. lia.
    + apply bool_decide_eq_false in Hprogress. pose proof (Hposix _ _ _ _ _ Hwrite) as Hn.
      rewrite bool_decide_eq_false_2 in Hn by done.
      intros [= <- <-]. split; [done|]. exists offset. split; [lia|].
      by rewrite Hn, Z.sub_diag, app_nil_r.
  - intros [= <- <-]. split; [done|].
    rewrite drop_ge by (unfold sizeOf in *; lia). by rewrite app_nil_r.
Qed.

(** X21.  [LocalFileSink::write] writes a buffer to the end, however few
    bytes the system takes at a time: the loop ends within [buffer.size()]
    turns, and when it returns it returns the size of the buffer and the file
    has grown by exactly the bytes of the buffer, in their order.  When a
    call of [write] answers -1 or writes nothing, the check fails and the file
    has grown by the bytes written up to then, a proper prefix of the buffer.
    For an empty buffer the system is not called at all. *)
Theorem write_retries_until_the_buffer_is_written (os : OS) file_ buffer os' ending :
  writeAppends →
  writeBuffer os file_ buffer = (os', ending) →
  (buffer = [] → os' = os ∧ ending = Returns 0) ∧
  match ending with
  | Returns size =>
      size = sizeOf buffer ∧ fileBytes os' file_ = fileBytes os file_ ++ buffer
  | Raises e =>
      e = EnsureFailed ∧
      ∃ k, 0 ≤ k < sizeOf buffer ∧
        fileBytes os' file_ = fileBytes os file_ ++ take (Z.to_nat k) buffer
  | StillRunning => False
  end.
Proof.
  intros Hposix Hrun. split.
  - intros ->. by injection Hrun as <- <-.
  - unfold writeBuffer in Hrun. apply (writeFrom_spec _ _ Hposix) in Hrun.
    + destruct ending as [size|e|]; [done| |done].
      destruct Hrun as (-> & k & Hk & Hbytes). split; [done|]. exists k.
      by rewrite Z.sub_0_r in Hbytes.
    + unfold sizeOf. lia.
    + unfold sizeOf. lia.
Qed.

End WriteTheorems.

Section CreateTheorems.
Context {OS : Type} `{Platform OS}.

Lemma askFactories_app (pre rest : list (Factory (OS := OS))) os filePath :
  askFactories (pre ++ rest) os filePath =
  match askFactories pre os filePath with
  | (os1, Returns None) => askFactories rest os1 filePath
  | answer => answer
  end.
Proof.
  revert os. induction pre as [|factory pre IH]; intros os; simpl; [done|].
  destruct (factory os filePath) as [os1 [[sink|]|e|]]; first [done | apply IH].
Qed.

(** X22.  [DataSink::create] asks the factories in the order they were
    registered and takes the first sink it is offered.  A factory registered
    last is asked only when every factory before it has declined, in the
    state they left; its sink is the result, and when it declines too the
    result is a [LocalFileSink] on the path as given.  When a factory before
    it offers a sink, that sink is the result and the new factory is not
    asked. *)
Theorem create_asks_factories_in_registration_order
    (factories : list (Factory (OS := OS))) factory os filePath :
  (∀ os1, askFactories factories os filePath = (os1, Returns None) →
     create (registerFactory factories factory).1 os filePath true =
     match factory os1 filePath with
     | (os2, Returns (Some sink)) => (os2, Returns sink)
     | (os2, Returns None) => newLocalFileSink os2 filePath
     | (os2, Raises e) => (os2, Raises e)
     | (os2, StillRunning) => (os2, StillRunning)
     end) ∧
  (∀ os1 sink, askFactories factories os filePath = (os1, Returns (Some sink)) →
     create (registerFactory factories factory).1 os filePath true = (os1, Returns sink)).
Proof.
  split.
  - intros os1 Hdeclined. unfold create, registerFactory. simpl.
    rewrite askFactories_app, Hdeclined. simpl.
    by destruct (factory os1 filePath) as [os2 [[sink|]|e|]].
  - intros os1 sink Hoffered. unfold create, registerFactory. simpl.
    by rewrite askFactories_app, Hoffered.
Qed.

Lemma substring_all (s : string) : String.substring 0 (String.length s) s = s.
Proof. induction s as [|a s IH]; simpl; [done|]. by rewrite IH. Qed.

Lemma hasFileScheme_scheme (path : string) : hasFileScheme ("file:" +:+ path) = true.
Proof. unfold hasFileScheme. simpl. repeat (destruct (Ascii.ascii_dec _ _); [|done]). by destruct path. Qed.

Lemma substr5_scheme (path : string) : substr5 ("file:" +:+ path) = path.
Proof. unfold substr5. simpl. rewrite Nat.sub_0_r. apply substring_all. Qed.

(** X23.  A local path names the same file with and without the [file:]
    scheme, as far as the other factories let it through.  With
    [localFileSink] registered and every factory before it declining
    ["file:" + path], [create] on that name strips the five characters of
    the scheme and gives what [LocalFileSink(path)] gives; with every other
    factory declining [path], [create] on [path] falls back to the same
    constructor on the path as it is.  [localWriteFileSink] in its place
    gives a [WriteFileDataSink] named [path] for ["file:" + path] and
    declines [path].  The system states are those the declining factories
    leave. *)
Theorem create_strips_the_file_scheme
    (pre post : list (Factory (OS := OS))) (os os1 os2 os3 : OS) (path : string) :
  hasFileScheme path = false →
  askFactories pre os ("file:" +:+ path) = (os1, Returns None) →
  askFactories pre os path = (os2, Returns None) →
  askFactories post os2 path = (os3, Returns None) →
  create (pre ++ localFileSink :: post) os ("file:" +:+ path) true
    = newLocalFileSink os1 path ∧
  create (pre ++ localFileSink :: post) os path true = newLocalFileSink os3 path ∧
  create (pre ++ localWriteFileSink :: post) os path true = newLocalFileSink os3 path ∧
  create (pre ++ localWriteFileSink :: post) os ("file:" +:+ path) true =
    match newLocalWriteFile os1 path with
    | (os4, Some writeFile) => (os4, Returns (WriteFileDataSink writeFile path))
    | (os4, None) => (os4, Raises RaisedError)
    end.
Proof.
  intros Hplain Hscheme Hpre Hpost. unfold create. simpl negb. cbv iota.
  rewrite !askFactories_app, Hscheme, Hpre. cbn [askFactories].
  unfold localFileSink, localWriteFileSink.
  rewrite Hplain, hasFileScheme_scheme, substr5_scheme, Hpost. split_and!.
  - by destruct (newLocalFileSink os1 path) as [os4 [sink|e|]].
  - done.
  - done.
  - by destruct (newLocalWriteFile os1 path) as [os4 [writeFile|]].
Qed.

End CreateTheorems.

(** The example system keeps the promise of [write]. *)
Lemma ex_writeAppends : writeAppends (OS := ExOS).
Proof.
  intros os fd data os' n. simpl. case_bool_decide as Hfd; intros [= <- <-]; simpl.
  - destruct data as [|a [|b data]]; try done.
    + by rewrite app_nil_r.
    + replace (Z.min 2 (sizeOf (a :: b :: data))) with 2
        by (unfold sizeOf; simpl length; lia).
      rewrite bool_decide_eq_true_2 by lia. split; [unfold sizeOf; simpl length; lia|done].
  - done.
Qed.

(** X21 on the example system: five bytes go through in three calls. *)
Lemma write_retries_until_the_buffer_is_written_witness :
  let buffer := [Byte.x61; Byte.x62; Byte.x63; Byte.x64; Byte.x65] in
  ∃ os',
    writeBuffer (mkExOS [] []) 3 buffer = (os', Returns 5) ∧
    fileBytes os' 3 = buffer.
Proof.
  intros buffer.
  destruct (writeBuffer (mkExOS [] []) 3 buffer) as [os' ending] eqn:Hrun.
  pose proof (write_retries_until_the_buffer_is_written _ _ _ _ _ ex_writeAppends Hrun)
    as [_ Hending].
  exists os'. vm_compute in Hrun. injection Hrun as <- <-.
  split; [reflexivity|exact (proj2 Hending)].
Defined.

(** X22 on the example system: a factory that declines everything,
    registered first, leaves the path to [localFileSink]. *)
Lemma create_asks_factories_in_registration_order_witness :
  ∃ os',
    create (registerFactory [λ os _, (os, Returns None)] localFileSink).1 (mkExOS [] [])
      "file:/tmp/out" true
    = (os', Returns (LocalFileSink "/tmp/out" 3)).
Proof.
  eexists.
  rewrite (proj1 (create_asks_factories_in_registration_order
                    [λ os _, (os, Returns None)] localFileSink (mkExOS [] []) "file:/tmp/out")
             (mkExOS [] []) eq_refl).
  vm_compute. reflexivity.
Defined.

(** X23 on the example system, with [localFileSink] the only factory. *)
Lemma create_strips_the_file_scheme_witness :
  create [localFileSink] (mkExOS [] []) "file:/tmp/out" true
  = create [localFileSink] (mkExOS [] []) "/tmp/out" true.
Proof.
  destruct (create_strips_the_file_scheme [] [] (mkExOS [] []) (mkExOS [] []) (mkExOS [] [])
              (mkExOS [] []) "/tmp/out" eq_refl eq_refl eq_refl eq_refl)
    as (Hscheme & Hplain & _).
  change "file:/tmp/out" with ("file:" +:+ "/tmp/out").
  change [localFileSink] with ([] ++ localFileSink :: []).
  by rewrite Hscheme, Hplain.
Defined.

(** With both factories of the file registered, the one registered first
    takes a name with the scheme, and a name without it goes to neither: the
    two names of one path give sinks of different kinds. *)
Example registration_order_decides_the_kind_of_sink :
  (create [localWriteFileSink; localFileSink] (mkExOS [] []) "file:/tmp/out" true).2
    = Returns (WriteFileDataSink 3 "/tmp/out") ∧
  (create [localWriteFileSink; localFileSink] (mkExOS [] []) "/tmp/out" true).2
    = Returns (LocalFileSink "/tmp/out" 3).
Proof. split; vm_compute; reflexivity. Qed.

End DataSinkProperties.
